(** * Sudoku engine: solver, solution counter and puzzle generator

    A shallow embedding of [SmartSudokuSolver] and [generate_puzzle] from
    [src/sudoku/main.py], with the properties of the specification proved
    (or corrected) against it.

    Conventions of the embedding.
    - A board is the Python list of row lists, [list (list Z)]; cell values
      are Python integers ([Z]), indices are the non-negative integers
      produced by [range] ([nat]).
    - Reading or writing [board[i][j]] outside the lists raises
      [IndexError]; every function that indexes returns a [result].
    - Methods that assign to cells of their argument are written in state
      passing style: they return the final content of the board object
      together with their Python return value.
    - Recursion is by fuel; the entry points run with more fuel than a
      9x9 board can consume (one level per empty cell). *)

From Stdlib Require Import ZArith Lia ZifyNat Sorted.
From stdpp Require Import base tactics option list strings pretty pmap gmap.

Open Scope Z_scope.

(** ** Results of partial computations *)

Inductive result (A : Type) : Type :=
| Ok (a : A)
| IndexError
| OutOfFuel.
Arguments Ok {A} a.
Arguments IndexError {A}.
Arguments OutOfFuel {A}.

#[global] Instance result_ret : MRet result := fun A a => Ok a.
#[global] Instance result_bind : MBind result := fun A B f m =>
  match m with
  | Ok a => f a
  | IndexError => IndexError
  | OutOfFuel => OutOfFuel
  end.

(** ** Boards *)

Abbreviation board := (list (list Z)).

(** [board[i][j]] *)
Definition cell (b : board) (i j : nat) : result Z :=
  match b !! i with
  | Some row =>
      match row !! j with
      | Some v => Ok v
      | None => IndexError
      end
  | None => IndexError
  end.

(** [board[i][j] = v] *)
Definition set_cell (b : board) (i j : nat) (v : Z) : result board :=
  match b !! i with
  | Some row =>
      if decide (j < length row)%nat
      then Ok (<[i := <[j := v]> row]> b)
      else IndexError
  | None => IndexError
  end.

(** [range(9)] and [range(1, 10)] *)
Definition range9 : list nat := seq 0 9.
Definition digits : list Z := [1; 2; 3; 4; 5; 6; 7; 8; 9].

(** [[(i, j) for i in range(9) for j in range(9)]]: also the order in which
    the nested [for i ... for j ...] loops visit the cells. *)
Definition all_cells : list (nat * nat) :=
  i ← range9; j ← range9; [(i, j)].

(** ** SmartSudokuSolver *)

(** [for x in xs: if test(x): return False]: [Ok true] when some test
    fired (the function returns), [Ok false] when the loop ran to its end. *)
Fixpoint any_conflict {X : Type} (test : X → result bool) (xs : list X)
  : result bool :=
  match xs with
  | [] => Ok false
  | x :: xs' =>
      t ← test x;
      if (t : bool) then Ok true else any_conflict test xs'
  end.

(** [skip and board[i][j] == num], with Python's short-circuit [and]: the
    cell is only read when the first operand is true. *)
Definition differs_and_holds (differs : bool) (b : board) (i j : nat) (num : Z)
  : result bool :=
  if differs then v ← cell b i j; Ok (bool_decide (v = num)) else Ok false.

Definition is_valid_move (b : board) (row col : nat) (num : Z) : result bool :=
  in_row ← any_conflict
    (λ j, differs_and_holds (bool_decide (j ≠ col)) b row j num) range9;
  if (in_row : bool) then Ok false else
  in_col ← any_conflict
    (λ i, differs_and_holds (bool_decide (i ≠ row)) b i col num) range9;
  if (in_col : bool) then Ok false else
  let start_row := (3 * (row / 3))%nat in
  let start_col := (3 * (col / 3))%nat in
  in_box ← any_conflict
    (λ i, any_conflict
       (λ j, differs_and_holds (bool_decide (i ≠ row ∨ j ≠ col)) b i j num)
       (seq start_col 3))
    (seq start_row 3);
  if (in_box : bool) then Ok false else Ok true.

(** [find_empty]: the first cell, in row-major order, that holds 0. *)
Fixpoint find_empty_in (b : board) (cs : list (nat * nat))
  : result (option (nat * nat)) :=
  match cs with
  | [] => Ok None
  | (i, j) :: cs' =>
      v ← cell b i j;
      if decide (v = 0) then Ok (Some (i, j)) else find_empty_in b cs'
  end.

Definition find_empty (b : board) : result (option (nat * nat)) :=
  find_empty_in b all_cells.

(** The [for num in range(1, 10)] loop of [solve], with the recursive call
    abstracted as [rec].  The board is threaded through the iterations. *)
Fixpoint solve_try (rec : board → result (bool * board)) (row col : nat)
    (nums : list Z) (b : board) : result (bool * board) :=
  match nums with
  | [] => Ok (false, b)
  | num :: nums' =>
      ok ← is_valid_move b row col num;
      if (ok : bool) then
        b1 ← set_cell b row col num;
        '(solved, b2) ← rec b1;
        if (solved : bool) then Ok (true, b2)
        else b3 ← set_cell b2 row col 0; solve_try rec row col nums' b3
      else solve_try rec row col nums' b
  end.

Fixpoint solve_rec (fuel : nat) (b : board) : result (bool * board) :=
  match fuel with
  | O => OutOfFuel
  | S fuel' =>
      empty ← find_empty b;
      match empty with
      | None => Ok (true, b)
      | Some (row, col) => solve_try (solve_rec fuel') row col digits b
      end
  end.

(** One level of recursion per empty cell of the 9x9 window, plus the
    level that finds the board full. *)
Definition depth_bound : nat := 82.

Definition solve (b : board) : result (bool * board) := solve_rec depth_bound b.

(** [is_valid_puzzle]: blanks each filled cell, re-checks its value, and
    writes it back before going on or returning. *)
Fixpoint is_valid_puzzle_in (cs : list (nat * nat)) (b : board)
  : result (bool * board) :=
  match cs with
  | [] => Ok (true, b)
  | (i, j) :: cs' =>
      num ← cell b i j;
      if decide (num ≠ 0) then
        b1 ← set_cell b i j 0;
        valid ← is_valid_move b1 i j num;
        b2 ← set_cell b1 i j num;
        if (valid : bool) then is_valid_puzzle_in cs' b2 else Ok (false, b2)
      else is_valid_puzzle_in cs' b
  end.

Definition is_valid_puzzle (b : board) : result (bool * board) :=
  is_valid_puzzle_in all_cells b.

(** The loop of [_find_all_solutions]; [rec] is the recursive call, which
    updates the board and the list of solutions found so far. *)
Fixpoint find_all_try (rec : board → list board → result (board * list board))
    (row col : nat) (nums : list Z) (b : board) (solutions : list board)
  : result (board * list board) :=
  match nums with
  | [] => Ok (b, solutions)
  | num :: nums' =>
      ok ← is_valid_move b row col num;
      if (ok : bool) then
        b1 ← set_cell b row col num;
        '(b2, solutions2) ← rec b1 solutions;
        b3 ← set_cell b2 row col 0;
        find_all_try rec row col nums' b3 solutions2
      else find_all_try rec row col nums' b solutions
  end.

Fixpoint _find_all_solutions (fuel : nat) (max_solutions : Z) (b : board)
    (solutions : list board) : result (board * list board) :=
  match fuel with
  | O => OutOfFuel
  | S fuel' =>
      if decide (Z.of_nat (length solutions) >= max_solutions)
      then Ok (b, solutions)
      else
        empty ← find_empty b;
        match empty with
        | None => Ok (b, solutions ++ [b])
        | Some (row, col) =>
            find_all_try (_find_all_solutions fuel' max_solutions)
              row col digits b solutions
        end
  end.

(** ** Board objects

    [count_solutions] and [generate_puzzle] copy boards and hand them to
    methods that write into them, so which object is written matters.  A
    heap maps object identities to board contents; every row list of a
    board built by this program belongs to that board alone (the rows come
    from a nested comprehension or from [copy.deepcopy]), so a board and
    its rows are stored as one object. *)

Abbreviation heap := (gmap positive board).

Definition load (h : heap) (l : positive) : board := default [] (h !! l).

Definition alloc (b : board) (h : heap) : positive * heap :=
  let l := fresh (dom h) in (l, <[l := b]> h).

(** [copy.deepcopy(board)] *)
Definition deepcopy (l : positive) (h : heap) : positive * heap :=
  alloc (load h l) h.

(** Calling a method on the board object [l]: the method runs on the
    content of [l] and leaves its final content there. *)
Definition call {A : Type} (f : board → result (A * board))
    (l : positive) (h : heap) : result (A * heap) :=
  '(a, b') ← f (load h l); Ok (a, <[l := b']> h).

Definition read_cell (l : positive) (i j : nat) (h : heap) : result Z :=
  cell (load h l) i j.

Definition write_cell (l : positive) (i j : nat) (v : Z) (h : heap)
  : result heap :=
  b' ← set_cell (load h l) i j v; Ok (<[l := b']> h).

(** [count_solutions(board, limit)]: the search runs on a deep copy. *)
Definition count_solutions (l : positive) (limit : Z) (h : heap)
  : result (Z * heap) :=
  let '(c, h1) := deepcopy l h in
  '(solutions, h2) ←
    call (λ b, '(b', sols) ← _find_all_solutions depth_bound limit b [];
               Ok (sols, b')) c h1;
  Ok (Z.of_nat (length solutions), h2).

(** ** Puzzle generator *)

Definition difficulty_levels : gmap string Z :=
  {[ "easy" := 40; "medium" := 32; "hard" := 26; "expert" := 22 ]}.

(** [(i, j)] for [i in range(3)], [j in range(3)] *)
Definition box_cells : list (nat * nat) :=
  i ← seq 0 3; j ← seq 0 3; [(i, j)].

(** The two nested loops that copy [nums] into the box whose top-left
    corner is [(box, box)]; [idx] is the running index into [nums]. *)
Fixpoint fill_box (box : nat) (nums : list Z) (ijs : list (nat * nat))
    (idx : nat) (b : board) : result board :=
  match ijs with
  | [] => Ok b
  | (i, j) :: ijs' =>
      match nums !! idx with
      | Some v =>
          b' ← set_cell b (box + i) (box + j) v;
          fill_box box nums ijs' (S idx) b'
      | None => IndexError
      end
  end.

Definition empty_board : board := replicate 9 (replicate 9 0).

Section Generator.
(** [random]: the state of the module-level generator and
    [random.shuffle], which returns the list in its new order. *)
Context {rng : Type}.
Variable shuffle : ∀ A : Type, list A → rng → list A * rng.

(** [for box in range(0, 9, 3)] *)
Fixpoint seed_boxes (boxes : list nat) (g : rng) (b : board)
  : result (rng * board) :=
  match boxes with
  | [] => Ok (g, b)
  | box :: boxes' =>
      let '(nums, g') := shuffle Z digits g in
      b' ← fill_box box nums box_cells 0 b;
      seed_boxes boxes' g' b'
  end.

(** [for i, j in cells], with its [break] *)
Fixpoint dig (cells : list (nat * nat)) (removed target_removed : Z)
    (bd : positive) (h : heap) : result heap :=
  match cells with
  | [] => Ok h
  | (i, j) :: cells' =>
      if decide (removed >= target_removed) then Ok h
      else
        backup ← read_cell bd i j h;
        h1 ← write_cell bd i j 0 h;
        '(n, h2) ← count_solutions bd 2 h1;
        if decide (n = 1)
        then dig cells' (removed + 1) target_removed bd h2
        else
          h3 ← write_cell bd i j backup h2;
          dig cells' removed target_removed bd h3
  end.

(** Returns the contents of the puzzle and solution boards and the new
    state of the random generator. *)
Definition generate_puzzle (difficulty : string) (g : rng)
  : result (board * board * rng) :=
  let clues := default 32 (difficulty_levels !! difficulty) in
  let '(bd, h) := alloc empty_board ∅ in
  '(g1, h) ← call (seed_boxes [0; 3; 6]%nat g) bd h;
  '(_, h) ← call solve bd h;
  let '(solution, h) := deepcopy bd h in
  let '(cells, g2) := shuffle (nat * nat) all_cells g1 in
  let target_removed := 81 - clues in
  h ← dig cells 0 target_removed bd h;
  Ok (load h bd, load h solution, g2).
End Generator.

(** ** Vocabulary of the specification *)

(** A 9x9 grid. *)
Definition wf (b : board) : Prop :=
  length b = 9%nat ∧ Forall (λ row : list Z, length row = 9%nat) b.

(** Cell values in 0..9. *)
Definition in_range (b : board) : Prop :=
  Forall (Forall (λ v : Z, 0 ≤ v ≤ 9)) b.

(** The value of a cell, and the board with one cell replaced. *)
Definition at_ (b : board) (i j : nat) : Z :=
  default 0 (b !! i ≫= λ row : list Z, row !! j).

Definition upd (b : board) (i j : nat) (v : Z) : board :=
  alter (λ row : list Z, <[j := v]> row) i b.

(** Two distinct cells that share a row, a column or a 3x3 box. *)
Definition peer (i j i' j' : nat) : Prop :=
  (i ≠ i' ∨ j ≠ j') ∧
  (i = i' ∨ j = j' ∨ ((i / 3)%nat = (i' / 3)%nat ∧ (j / 3)%nat = (j' / 3)%nat)).

#[global] Instance peer_dec i j i' j' : Decision (peer i j i' j').
Proof. unfold peer. apply _. Defined.

(** [num] could be written at [(row, col)]: no peer holds it. *)
Definition free (b : board) (row col : nat) (num : Z) : Prop :=
  ∀ i j, (i < 9)%nat → (j < 9)%nat → peer row col i j → at_ b i j ≠ num.

(** No digit occurs twice in a row, column or box. *)
Definition conflict_free (b : board) : Prop :=
  ∀ i j i' j', (i < 9)%nat → (j < 9)%nat → (i' < 9)%nat → (j' < 9)%nat →
    peer i j i' j' → at_ b i j ≠ 0 → at_ b i j ≠ at_ b i' j'.

Definition full (b : board) : Prop :=
  ∀ i j, (i < 9)%nat → (j < 9)%nat → at_ b i j ≠ 0.

(** [s] keeps every filled cell of [b]. *)
Definition extends (b s : board) : Prop :=
  ∀ i j, (i < 9)%nat → (j < 9)%nat → at_ b i j ≠ 0 → at_ s i j = at_ b i j.

(** Rows, columns and boxes as lists. *)
Definition row_of (b : board) (i : nat) : list Z :=
  (λ j, at_ b i j) <$> range9.
Definition col_of (b : board) (j : nat) : list Z :=
  (λ i, at_ b i j) <$> range9.
Definition box_of (b : board) (k : nat) : list Z :=
  (λ ij : nat * nat, at_ b (3 * (k / 3) + ij.1) (3 * (k mod 3) + ij.2))
    <$> box_cells.

(** A solved grid: every row, column and box is a permutation of 1..9. *)
Definition solved (s : board) : Prop :=
  wf s ∧
  ∀ k, (k < 9)%nat →
    row_of s k ≡ₚ digits ∧ col_of s k ≡ₚ digits ∧ box_of s k ≡ₚ digits.

(** The completions of [b]. *)
Definition completion (b s : board) : Prop := solved s ∧ extends b s.

(** Number of empty cells of the 9x9 window, and number of clues. *)
Definition empties (b : board) : nat :=
  length (filter (λ ij : nat * nat, at_ b ij.1 ij.2 = 0) all_cells).
Definition clue_count (b : board) : nat :=
  length (filter (λ ij : nat * nat, at_ b ij.1 ij.2 ≠ 0) all_cells).

(** What the search can reach from [b]: the filled cells of [b] are kept,
    the cells that were empty hold digits, and every pair of peers of
    which one was empty in [b] differs. *)
Definition fills (b s : board) : Prop :=
  wf s ∧ extends b s ∧
  ∀ i j, (i < 9)%nat → (j < 9)%nat → at_ b i j = 0 →
    1 ≤ at_ s i j ≤ 9 ∧ free s i j (at_ s i j).

(** A grid with digits everywhere and no two peers equal. *)
Definition valid_grid (s : board) : Prop :=
  wf s ∧
  (∀ i j, (i < 9)%nat → (j < 9)%nat → 1 ≤ at_ s i j ≤ 9) ∧
  (∀ i j i' j', (i < 9)%nat → (j < 9)%nat → (i' < 9)%nat → (j' < 9)%nat →
     peer i j i' j' → at_ s i j ≠ at_ s i' j').

(** ** Contracts of the searches *)

(** What a call of [solve] on [b] establishes: on [True] the board is one
    the search reaches from [b]; on [False] the board is back to [b] and
    the search reaches nothing from [b]. *)
Definition solve_post (b : board) (res : bool * board) : Prop :=
  (res.1 = true → fills b res.2) ∧
  (res.1 = false → res.2 = b ∧ ∀ s, ¬ fills b s).

(** What a call of [_find_all_solutions] on [b] does, given the list [L]
    of everything the search reaches from [b]: the board comes back
    unchanged and the solutions grow by [|L|] boards, or by as many as the
    cap still allows. *)
Definition find_all_post (max_solutions : Z) (b : board)
    (solutions : list board) (L : list board)
    (res : result (board * list board)) : Prop :=
  ∃ new, res = Ok (b, solutions ++ new) ∧
    (∀ s, s ∈ new → s ∈ L) ∧
    length new
    = Nat.min (length L)
        (Z.to_nat (max_solutions - Z.of_nat (length solutions))).

(** ** Completing the diagonal boxes

    The boxes that [generate_puzzle] seeds are described by where each
    digit sits.  A digit is named by its index [k] in box 0, where it sits
    in row [k / 3] and column [k mod 3]; a box is a pair of lists giving,
    for each [k], the row and the column of that digit inside the box
    (residues mod 3).  A completed grid is nine such boxes in which
    - every box is a bijection between digits and cells,
    - the three boxes of a band put each digit in three different rows,
    - the three boxes of a stack put each digit in three different columns. *)

Module Diag.

Local Open Scope nat_scope.

(** For two different residues [a] and [b], the residue that is neither. *)
Definition third3 (a b : nat) : nat := (2 * (a + b)) mod 3.

Definition third (f g : list nat) : list nat := zip_with third3 f g.

(** Pointwise sum and difference mod 3 of a list and a list of signs. *)
Definition add3 (f t : list nat) : list nat :=
  zip_with (λ a b, (a + b) mod 3) f t.
Definition sub3 (f t : list nat) : list nat :=
  zip_with (λ a b, (a + (3 - b)) mod 3) f t.

(** [x ↦ a * x + k mod 3]: for [a] in 1, 2 and [k] in 0, 1, 2 these are
    the six permutations of the residues. *)
Definition affine (a k : nat) (f : list nat) : list nat :=
  (λ x, (a * x + k) mod 3) <$> f.

(** The shift of the inverse of [x ↦ a * x + k]. *)
Definition inv_shift (a k : nat) : nat := (2 * a * k) mod 3.

(** The two lists differ at every digit. *)
Fixpoint apartb (f g : list nat) : bool :=
  match f, g with
  | [], [] => true
  | x :: f', y :: g' => negb (Nat.eqb x y) && apartb f' g'
  | _, _ => false
  end.

Definition pair_eqb (p q : nat * nat) : bool :=
  Nat.eqb p.1 q.1 && Nat.eqb p.2 q.2.

Fixpoint nodupb (l : list (nat * nat)) : bool :=
  match l with
  | [] => true
  | p :: l' => negb (existsb (pair_eqb p) l') && nodupb l'
  end.

(** Rows [f] and columns [g] make a box: no two digits share a cell. *)
Definition bijb (f g : list nat) : bool := nodupb (zip f g).

(** Box 0. *)
Definition r0 : list nat := [0; 0; 0; 1; 1; 1; 2; 2; 2].
Definition c0 : list nat := [0; 1; 2; 0; 1; 2; 0; 1; 2].

(** All lists of length [n] over [vals]. *)
Fixpoint lists_of (vals : list nat) (n : nat) : list (list nat) :=
  match n with
  | O => [[]]
  | S n' => x ← vals; (cons x) <$> lists_of vals n'
  end.

Definition all_fns : list (list nat) := lists_of [0; 1; 2] 9.

Definition count_of (v : nat) (f : list nat) : nat :=
  length (filter (λ x, x = v) f).

Definition balancedb (f : list nat) : bool :=
  Nat.eqb (count_of 0 f) 3 && Nat.eqb (count_of 1 f) 3
  && Nat.eqb (count_of 2 f) 3.

Definition bal_fns : list (list nat) :=
  filter (λ f, balancedb f = true) all_fns.

(** The residues appear for the first time in the order 0, 1, 2: one
    list for each partition of the digits into three classes. *)
Fixpoint rgsb (next : nat) (f : list nat) : bool :=
  match f with
  | [] => true
  | x :: f' =>
      if Nat.ltb x next then rgsb next f'
      else Nat.eqb x next && rgsb (S next) f'
  end.

Definition parts : list (list nat) :=
  filter (λ f, rgsb 0 f = true) bal_fns.

(** The menu: six choices of the signs by which the rows of band 0 and
    the columns of stack 0 move away from box 0.  Each is used as it is
    and with the two signs exchanged. *)
Definition menu_signs : list (list nat * list nat) :=
  [ ([2;2;1;2;1;2;1;2;2], [2;2;1;2;1;2;1;2;2]);
    ([1;2;2;2;2;1;2;1;2], [2;1;1;1;1;2;1;2;1]);
    ([1;2;1;2;1;1;1;1;2], [1;2;1;2;1;1;1;1;2]);
    ([1;2;2;1;2;2;1;2;2], [2;2;2;1;1;1;1;1;1]);
    ([2;1;2;2;1;2;2;1;2], [1;1;1;1;1;1;2;2;2]);
    ([2;2;1;1;2;2;2;1;2], [2;2;2;1;1;1;2;2;2]) ].

(** An entry: the rows of boxes 1 and 2 and the columns of boxes 3 and 6. *)
Record entry := Entry {
  rows1 : list nat; rows2 : list nat; cols3 : list nat; cols6 : list nat }.

Definition menu : list entry :=
  (λ tu : list nat * list nat,
     Entry (add3 r0 tu.1) (sub3 r0 tu.1) (add3 c0 tu.2) (sub3 c0 tu.2))
    <$> menu_signs.

Definition latin3b (f g h : list nat) : bool :=
  apartb f g && apartb f h && apartb g h.

Definition fnb (f : list nat) : bool :=
  Nat.eqb (length f) 9 && forallb (λ x, Nat.ltb x 3) f.

Definition menu_latin : bool :=
  forallb (λ e, latin3b r0 (rows1 e) (rows2 e)
                && latin3b c0 (cols3 e) (cols6 e)
                && fnb (rows1 e) && fnb (rows2 e)
                && fnb (cols3 e) && fnb (cols6 e)) menu.

(** The column lists that make a box with the rows [rho], and the row
    lists that make a box with the columns [gamma]. *)
Definition orth_cols (rho : list nat) : list (list nat) :=
  filter (λ g, bijb rho g = true) bal_fns.
Definition orth_rows (gamma : list nat) : list (list nat) :=
  filter (λ f, bijb f gamma = true) bal_fns.

(** Given the candidates [O] for one box and the list [c] of the diagonal
    box in its stack (or band), what is left for the third box. *)
Definition cands (O : list (list nat)) (c : list nat) : list (list nat) :=
  third c <$> filter (λ g, apartb c g = true) O.

(** A list as a binary key: each residue [x] is written as [x] ones
    followed by a zero. *)
Fixpoint key (f : list nat) : positive :=
  match f with
  | [] => xH
  | x :: f' => Nat.iter x xI (xO (key f'))
  end.

Definition perms3 : list (nat * nat) :=
  [(1, 0); (1, 1); (1, 2); (2, 0); (2, 1); (2, 2)].

(** The member of [parts] with the same classes, when there is one. *)
Definition canon (f : list nat) : list nat :=
  match find (λ ak : nat * nat, rgsb 0 (affine ak.1 ak.2 f)) perms3 with
  | Some ak => affine ak.1 ak.2 f
  | None => f
  end.

(** For each member of [parts] taken as rows, the members of [parts]
    that make a box with it as columns. *)
Definition rowsets : Pmap (Pmap ()) :=
  list_to_map
    ((λ p, (key p,
            list_to_map
              ((λ q, (key q, ())) <$> filter (λ q, bijb p q = true) parts)))
       <$> parts).

Definition col_keys (O : list (list nat)) (c : list nat) : list positive :=
  (λ g, key (canon g)) <$> cands O c.
Definition row_set (O : list (list nat)) (r : list nat) : Pmap () :=
  foldr (∪) ∅ (omap (λ rho, rowsets !! key (canon rho)) (cands O r)).

Definition meet (G : list positive) (R : Pmap ()) : bool :=
  existsb (λ k, bool_decide (is_Some (R !! k))) G.

(** For each entry of the menu, the candidates as the entry stands and
    with the signs exchanged. *)
Definition tests_c (Os : list (list (list nat) * list (list nat)))
    (c : list nat) : list (list positive * list positive) :=
  (λ O : list (list nat) * list (list nat),
     (col_keys O.1 c, col_keys O.2 c)) <$> Os.
Definition tests_r (Os : list (list (list nat) * list (list nat)))
    (r : list nat) : list (Pmap () * Pmap ()) :=
  (λ O : list (list nat) * list (list nat),
     (row_set O.1 r, row_set O.2 r)) <$> Os.

Definition mask_of (tc : list (list positive * list positive))
    (tr : list (Pmap () * Pmap ())) : list (bool * bool) :=
  zip_with (λ gc gr, (meet gc.1 gr.1, meet gc.2 gr.2)) tc tr.

Definition col_orths : list (list (list nat) * list (list nat)) :=
  (λ e, (orth_cols (rows1 e), orth_cols (rows2 e))) <$> menu.
Definition row_orths : list (list (list nat) * list (list nat)) :=
  (λ e, (orth_rows (cols6 e), orth_rows (cols3 e))) <$> menu.

(** The masks of all pairs of a column partition and a row partition. *)
Fixpoint mkey (m : list (bool * bool)) : positive :=
  match m with
  | [] => xH
  | (a, b) :: m' =>
      let k := mkey m' in
      let k := if a then xI k else xO k in
      if b then xI k else xO k
  end.

Definition masks : list (list (bool * bool)) :=
  let tcs := tests_c col_orths <$> parts in
  let trs := tests_r row_orths <$> parts in
  let all : Pmap (list (bool * bool)) :=
    list_to_map
      (tc ← tcs; (λ tr, let m := mask_of tc tr in (mkey m, m)) <$> trs) in
  snd <$> map_to_list all.

(** The mask of a pair, entry by entry. *)
Definition mask (c r : list nat) : list (bool * bool) :=
  (λ e, (meet (col_keys (orth_cols (rows1 e)) c)
              (row_set (orth_rows (cols6 e)) r),
         meet (col_keys (orth_cols (rows2 e)) c)
              (row_set (orth_rows (cols3 e)) r))) <$> menu.

(** Some entry works as it stands for the first mask and exchanged for
    the second, or the other way round. *)
Definition cross (ma mb : list (bool * bool)) : bool :=
  existsb (λ ab : (bool * bool) * (bool * bool),
             (ab.1.1 && ab.2.2) || (ab.1.2 && ab.2.1)) (zip ma mb).

Definition menu_ok : bool :=
  let ms := masks in forallb (λ ma, forallb (λ mb, cross ma mb) ms) ms.

(** Every balanced list is, up to a permutation of the residues, one of
    [parts]. *)
Definition canon_ok : bool :=
  forallb (λ f, existsb (λ ak : nat * nat,
                           let g := affine ak.1 ak.2 f in
                           balancedb g && rgsb 0 g) perms3)
    bal_fns.

(** Rows [rho] for one box and columns [gamma] for another can be
    completed, next to a diagonal box with columns [c] and one with rows
    [r], by two more boxes: columns [g'] go with [rho], rows [rho'] go with
    [gamma], and what they leave in the stack of [c] and in the band of
    [r] is again a box. *)
Definition phi (rho gamma c r : list nat) : Prop :=
  ∃ g' rho', g' ∈ all_fns ∧ rho' ∈ all_fns ∧
    apartb c g' = true ∧ bijb rho g' = true ∧
    apartb r rho' = true ∧ bijb rho' gamma = true ∧
    bijb (third r rho') (third c g') = true.

(** The nine boxes of a grid, by band and stack: rows and columns of
    the digits inside each box. *)
Definition box_table (d4 d8 b1 b2 b3 b5 b6 b7 : list nat * list nat)
    (band stack : nat) : list nat * list nat :=
  match band, stack with
  | 0, 0 => (r0, c0)
  | 0, 1 => b1
  | 0, _ => b2
  | 1, 0 => b3
  | 1, 1 => d4
  | 1, _ => b5
  | _, 0 => b6
  | _, 1 => b7
  | _, _ => d8
  end.

Definition good_boxes (bx : nat → nat → list nat * list nat) : Prop :=
  (∀ b s, b < 3 → s < 3 →
     (bx b s).1 ∈ all_fns ∧ (bx b s).2 ∈ all_fns ∧
     bijb (bx b s).1 (bx b s).2 = true) ∧
  (∀ b s s', b < 3 → s < 3 → s' < 3 → s ≠ s' →
     apartb (bx b s).1 (bx b s').1 = true) ∧
  (∀ s b b', s < 3 → b < 3 → b' < 3 → b ≠ b' →
     apartb (bx b s).2 (bx b' s).2 = true).

End Diag.

(** ** From boxes to a grid *)

Module Grid.
Import Diag.
Local Open Scope nat_scope.

(** Where [v] stands in [q]. *)
Fixpoint index_of (v : Z) (q : list Z) : nat :=
  match q with
  | [] => 0
  | x :: q' => if decide (x = v) then 0 else S (index_of v q')
  end.

(** The digits are named by their place in box 0, whose cells hold [p0]
    in reading order; a box that holds [q] then has the digit [k] in row
    [rows_in p0 q !! k] and column [cols_in p0 q !! k]. *)
Definition positions (p0 q : list Z) : list nat :=
  (λ v, index_of v q) <$> p0.
Definition rows_in (p0 q : list Z) : list nat :=
  (λ n, n / 3) <$> positions p0 q.
Definition cols_in (p0 q : list Z) : list nat :=
  (λ n, n mod 3) <$> positions p0 q.

Fixpoint find_pair (a c : nat) (l : list (nat * nat)) : nat :=
  match l with
  | [] => 0
  | p :: l' => if pair_eqb (a, c) p then 0 else S (find_pair a c l')
  end.

(** The digit of the cell [(i, j)]: the one its box has at that place. *)
Definition grid_cell (bx : nat → nat → list nat * list nat) (p0 : list Z)
    (i j : nat) : Z :=
  let B := bx (i / 3) (j / 3) in
  default 0%Z (p0 !! find_pair (i mod 3) (j mod 3) (zip B.1 B.2)).

Definition grid_of (bx : nat → nat → list nat * list nat) (p0 : list Z)
  : board :=
  (λ i, (λ j, grid_cell bx p0 i j) <$> range9) <$> range9.

(** All places of a box. *)
Definition places : list (nat * nat) := zip r0 c0.

(** The board right after the three diagonal boxes were filled. *)
Definition seeded (p0 p4 p8 : list Z) (b : board) : Prop :=
  wf b ∧
  (∀ i j, i < 3 → j < 3 →
     p0 !! (3 * i + j) = Some (at_ b i j) ∧
     p4 !! (3 * i + j) = Some (at_ b (3 + i) (3 + j)) ∧
     p8 !! (3 * i + j) = Some (at_ b (6 + i) (6 + j))) ∧
  (∀ i j, i < 9 → j < 9 → i / 3 ≠ j / 3 → at_ b i j = 0%Z).

End Grid.

(** The Seed step of [generate_puzzle] when the three calls of
    [random.shuffle] leave [p0], [p4] and [p8] in [nums]. *)
Definition seed_with (p0 p4 p8 : list Z) : result board :=
  b ← fill_box 0 p0 box_cells 0 empty_board;
  b ← fill_box 3 p4 box_cells 0 b;
  fill_box 6 p8 box_cells 0 b.

(** ** Sample boards and a sample generator *)

(** A full grid that breaks every rule. *)
Definition ones_board : board := replicate 9 (replicate 9 1).

(** A consistent grid without completion: the last cell of row 0 must
    hold 9, which column 8 already has. *)
Definition stuck_board : board :=
  [ [1; 2; 3; 4; 5; 6; 7; 8; 0];
    [0; 0; 0; 0; 0; 0; 0; 0; 9];
    [0; 0; 0; 0; 0; 0; 0; 0; 0];
    [0; 0; 0; 0; 0; 0; 0; 0; 0];
    [0; 0; 0; 0; 0; 0; 0; 0; 0];
    [0; 0; 0; 0; 0; 0; 0; 0; 0];
    [0; 0; 0; 0; 0; 0; 0; 0; 0];
    [0; 0; 0; 0; 0; 0; 0; 0; 0];
    [0; 0; 0; 0; 0; 0; 0; 0; 0] ].

Definition sample_solution : board :=
  [ [1; 2; 3; 4; 5; 6; 7; 8; 9];
    [4; 5; 6; 7; 8; 9; 1; 2; 3];
    [7; 8; 9; 1; 2; 3; 4; 5; 6];
    [2; 3; 4; 5; 6; 7; 8; 9; 1];
    [5; 6; 7; 8; 9; 1; 2; 3; 4];
    [8; 9; 1; 2; 3; 4; 5; 6; 7];
    [3; 4; 5; 6; 7; 8; 9; 1; 2];
    [6; 7; 8; 9; 1; 2; 3; 4; 5];
    [9; 1; 2; 3; 4; 5; 6; 7; 8] ].

Definition sample_puzzle : board :=
  [ [0; 2; 3; 4; 5; 6; 7; 8; 9];
    [4; 0; 6; 7; 8; 9; 1; 2; 3];
    [7; 8; 9; 1; 2; 3; 4; 5; 6];
    [2; 3; 4; 5; 0; 7; 8; 9; 1];
    [5; 6; 7; 8; 9; 1; 2; 3; 4];
    [8; 9; 1; 2; 3; 4; 5; 6; 7];
    [3; 4; 5; 6; 7; 8; 9; 1; 2];
    [6; 7; 8; 9; 1; 2; 3; 4; 5];
    [9; 1; 2; 3; 4; 5; 6; 7; 0] ].

(** A generator whose [shuffle] leaves every list as it is. *)
Definition no_shuffle (A : Type) (l : list A) (g : unit) : list A * unit :=
  (l, g).

(** A generator whose [shuffle] reverses every list. *)
Definition rev_shuffle (A : Type) (l : list A) (g : unit) : list A * unit :=
  (reverse l, g).

(** A consistent grid on which the search writes and fails: the first two
    cells of row 0 must hold 1 and 2, which column 1 already has. *)
Definition backtrack_board : board :=
  [ [0; 0; 3; 4; 5; 6; 7; 8; 9];
    [0; 0; 0; 0; 0; 0; 0; 0; 0];
    [0; 0; 0; 0; 0; 0; 0; 0; 0];
    [0; 1; 0; 0; 0; 0; 0; 0; 0];
    [0; 2; 0; 0; 0; 0; 0; 0; 0];
    [0; 0; 0; 0; 0; 0; 0; 0; 0];
    [0; 0; 0; 0; 0; 0; 0; 0; 0];
    [0; 0; 0; 0; 0; 0; 0; 0; 0];
    [0; 0; 0; 0; 0; 0; 0; 0; 0] ].

(** ** Order of the search *)

(** The cell [(i', j')] comes before [(i, j)] in row-major order. *)
Definition before (i' j' i j : nat) : Prop :=
  (i' < i)%nat ∨ (i' = i ∧ (j' < j)%nat).

(** [s] comes before [s'] when the grids are read cell by cell in
    row-major order. *)
Definition lex_lt (s s' : board) : Prop :=
  ∃ i j, (i < 9)%nat ∧ (j < 9)%nat ∧ at_ s i j < at_ s' i j ∧
    ∀ i' j', (i' < 9)%nat → (j' < 9)%nat → before i' j' i j →
      at_ s i' j' = at_ s' i' j'.

(** ** The game: checks and hints

    The methods of [SudokuGame] below are embedded as functions of the
    fields they read and write ([user_puzzle], [solution], [hints_used]);
    what they do to widgets is returned as data (the colour chosen, the
    numbers shown) or left out. *)

(** [is_puzzle_complete] *)
Fixpoint is_puzzle_complete_in (cs : list (nat * nat))
    (user_puzzle solution : board) : result bool :=
  match cs with
  | [] => Ok true
  | (i, j) :: cs' =>
      u ← cell user_puzzle i j;
      s ← cell solution i j;
      if decide (u ≠ s) then Ok false
      else is_puzzle_complete_in cs' user_puzzle solution
  end.

Definition is_puzzle_complete (user_puzzle solution : board) : result bool :=
  is_puzzle_complete_in all_cells user_puzzle solution.

(** The background colours of [validate_cell], by their keys in
    [COLORS]. *)
Inductive cell_colour := correct | warning_light | error_light.

(** [validate_cell]: the colour given to the entry and the content of
    [user_puzzle] after the call. *)
Definition validate_cell (user_puzzle solution : board) (row col : nat)
    (num : Z) : result (cell_colour * board) :=
  s ← cell solution row col;
  if decide (num = s) then Ok (correct, user_puzzle)
  else
    temp_val ← cell user_puzzle row col;
    b1 ← set_cell user_puzzle row col 0;
    ok ← is_valid_move b1 row col num;
    b2 ← set_cell b1 row col temp_val;
    Ok (if (ok : bool) then warning_light else error_light, b2).

(** [[(i, j) for i in range(9) for j in range(9)
      if self.user_puzzle[i][j] == 0]] *)
Fixpoint empty_cells_in (cs : list (nat * nat)) (b : board)
  : result (list (nat * nat)) :=
  match cs with
  | [] => Ok []
  | (i, j) :: cs' =>
      v ← cell b i j;
      rest ← empty_cells_in cs' b;
      Ok (if decide (v = 0) then (i, j) :: rest else rest)
  end.

(** [for num in range(1, 10): if is_valid_move(...): possibilities += 1] *)
Fixpoint count_possibilities (nums : list Z) (b : board) (i j : nat)
    (possibilities : Z) : result Z :=
  match nums with
  | [] => Ok possibilities
  | num :: nums' =>
      ok ← is_valid_move b i j num;
      count_possibilities nums' b i j
        (if (ok : bool) then possibilities + 1 else possibilities)
  end.

(** [for i, j in empty_cells] of [give_hint] *)
Fixpoint best_cell_loop (cells : list (nat * nat)) (b : board)
    (best_cell : option (nat * nat)) (min_possibilities : Z)
  : result (option (nat * nat) * Z) :=
  match cells with
  | [] => Ok (best_cell, min_possibilities)
  | (i, j) :: cells' =>
      possibilities ← count_possibilities digits b i j 0;
      if decide (0 < possibilities < min_possibilities)
      then best_cell_loop cells' b (Some (i, j)) possibilities
      else best_cell_loop cells' b best_cell min_possibilities
  end.

(** What [give_hint] tells the player: the cell, the value written and
    the number of values the cell could take. *)
Record hint := Hint {
  hint_row : nat; hint_col : nat; hint_value : Z; hint_possibilities : Z }.

(** [give_hint]: the new content of [user_puzzle], the new [hints_used]
    and the hint shown, if any. *)
Definition give_hint (user_puzzle solution : board) (hints_used : Z)
  : result (board * Z * option hint) :=
  empty_cells ← empty_cells_in all_cells user_puzzle;
  if decide (empty_cells = []) then Ok (user_puzzle, hints_used, None)
  else
    '(best_cell, min_possibilities) ←
      best_cell_loop empty_cells user_puzzle None 10;
    match best_cell with
    | Some (i, j) =>
        correct_value ← cell solution i j;
        b' ← set_cell user_puzzle i j correct_value;
        Ok (b', hints_used + 1,
            Some (Hint i j correct_value min_possibilities))
    | None => Ok (user_puzzle, hints_used, None)
    end.

#[global] Instance free_dec b row col num : Decision (free b row col num).
Proof.
  refine (cast_if (decide (Forall (λ i, Forall (λ j,
            peer row col i j → at_ b i j ≠ num) range9) range9))).
  - intros i j Hi Hj. rewrite Forall_forall in f.
    assert (i ∈ range9) as Hi' by (apply elem_of_seq; lia).
    specialize (f i Hi'). rewrite Forall_forall in f.
    apply f, elem_of_seq. lia.
  - intros Hfree. apply n. apply Forall_forall. intros i Hi.
    apply Forall_forall. intros j Hj. apply elem_of_seq in Hi, Hj.
    apply Hfree; lia.
Defined.

(** The values that no peer of [(i, j)] holds. *)
Definition candidates (b : board) (i j : nat) : list Z :=
  filter (λ num, free b i j num) digits.

(** ** Saving and loading

    The texts that the program builds are lists of ASCII characters.  The
    text read from a file is a list of characters of a type [char] about
    which nothing is fixed; what Python's [str.isdigit], [str.strip] and
    [int] do on a character comes in as functions. *)

Definition lit (s : string) : list Ascii.ascii := String.list_ascii_of_string s.

(** [str(n)] for an int [n] *)
Definition str (n : Z) : list Ascii.ascii := lit (pretty n).

(** The line feed. *)
Definition nl : list Ascii.ascii := [Ascii.ascii_of_nat 10].

(** [for i in range(9): for j in range(9):
      puzzle_string += str(self.user_puzzle[i][j])] *)
Fixpoint puzzle_string_of (cs : list (nat * nat)) (b : board)
    (puzzle_string : list Ascii.ascii) : result (list Ascii.ascii) :=
  match cs with
  | [] => Ok puzzle_string
  | (i, j) :: cs' =>
      v ← cell b i j;
      puzzle_string_of cs' b (puzzle_string ++ str v)
  end.

(** One row of the formatted view: the [for j in range(9)] loop. *)
Fixpoint formatted_row (js : list nat) (b : board) (i : nat)
    (row : list Ascii.ascii) : result (list Ascii.ascii) :=
  match js with
  | [] => Ok row
  | j :: js' =>
      v ← cell b i j;
      let row := row ++ str v in
      let row :=
        if decide ((j mod 3)%nat = 2%nat ∧ j ≠ 8%nat) then row ++ lit " | "
        else if decide (j ≠ 8%nat) then row ++ lit " "
        else row in
      formatted_row js' b i row
  end.

(** The [for i in range(9)] loop that writes the formatted view; [file]
    is what has been written so far. *)
Fixpoint formatted_view (rows : list nat) (b : board) (file : list Ascii.ascii)
  : result (list Ascii.ascii) :=
  match rows with
  | [] => Ok file
  | i :: rows' =>
      row ← formatted_row range9 b i [];
      let file := file ++ lit "# " ++ row ++ nl in
      let file :=
        if decide ((i mod 3)%nat = 2%nat ∧ i ≠ 8%nat)
        then file ++ lit "# ------+-------+------" ++ nl
        else file in
      formatted_view rows' b file
  end.

(** [save_to_file]: the text written to the chosen file. *)
Definition save_to_file (user_puzzle : board) : result (list Ascii.ascii) :=
  puzzle_string ← puzzle_string_of all_cells user_puzzle [];
  let file := puzzle_string in
  let file := file ++ nl ++ nl ++ lit "# Formatted view:" ++ nl in
  formatted_view range9 user_puzzle file.

(** How [load_from_file] ends. *)
Inductive load_outcome :=
| invalid_file_format (found : nat)
| invalid_digit (digit : Z)
| failed_to_load
| show_puzzle_preview (preview_puzzle : board).

Section Load.
Context {char : Type}.
(** [c.isdigit()], whether [strip] removes [c], and [int(c)], which is
    [None] when Python raises [ValueError]. *)
Variable isdigit : char → bool.
Variable isspace : char → bool.
Variable int_of_char : char → option Z.

Fixpoint lstrip (s : list char) : list char :=
  match s with
  | [] => []
  | c :: s' => if isspace c then lstrip s' else s
  end.

(** [content.strip()] *)
Definition strip (s : list char) : list char :=
  reverse (lstrip (reverse (lstrip s))).

(** The cell value [v] comes from the character at place [k]. *)
Definition digit_at (digits : list char) (k : nat) (v : Z) : Prop :=
  ∃ c, digits !! k = Some c ∧ int_of_char c = Some v ∧ 0 ≤ v ≤ 9.

(** [for j in range(9)]: the digits of row [i]; [inl] when the function
    returns from inside the loop. *)
Fixpoint load_row (js : list nat) (digits : list char) (i : nat)
    (row : list Z) : load_outcome + list Z :=
  match js with
  | [] => inr row
  | j :: js' =>
      match digits !! (i * 9 + j)%nat with
      | None => inl failed_to_load
      | Some c =>
          match int_of_char c with
          | None => inl failed_to_load
          | Some digit =>
              if decide (digit < 0 ∨ digit > 9) then inl (invalid_digit digit)
              else load_row js' digits i (row ++ [digit])
          end
      end
  end.

(** [for i in range(9)] *)
Fixpoint load_rows (rows : list nat) (digits : list char)
    (preview_puzzle : board) : load_outcome + board :=
  match rows with
  | [] => inr preview_puzzle
  | i :: rows' =>
      match load_row range9 digits i [] with
      | inl o => inl o
      | inr row => load_rows rows' digits (preview_puzzle ++ [row])
      end
  end.

(** [load_from_file] on the text [content] of the chosen file. *)
Definition load_from_file (content : list char) : load_outcome :=
  let content := strip content in
  let digits := filter (λ c, isdigit c = true) content in
  if decide (length digits ≠ 81%nat) then invalid_file_format (length digits)
  else
    match load_rows range9 digits [] with
    | inl o => o
    | inr preview_puzzle => show_puzzle_preview preview_puzzle
    end.
End Load.

(** The digit characters of a text that the program wrote, as they are
    read back. *)
Definition digs {char : Type} (isdigit : char → bool)
    (of_ascii : Ascii.ascii → char) (t : list Ascii.ascii) : list char :=
  filter (λ c, isdigit c = true) (of_ascii <$> t).

(** Texts of ASCII characters alone: the digits are 0 to 9, [strip]
    removes blanks, tabs and line ends. *)
Definition ascii_isdigit (c : Ascii.ascii) : bool :=
  bool_decide (is_Some (Ascii.is_nat c)).
Definition ascii_int (c : Ascii.ascii) : option Z := Z.of_nat <$> Ascii.is_nat c.
Definition ascii_isspace (c : Ascii.ascii) : bool := Ascii.is_space c.

(** A text that holds the sample puzzle. *)
Definition sample_text : list Ascii.ascii :=
  lit "023456789 406789123 789123456 234507891 567891234 891234567 345678912 678912345 912345670".

(** ** Validating a loaded puzzle *)

(** The messages of [validate_preview_puzzle]; rows, columns and boxes
    are counted from 1. *)
Definition row_error (i j col : nat) (num : Z) : string :=
  "Row " +:+ pretty (i + 1)%nat +:+ ": Number " +:+ pretty num
  +:+ " appears in columns " +:+ pretty (j + 1)%nat
  +:+ " and " +:+ pretty (col + 1)%nat.

Definition column_error (i j row : nat) (num : Z) : string :=
  "Column " +:+ pretty (j + 1)%nat +:+ ": Number " +:+ pretty num
  +:+ " appears in rows " +:+ pretty (i + 1)%nat
  +:+ " and " +:+ pretty (row + 1)%nat.

Definition box_error (i j r c : nat) (num : Z) : string :=
  let box_num := ((i / 3) * 3 + (j / 3) + 1)%nat in
  "Box " +:+ pretty box_num +:+ ": Number " +:+ pretty num
  +:+ " appears at (" +:+ pretty (i + 1)%nat +:+ "," +:+ pretty (j + 1)%nat
  +:+ ") and (" +:+ pretty (r + 1)%nat +:+ "," +:+ pretty (c + 1)%nat +:+ ")".

(** [validation_errors] and [conflict_cells]. *)
Abbreviation findings := (list string * list (nat * nat))%type.

(** [if error_msg not in validation_errors:
       validation_errors.append(error_msg)]
    [conflict_cells.extend(cells)] *)
Definition note (error_msg : string) (cells : list (nat * nat))
    (found : findings) : findings :=
  (if decide (error_msg ∈ found.1) then found.1 else found.1 ++ [error_msg],
   found.2 ++ cells).

(** One of the three scans around a cell: [hit x] is the condition of the
    [if], [error_msg x] and [cells x] what is noted when it holds. *)
Fixpoint scan_conflicts {X : Type} (hit : X → result bool)
    (error_msg : X → string) (cells : X → list (nat * nat))
    (xs : list X) (found : findings) : result findings :=
  match xs with
  | [] => Ok found
  | x :: xs' =>
      t ← hit x;
      scan_conflicts hit error_msg cells xs'
        (if (t : bool) then note (error_msg x) (cells x) found else found)
  end.

(** [for r in range(start_row, start_row + 3):
       for c in range(start_col, start_col + 3)] *)
Definition box_range (i j : nat) : list (nat * nat) :=
  r ← seq (3 * (i / 3)) 3; c ← seq (3 * (j / 3)) 3; [(r, c)].

(** The body of the two outer loops for the cell [(i, j)]. *)
Definition cell_conflicts (b : board) (i j : nat) (found : findings)
  : result findings :=
  v ← cell b i j;
  if decide (v ≠ 0) then
    num ← cell b i j;
    found ← scan_conflicts
      (λ col, differs_and_holds (bool_decide (col ≠ j)) b i col num)
      (λ col, row_error i j col num) (λ col, [(i, j); (i, col)])
      range9 found;
    found ← scan_conflicts
      (λ row, differs_and_holds (bool_decide (row ≠ i)) b row j num)
      (λ row, column_error i j row num) (λ row, [(i, j); (row, j)])
      range9 found;
    scan_conflicts
      (λ rc : nat * nat,
         differs_and_holds (bool_decide (rc.1 ≠ i ∨ rc.2 ≠ j)) b rc.1 rc.2 num)
      (λ rc, box_error i j rc.1 rc.2 num) (λ rc, [(i, j); rc])
      (box_range i j) found
  else Ok found.

Fixpoint preview_conflicts (cs : list (nat * nat)) (b : board)
    (found : findings) : result findings :=
  match cs with
  | [] => Ok found
  | (i, j) :: cs' =>
      found ← cell_conflicts b i j found;
      preview_conflicts cs' b found
  end.

(** [sum(1 for i in range(9) for j in range(9)
         if preview_puzzle[i][j] != 0)] *)
Fixpoint count_clues (cs : list (nat * nat)) (b : board) (n : Z) : result Z :=
  match cs with
  | [] => Ok n
  | (i, j) :: cs' =>
      v ← cell b i j;
      count_clues cs' b (if decide (v ≠ 0) then n + 1 else n)
  end.

Definition auto_difficulty (clue_count : Z) : string :=
  if decide (clue_count < 25) then "expert"
  else if decide (clue_count < 30) then "hard"
  else if decide (clue_count < 35) then "medium"
  else "easy".

(** What the preview window shows in the end. *)
Inductive preview_result :=
| validation_failed (validation_errors : list string)
    (conflict_cells : list (nat * nat))
| puzzle_unsolvable
| validation_passed (test_board : positive) (solution_count clue_count : Z)
    (difficulty : string).

(** [validate_preview_puzzle] on the board object [preview_puzzle]; in
    [validation_passed] the object [test_board] is the solution that
    the LOAD PUZZLE button hands to [confirm_load_puzzle]. *)
Definition validate_preview_puzzle (preview_puzzle : positive) (h : heap)
  : result (preview_result * heap) :=
  '(validation_errors, conflict_cells) ←
    preview_conflicts all_cells (load h preview_puzzle) ([], []);
  if decide (validation_errors ≠ []) then
    Ok (validation_failed validation_errors conflict_cells, h)
  else
    let '(test_board, h) := deepcopy preview_puzzle h in
    '(is_solvable, h) ← call solve test_board h;
    if (is_solvable : bool) then
      '(solution_count, h) ← count_solutions preview_puzzle 2 h;
      clue_count ← count_clues all_cells (load h preview_puzzle) 0;
      Ok (validation_passed test_board solution_count clue_count
            (auto_difficulty clue_count), h)
    else Ok (puzzle_unsolvable, h).

(** The cell [(i', j')] is a peer of [(i, j)] with the same value. *)
Definition clash (b : board) (i j i' j' : nat) : Prop :=
  (i' < 9)%nat ∧ (j' < 9)%nat ∧ peer i j i' j' ∧ at_ b i' j' = at_ b i j.

(** A non-zero cell that shares its value with a peer. *)
Definition in_conflict (b : board) (i j : nat) : Prop :=
  at_ b i j ≠ 0 ∧ ∃ i' j', clash b i j i' j'.

(** ** The state of a game

    The fields of [SudokuGame] that the methods below read and write: the
    four boards are objects of the heap, [timer_mode] and
    [countdown_minutes] are the values of the two Tk variables. *)
Record game := Game {
  puzzle : positive;
  original_puzzle : positive;
  user_puzzle : positive;
  solution : positive;
  hints_used : Z;
  game_completed : bool;
  timer_mode : string;
  countdown_minutes : Z;
  timer_seconds : Z;
  timer_running : bool }.

(** [self.timer_seconds = seconds; self.timer_running = running] *)
Definition set_timer (st : game) (seconds : Z) (running : bool) : game :=
  Game (puzzle st) (original_puzzle st) (user_puzzle st) (solution st)
    (hints_used st) (game_completed st) (timer_mode st)
    (countdown_minutes st) seconds running.

(** What [timer_label] is set to: [clock minutes seconds] stands for the
    text [f"{minutes:02d}:{seconds:02d}"] after the clock sign, the
    colours are named by their keys in [COLORS] ([button_color] is the
    colour of the theme). *)
Inductive timer_text := clock (minutes seconds : Z) | times_up | free_play.
Inductive timer_colour := button_color | error | warning | gray_600.

(** [reset_timer]: the new state, and the text given to the label if
    any. *)
Definition reset_timer (st : game) : game * option timer_text :=
  if decide (timer_mode st = "count_up") then (set_timer st 0 true, None)
  else if decide (timer_mode st = "count_down") then
    (set_timer st (countdown_minutes st * 60) true, None)
  else (set_timer st (timer_seconds st) false, Some free_play).

(** One run of [update_timer]: the new state, what the label is set to if
    it is set, and whether the warning that the time has expired is
    shown.  The method ends by scheduling its next run, one second
    later. *)
Definition update_timer (st : game)
  : game * option (timer_text * timer_colour) * bool :=
  if negb (game_completed st) then
    if decide (timer_mode st = "count_up" ∧ timer_running st = true) then
      let minutes := timer_seconds st / 60 in
      let seconds := timer_seconds st mod 60 in
      (set_timer st (timer_seconds st + 1) (timer_running st),
       Some (clock minutes seconds, button_color), false)
    else if decide (timer_mode st = "count_down" ∧ timer_running st = true)
    then
      if decide (timer_seconds st > 0) then
        let minutes := timer_seconds st / 60 in
        let seconds := timer_seconds st mod 60 in
        let color :=
          if decide (timer_seconds st ≤ 60) then error
          else if decide (timer_seconds st ≤ 300) then warning
          else button_color in
        (set_timer st (timer_seconds st - 1) (timer_running st),
         Some (clock minutes seconds, color), false)
      else
        (set_timer st (timer_seconds st) false, Some (times_up, error), true)
    else if decide (timer_mode st = "free") then
      (st, Some (free_play, gray_600), false)
    else (st, None, false)
  else (st, None, false).

(** The state in which [update_timer] runs for the [n]-th time (counted
    from 0) when nothing else happens in between. *)
Definition timer_after (n : nat) (st : game) : game :=
  Nat.iter n (λ st, (update_timer st).1.1) st.

(** [confirm_load_puzzle]: the game takes the previewed board itself as
    its puzzle, two copies of it, and the board solved by the preview as
    its solution. *)
Definition confirm_load_puzzle (preview_puzzle solution : positive)
    (st : game) (h : heap) : game * heap :=
  let '(original_puzzle, h) := deepcopy preview_puzzle h in
  let '(user_puzzle, h) := deepcopy preview_puzzle h in
  let st := Game preview_puzzle original_puzzle user_puzzle solution 0 false
              (timer_mode st) (countdown_minutes st) (timer_seconds st)
              (timer_running st) in
  ((reset_timer st).1, h).

(** [give_hint] called [n] times in a row. *)
Fixpoint give_hints (n : nat) (user_puzzle solution : board) (hints_used : Z)
  : result (board * Z) :=
  match n with
  | O => Ok (user_puzzle, hints_used)
  | S n' =>
      r ← give_hint user_puzzle solution hints_used;
      give_hints n' r.1.1 solution r.1.2
  end.

(** A game in countdown mode, 15 minutes, on the boards 1 to 4. *)
Definition sample_game : game :=
  Game 1 2 3 4 0 false "count_down" 15 0 false.

(** The same game after the player has typed -1 into the spinbox of the
    countdown minutes. *)
Definition negative_game : game :=
  Game 1 2 3 4 0 false "count_down" (-1) 0 false.

(** * Cells of a 9x9 grid *)

Ltac Zify.zify_post_hook ::= Z.div_mod_to_equations.

Lemma result_bind_Ok {A B} (m : result A) (f : A → result B) (y : B) :
  m ≫= f = Ok y ↔ ∃ x, m = Ok x ∧ f x = Ok y.
Proof.
  destruct m; simpl; split; try (intros [x [? ?]]); try intros ?;
    eauto; try congruence.
Qed.

Lemma bind_Ok {A B} (a : A) (f : A → result B) : Ok a ≫= f = f a.
Proof. reflexivity. Qed.

Ltac ok_step := rewrite ?bind_Ok; cbv beta iota.

Lemma wf_lookup b i :
  wf b → (i < 9)%nat → ∃ row, b !! i = Some row ∧ length row = 9%nat.
Proof.
  intros [Hl Hr] Hi.
  destruct (lookup_lt_is_Some_2 b i) as [row Hrow]; [lia|].
  exists row. split; [done|].
  by eapply (Forall_lookup_1 _ _ _ _ Hr Hrow).
Qed.

Lemma cell_wf b i j :
  wf b → (i < 9)%nat → (j < 9)%nat → cell b i j = Ok (at_ b i j).
Proof.
  intros Hwf Hi Hj. destruct (wf_lookup b i Hwf Hi) as (row & Hrow & Hlen).
  unfold cell, at_. rewrite Hrow. simpl.
  destruct (lookup_lt_is_Some_2 row j) as [v Hv]; [lia|].
  by rewrite Hv.
Qed.

Lemma set_cell_wf b i j v :
  wf b → (i < 9)%nat → (j < 9)%nat → set_cell b i j v = Ok (upd b i j v).
Proof.
  intros Hwf Hi Hj. destruct (wf_lookup b i Hwf Hi) as (row & Hrow & Hlen).
  unfold set_cell, upd. rewrite Hrow.
  rewrite decide_True by lia. f_equal.
  symmetry. apply list_eq. intros k.
  destruct (decide (k = i)) as [->|Hne].
  - rewrite list_lookup_alter_eq, Hrow. simpl.
    by rewrite list_lookup_insert_eq by (apply lookup_lt_Some in Hrow; done).
  - by rewrite list_lookup_alter_ne, list_lookup_insert_ne by done.
Qed.

Lemma upd_wf b i j v : wf b → wf (upd b i j v).
Proof.
  intros [Hl Hr]. split.
  - unfold upd. by rewrite length_alter.
  - unfold upd. apply Forall_alter; [done|].
    intros row _. by rewrite length_insert.
Qed.

Lemma at_upd b i j v i' j' :
  wf b → (i < 9)%nat → (j < 9)%nat →
  at_ (upd b i j v) i' j' = if decide (i = i' ∧ j = j') then v else at_ b i' j'.
Proof.
  intros Hwf Hi Hj. destruct (wf_lookup b i Hwf Hi) as (row & Hrow & Hlen).
  unfold at_, upd.
  destruct (decide (i = i')) as [<-|Hne].
  - rewrite list_lookup_alter_eq, Hrow. simpl.
    destruct (decide (j = j')) as [<-|Hnej].
    + rewrite decide_True by done.
      by rewrite list_lookup_insert_eq by lia.
    + rewrite decide_False by tauto.
      by rewrite list_lookup_insert_ne by done.
  - rewrite list_lookup_alter_ne by done.
    by rewrite decide_False by tauto.
Qed.

Lemma at_upd_same b i j v :
  wf b → (i < 9)%nat → (j < 9)%nat → at_ (upd b i j v) i j = v.
Proof. intros. rewrite at_upd by done. by rewrite decide_True. Qed.

Lemma at_upd_other b i j v i' j' :
  wf b → (i < 9)%nat → (j < 9)%nat → (i ≠ i' ∨ j ≠ j') →
  at_ (upd b i j v) i' j' = at_ b i' j'.
Proof. intros. rewrite at_upd by done. rewrite decide_False; [done|tauto]. Qed.

(** Two 9x9 grids with the same cells are the same list of lists. *)
Lemma board_ext b b' :
  wf b → wf b' →
  (∀ i j, (i < 9)%nat → (j < 9)%nat → at_ b i j = at_ b' i j) → b = b'.
Proof.
  intros Hwf Hwf' Heq. apply list_eq_same_length with 9%nat;
    [apply Hwf' | apply Hwf |].
  intros i row row' Hi Hrow Hrow'.
  assert (length row = 9%nat) as Hl1
    by (eapply (Forall_lookup_1 _ _ _ _ (proj2 Hwf) Hrow)).
  assert (length row' = 9%nat) as Hl2
    by (eapply (Forall_lookup_1 _ _ _ _ (proj2 Hwf') Hrow')).
  apply list_eq_same_length with 9%nat; [done..|].
  intros j x y Hj Hx Hy.
  specialize (Heq i j Hi Hj). unfold at_ in Heq.
  rewrite Hrow, Hrow' in Heq. simpl in Heq. rewrite Hx, Hy in Heq. done.
Qed.

Lemma upd_upd b i j v w :
  wf b → (i < 9)%nat → (j < 9)%nat → upd (upd b i j v) i j w = upd b i j w.
Proof.
  intros Hwf Hi Hj. apply board_ext; [by repeat apply upd_wf..|].
  intros i' j' Hi' Hj'.
  rewrite !at_upd by (try apply upd_wf; done).
  by destruct (decide _).
Qed.

Lemma upd_id b i j v :
  wf b → (i < 9)%nat → (j < 9)%nat → at_ b i j = v → upd b i j v = b.
Proof.
  intros Hwf Hi Hj Hv. apply board_ext; [by apply upd_wf|done|].
  intros i' j' Hi' Hj'. rewrite at_upd by done.
  destruct (decide _) as [[<- <-]|]; done.
Qed.

(** Writing a value and then the old one back restores the board. *)
Lemma upd_restore b i j v :
  wf b → (i < 9)%nat → (j < 9)%nat →
  upd (upd b i j v) i j (at_ b i j) = b.
Proof. intros. rewrite upd_upd by done. by apply upd_id. Qed.

Lemma elem_of_all_cells i j :
  (i, j) ∈ all_cells ↔ (i < 9)%nat ∧ (j < 9)%nat.
Proof.
  unfold all_cells, range9. rewrite list_elem_of_bind. split.
  - intros (i' & Hin & Hi'). apply list_elem_of_bind in Hin.
    destruct Hin as (j' & Hin & Hj').
    apply list_elem_of_singleton in Hin. simplify_eq.
    apply elem_of_seq in Hi', Hj'. lia.
  - intros [Hi Hj]. exists i. split; [|apply elem_of_seq; lia].
    apply list_elem_of_bind. exists j. split; [|apply elem_of_seq; lia].
    by apply list_elem_of_singleton.
Qed.

Lemma NoDup_all_cells : NoDup all_cells.
Proof. apply (bool_decide_unpack _). by vm_compute. Qed.

Lemma length_all_cells : length all_cells = 81%nat.
Proof. reflexivity. Qed.

#[global] Opaque all_cells.

(** * [find_empty] *)

Lemma find_empty_in_wf b cs :
  wf b → (∀ i j, (i, j) ∈ cs → (i < 9)%nat ∧ (j < 9)%nat) →
  find_empty_in b cs
  = Ok (snd <$> list_find (λ ij : nat * nat, at_ b ij.1 ij.2 = 0) cs).
Proof.
  intros Hwf. induction cs as [|[i j] cs IH]; intros Hcs; [done|].
  destruct (Hcs i j) as [Hi Hj]; [left|].
  simpl. rewrite cell_wf by done. simpl.
  destruct (decide (at_ b i j = 0)) as [Hz|Hz]; [done|].
  rewrite IH by (intros; apply Hcs; by right).
  f_equal. by destruct (list_find _ cs) as [[? ?]|].
Qed.

Lemma find_empty_wf b :
  wf b →
  find_empty b
  = Ok (snd <$> list_find (λ ij : nat * nat, at_ b ij.1 ij.2 = 0) all_cells).
Proof.
  intros Hwf. apply find_empty_in_wf; [done|].
  intros i j. apply elem_of_all_cells.
Qed.

Lemma find_empty_None b : wf b → find_empty b = Ok None → full b.
Proof.
  intros Hwf. rewrite find_empty_wf by done. intros [= Hnone].
  apply fmap_None, list_find_None in Hnone.
  intros i j Hi Hj.
  rewrite Forall_forall in Hnone.
  apply (Hnone (i, j)). by apply elem_of_all_cells.
Qed.

Lemma find_empty_Some b i j :
  wf b → find_empty b = Ok (Some (i, j)) →
  (i < 9)%nat ∧ (j < 9)%nat ∧ at_ b i j = 0.
Proof.
  intros Hwf. rewrite find_empty_wf by done. intros [= Hsome].
  apply fmap_Some in Hsome. destruct Hsome as ([k [i' j']] & Hfind & Heq).
  simpl in Heq. simplify_eq.
  apply list_find_Some in Hfind. destruct Hfind as (Hk & Hz & _).
  apply list_elem_of_lookup_2, elem_of_all_cells in Hk. tauto.
Qed.

Lemma find_empty_full b : wf b → full b → find_empty b = Ok None.
Proof.
  intros Hwf Hfull. rewrite find_empty_wf by done.
  destruct (list_find _ all_cells) as [[k [i j]]|] eqn:Hfind; [|done].
  apply list_find_Some in Hfind. destruct Hfind as (Hk & Hz & _).
  apply list_elem_of_lookup_2, elem_of_all_cells in Hk.
  destruct (Hfull i j); tauto.
Qed.

Lemma find_empty_cases b :
  wf b →
  (find_empty b = Ok None ∧ full b) ∨
  (∃ i j, find_empty b = Ok (Some (i, j)) ∧
          (i < 9)%nat ∧ (j < 9)%nat ∧ at_ b i j = 0).
Proof.
  intros Hwf. destruct (find_empty b) as [[[i j]|]| |] eqn:He.
  - right. exists i, j. split; [done|]. by apply find_empty_Some.
  - left. split; [done|]. by apply find_empty_None.
  - rewrite find_empty_wf in He by done. done.
  - rewrite find_empty_wf in He by done. done.
Qed.

(** * [is_valid_move] *)

Lemma any_conflict_Ok {X} (test : X → result bool) (P : X → Prop) xs :
  (∀ x, x ∈ xs → ∃ t, test x = Ok t ∧ (t = true ↔ P x)) →
  ∃ r, any_conflict test xs = Ok r ∧ (r = true ↔ ∃ x, x ∈ xs ∧ P x).
Proof.
  induction xs as [|x xs IH]; intros Htest.
  - exists false. split; [done|]. split; [done|].
    intros (x & Hx & _). by apply elem_of_nil in Hx.
  - destruct (Htest x) as (t & Ht & HP); [left|].
    simpl. rewrite Ht. simpl. destruct t.
    + exists true. split; [done|]. split; [|done].
      intros _. exists x. split; [left|by apply HP].
    + destruct IH as (r & Hr & Hiff); [intros; apply Htest; by right|].
      exists r. split; [done|]. rewrite Hiff. split.
      * intros (y & Hy & HPy). exists y. split; [by right|done].
      * intros (y & Hy & HPy). apply elem_of_cons in Hy.
        destruct Hy as [->|Hy]; [|eauto].
        apply HP in HPy. done.
Qed.

Lemma differs_and_holds_Ok (d : bool) (D : Prop) b i j num :
  wf b → (i < 9)%nat → (j < 9)%nat → (d = true ↔ D) →
  ∃ t, differs_and_holds d b i j num = Ok t ∧
       (t = true ↔ D ∧ at_ b i j = num).
Proof.
  intros Hwf Hi Hj Hd. unfold differs_and_holds. destruct d.
  - rewrite cell_wf by done. simpl. eexists. split; [done|].
    rewrite bool_decide_eq_true. tauto.
  - exists false. split; [done|]. split; [done|].
    intros [HD _]. apply Hd in HD. done.
Qed.

Lemma is_valid_move_spec b row col num :
  wf b → (row < 9)%nat → (col < 9)%nat →
  ∃ r, is_valid_move b row col num = Ok r ∧ (r = true ↔ free b row col num).
Proof.
  intros Hwf Hrow Hcol. unfold is_valid_move.
  destruct (any_conflict_Ok
    (λ j, differs_and_holds (bool_decide (j ≠ col)) b row j num)
    (λ j, j ≠ col ∧ at_ b row j = num) range9) as (r1 & -> & H1).
  { intros j Hj. apply elem_of_seq in Hj.
    apply differs_and_holds_Ok; [done|done|lia|apply bool_decide_eq_true]. }
  ok_step. destruct r1.
  { exists false. split; [done|]. split; [done|]. intros Hfree.
    destruct (proj1 H1 eq_refl) as (j & Hj & Hne & Heq).
    apply elem_of_seq in Hj.
    exfalso. apply (Hfree row j); [done|lia| |done].
    split; [by right|by left]. }
  destruct (any_conflict_Ok
    (λ i, differs_and_holds (bool_decide (i ≠ row)) b i col num)
    (λ i, i ≠ row ∧ at_ b i col = num) range9) as (r2 & -> & H2).
  { intros i Hi. apply elem_of_seq in Hi.
    apply differs_and_holds_Ok; [done|lia|done|apply bool_decide_eq_true]. }
  ok_step. destruct r2.
  { exists false. split; [done|]. split; [done|]. intros Hfree.
    destruct (proj1 H2 eq_refl) as (i & Hi & Hne & Heq).
    apply elem_of_seq in Hi.
    exfalso. apply (Hfree i col); [lia|done| |done].
    split; [by left|right; by left]. }
  destruct (any_conflict_Ok
    (λ i, any_conflict
       (λ j, differs_and_holds (bool_decide (i ≠ row ∨ j ≠ col)) b i j num)
       (seq (3 * (col / 3)) 3))
    (λ i, ∃ j, j ∈ seq (3 * (col / 3))%nat 3 ∧
               (i ≠ row ∨ j ≠ col) ∧ at_ b i j = num)
    (seq (3 * (row / 3)) 3)) as (r3 & -> & H3).
  { intros i Hi. apply elem_of_seq in Hi.
    apply any_conflict_Ok. intros j Hj. apply elem_of_seq in Hj.
    apply differs_and_holds_Ok; [done|lia|lia|apply bool_decide_eq_true]. }
  ok_step. destruct r3.
  { exists false. split; [done|]. split; [done|]. intros Hfree.
    destruct (proj1 H3 eq_refl) as (i & Hi & j & Hj & Hne & Heq).
    apply elem_of_seq in Hi, Hj.
    exfalso. apply (Hfree i j); [lia|lia| |done].
    split; [destruct Hne; [left|right]; congruence|].
    right; right. lia. }
  exists true. split; [done|]. split; [|done]. intros _.
  intros i j Hi Hj [Hne Hpeer] Heq.
  destruct Hpeer as [<-|[<-|[Hbi Hbj]]].
  - assert (false = true) as Hc; [|done].
    apply H1. exists j. split; [apply elem_of_seq; lia|].
    split; [|done]. destruct Hne; congruence.
  - assert (false = true) as Hc; [|done].
    apply H2. exists i. split; [apply elem_of_seq; lia|].
    split; [|done]. destruct Hne; congruence.
  - assert (false = true) as Hc; [|done].
    apply H3. exists i. split; [apply elem_of_seq; lia|].
    exists j. split; [apply elem_of_seq; lia|].
    split; [|done]. destruct Hne; [left|right]; congruence.
Qed.

Ltac bsimpl := cbn [mbind result_bind].

(** * The measure of the search: empty cells *)

Lemma filter_length_change {A} `{EqDecision A} (P Q : A → Prop)
    `{∀ x, Decision (P x)} `{∀ x, Decision (Q x)} (l : list A) (a : A) :
  NoDup l → a ∈ l → P a → ¬ Q a → (∀ x, x ≠ a → (P x ↔ Q x)) →
  length (filter P l) = S (length (filter Q l)).
Proof.
  intros Hnd Hin HPa HQa Hagree.
  induction l as [|x l IH]; [by apply elem_of_nil in Hin|].
  apply NoDup_cons in Hnd. destruct Hnd as [Hx Hnd].
  rewrite !filter_cons.
  destruct (decide (x = a)) as [->|Hne].
  - rewrite decide_True, decide_False by done. simpl. f_equal.
    clear IH Hin. induction l as [|y l IH]; [done|].
    apply not_elem_of_cons in Hx. destruct Hx as [Hya Hx].
    apply NoDup_cons in Hnd. destruct Hnd as [_ Hnd].
    rewrite !filter_cons.
    destruct (decide (P y)) as [HP|HP], (decide (Q y)) as [HQ|HQ];
      simpl; rewrite ?IH by done; try done.
    + apply Hagree in HP; [done|congruence].
    + apply Hagree in HQ; [done|congruence].
  - apply elem_of_cons in Hin. destruct Hin as [->|Hin]; [done|].
    destruct (decide (P x)) as [HP|HP], (decide (Q x)) as [HQ|HQ];
      simpl; rewrite ?IH by done; try done.
    + apply Hagree in HP; [done|congruence].
    + apply Hagree in HQ; [done|congruence].
Qed.

Lemma empties_upd b i j v :
  wf b → (i < 9)%nat → (j < 9)%nat → at_ b i j = 0 → v ≠ 0 →
  empties b = S (empties (upd b i j v)).
Proof.
  intros Hwf Hi Hj Hz Hv. unfold empties.
  apply (filter_length_change _ _ _ (i, j)).
  - apply NoDup_all_cells.
  - by apply elem_of_all_cells.
  - done.
  - simpl. by rewrite at_upd_same.
  - intros [i' j'] Hne. simpl. rewrite at_upd_other; [done..|].
    destruct (decide (i = i')), (decide (j = j')); try tauto. congruence.
Qed.

Lemma empties_le b : (empties b ≤ 81)%nat.
Proof.
  unfold empties. rewrite <- length_all_cells. apply length_filter.
Qed.

Lemma clue_count_upd b i j :
  wf b → (i < 9)%nat → (j < 9)%nat → at_ b i j ≠ 0 →
  clue_count b = S (clue_count (upd b i j 0)).
Proof.
  intros Hwf Hi Hj Hz. unfold clue_count.
  apply (filter_length_change _ _ _ (i, j)).
  - apply NoDup_all_cells.
  - by apply elem_of_all_cells.
  - done.
  - simpl. rewrite at_upd_same by done. tauto.
  - intros [i' j'] Hne. simpl. rewrite at_upd_other; [done..|].
    destruct (decide (i = i')), (decide (j = j')); try tauto. congruence.
Qed.

Lemma filter_all {A} (P : A → Prop) `{∀ x, Decision (P x)} (l : list A) :
  Forall P l → filter P l = l.
Proof.
  induction 1 as [|x l HP _ IH]; [done|].
  by rewrite filter_cons_True, IH.
Qed.

Lemma clue_count_full b : full b → clue_count b = 81%nat.
Proof.
  intros Hfull. unfold clue_count. rewrite <- length_all_cells. f_equal.
  apply filter_all. apply Forall_forall. intros [i j] Hin.
  apply elem_of_all_cells in Hin. simpl. apply Hfull; tauto.
Qed.

(** * What the search reaches *)

Lemma peer_sym i j i' j' : peer i j i' j' → peer i' j' i j.
Proof.
  unfold peer. intros [H1 H2]. split.
  - destruct H1; [left|right]; congruence.
  - destruct H2 as [->|[->|[? ?]]];
      [by left | right; by left | right; right; done].
Qed.

Lemma elem_of_digits v : v ∈ digits ↔ 1 ≤ v ≤ 9.
Proof.
  unfold digits. rewrite !elem_of_cons, elem_of_nil. lia.
Qed.

Lemma fills_refl b : wf b → full b → fills b b.
Proof.
  intros Hwf Hfull. split; [done|]. split; [by intros ?|].
  intros i j Hi Hj Hz. by destruct (Hfull i j).
Qed.

Lemma fills_full b s : fills b s → full s.
Proof.
  intros (Hwf & Hext & Hnew) i j Hi Hj.
  destruct (decide (at_ b i j = 0)) as [Hz|Hz].
  - destruct (Hnew i j Hi Hj Hz). lia.
  - rewrite Hext by done. done.
Qed.

(** The search at the empty cell [(row, col)]: a board is reached from [b]
    exactly when it is reached from [b] with a digit written there that no
    peer holds. *)
Lemma fills_step b row col s :
  wf b → (row < 9)%nat → (col < 9)%nat → at_ b row col = 0 →
  fills b s ↔
  ∃ num, num ∈ digits ∧ free b row col num ∧ fills (upd b row col num) s.
Proof.
  intros Hwf Hrow Hcol Hz. split.
  - intros (Hwfs & Hext & Hnew). exists (at_ s row col).
    destruct (Hnew row col Hrow Hcol Hz) as [Hrng Hfree].
    split; [by apply elem_of_digits|]. split.
    + intros i j Hi Hj Hpeer Heq.
      destruct (decide (at_ b i j = 0)) as [Hz'|Hz']; [lia|].
      apply (Hfree i j Hi Hj Hpeer). rewrite Hext by done. done.
    + split; [done|]. split.
      * intros i j Hi Hj. rewrite at_upd by done.
        destruct (decide _) as [[<- <-]|]; [done|]. by apply Hext.
      * intros i j Hi Hj. rewrite at_upd by done.
        destruct (decide _) as [[<- <-]|]; [lia|]. by apply Hnew.
  - intros (num & Hnum & Hfree & Hwfs & Hext & Hnew).
    apply elem_of_digits in Hnum.
    assert (at_ s row col = num) as Hs.
    { rewrite (Hext row col Hrow Hcol);
        [by rewrite at_upd_same | rewrite at_upd_same by done; lia]. }
    split; [done|]. split.
    + intros i j Hi Hj Hnz.
      rewrite (Hext i j Hi Hj); rewrite at_upd by done;
        destruct (decide _) as [[<- <-]|]; done.
    + intros i j Hi Hj Hz'.
      destruct (decide (row = i ∧ col = j)) as [[<- <-]|Hne].
      * split; [lia|]. rewrite Hs.
        intros i' j' Hi' Hj' Hpeer.
        destruct (decide (at_ b i' j' = 0)) as [Hz''|Hz''].
        -- destruct (Hnew i' j' Hi' Hj') as [_ Hfree'].
           { rewrite at_upd_other; [done..|]. destruct Hpeer as [? _]. done. }
           intros Heq. apply (Hfree' row col Hrow Hcol (peer_sym _ _ _ _ Hpeer)).
           congruence.
        -- rewrite Hext.
           ++ rewrite at_upd_other; [|done..|by destruct Hpeer].
              by apply Hfree.
           ++ done.
           ++ done.
           ++ rewrite at_upd_other; [done..|by destruct Hpeer].
      * apply Hnew; [done..|]. rewrite at_upd by done.
        by rewrite decide_False.
Qed.

(** * [solve]: total correctness *)

Lemma solve_try_spec (rec : board → result (bool * board)) row col nums b :
  wf b → (row < 9)%nat → (col < 9)%nat → at_ b row col = 0 →
  (∀ num, num ∈ nums → num ≠ 0) →
  (∀ b1, wf b1 → (empties b1 < empties b)%nat →
         ∃ res, rec b1 = Ok res ∧ solve_post b1 res) →
  ∃ r b', solve_try rec row col nums b = Ok (r, b') ∧
    (r = true →
       ∃ num, num ∈ nums ∧ free b row col num ∧ fills (upd b row col num) b') ∧
    (r = false →
       b' = b ∧
       ∀ num s, num ∈ nums → free b row col num →
                ¬ fills (upd b row col num) s).
Proof.
  intros Hwf Hrow Hcol Hz Hnz Hrec.
  induction nums as [|num nums IH].
  - exists false, b. split; [done|]. split; [done|].
    intros _. split; [done|]. intros num s Hin. by apply elem_of_nil in Hin.
  - destruct IH as (r & b' & Htry & Htrue & Hfalse);
      [intros; apply Hnz; by right|].
    cbn [solve_try].
    destruct (is_valid_move_spec b row col num Hwf Hrow Hcol)
      as (ok & -> & Hok).
    ok_step. destruct ok.
    + rewrite set_cell_wf by done. ok_step.
      destruct (Hrec (upd b row col num)) as ([solved b2] & -> & Ht & Hf).
      { by apply upd_wf. }
      { rewrite (empties_upd b row col num); [lia|done..|].
        apply Hnz. by left. }
      ok_step. simpl in Ht, Hf. destruct solved.
      * exists true, b2. split; [done|]. split; [|done].
        intros _. exists num. split; [by left|]. split; [by apply Hok|].
        by apply Ht.
      * destruct Hf as [-> Hnone]; [done|].
        rewrite set_cell_wf by (try apply upd_wf; done). ok_step.
        rewrite upd_upd, (upd_id b row col 0) by done.
        exists r, b'. split; [done|]. split.
        -- intros Hr. destruct (Htrue Hr) as (n & Hn & Hrest).
           exists n. split; [by right|done].
        -- intros Hr. destruct (Hfalse Hr) as [-> Hall]. split; [done|].
           intros n s Hn Hfree. apply elem_of_cons in Hn.
           destruct Hn as [->|Hn]; [apply Hnone|by apply Hall].
    + exists r, b'. split; [done|]. split.
      * intros Hr. destruct (Htrue Hr) as (n & Hn & Hrest).
        exists n. split; [by right|done].
      * intros Hr. destruct (Hfalse Hr) as [-> Hall]. split; [done|].
        intros n s Hn Hfree. apply elem_of_cons in Hn.
        destruct Hn as [->|Hn]; [|by apply Hall].
        apply Hok in Hfree. done.
Qed.

Lemma digits_nonzero num : num ∈ digits → num ≠ 0.
Proof. rewrite elem_of_digits. lia. Qed.

Lemma solve_rec_spec fuel b :
  wf b → (empties b < fuel)%nat →
  ∃ res, solve_rec fuel b = Ok res ∧ solve_post b res.
Proof.
  revert b. induction fuel as [|fuel IH]; intros b Hwf Hfuel; [lia|].
  cbn [solve_rec].
  destruct (find_empty_cases b Hwf) as [[-> Hfull]|(row & col & -> & Hrow & Hcol & Hz)];
    ok_step.
  - exists (true, b). split; [done|]. split; [|done].
    intros _. by apply fills_refl.
  - destruct (solve_try_spec (solve_rec fuel) row col digits b)
      as (r & b' & -> & Htrue & Hfalse); try done.
    { apply digits_nonzero. }
    { intros b1 Hwf1 Hlt. apply IH; [done|lia]. }
    exists (r, b'). split; [done|]. split; simpl.
    + intros Hr. destruct (Htrue Hr) as (num & Hnum & Hfree & Hfills).
      apply (fills_step b row col); [done..|]. eauto.
    + intros Hr. destruct (Hfalse Hr) as [-> Hall]. split; [done|].
      intros s Hs. apply (fills_step b row col) in Hs; [|done..].
      destruct Hs as (num & Hnum & Hfree & Hfills). by eapply Hall.
Qed.

(** More fuel does not change a result. *)
Lemma solve_try_mono (rec rec' : board → result (bool * board))
    row col nums b res :
  (∀ b1 res1, rec b1 = Ok res1 → rec' b1 = Ok res1) →
  solve_try rec row col nums b = Ok res →
  solve_try rec' row col nums b = Ok res.
Proof.
  intros Hrec. revert b. induction nums as [|num nums IH]; intros b; [done|].
  cbn [solve_try].
  destruct (is_valid_move b row col num) as [[|]| |]; cbn [mbind result_bind]; try done;
    [|apply IH].
  destruct (set_cell b row col num) as [b1| |]; cbn [mbind result_bind]; try done.
  destruct (rec b1) as [[solved b2]| |] eqn:Hb1; cbn [mbind result_bind]; try done.
  rewrite (Hrec _ _ Hb1). cbn [mbind result_bind]. destruct solved; [done|].
  destruct (set_cell b2 row col 0) as [b3| |]; cbn [mbind result_bind]; try done.
  apply IH.
Qed.

Lemma solve_rec_mono fuel fuel' b res :
  (fuel ≤ fuel')%nat → solve_rec fuel b = Ok res → solve_rec fuel' b = Ok res.
Proof.
  revert fuel' b res. induction fuel as [|fuel IH]; intros fuel' b res Hle;
    [done|].
  destruct fuel' as [|fuel']; [lia|]. cbn [solve_rec].
  destruct (find_empty b) as [[[row col]|]| |]; cbn [mbind result_bind]; try done.
  apply solve_try_mono. intros b1 res1. apply IH. lia.
Qed.

Lemma solve_spec b :
  wf b → ∃ res, solve b = Ok res ∧ solve_post b res.
Proof.
  intros Hwf. apply solve_rec_spec; [done|].
  pose proof (empties_le b). unfold depth_bound. lia.
Qed.

(** * Solved grids *)

Lemma NoDup_digits : NoDup digits.
Proof. apply (bool_decide_unpack _). by vm_compute. Qed.

Lemma unit_Permutation (l : list Z) :
  NoDup l → length l = 9%nat → (∀ x, x ∈ l → 1 ≤ x ≤ 9) → l ≡ₚ digits.
Proof.
  intros Hnd Hlen Hin. apply submseteq_length_Permutation.
  - apply NoDup_submseteq; [done|]. intros x Hx. apply elem_of_digits. auto.
  - rewrite Hlen. done.
Qed.

Lemma box_cells_lookup a c :
  (a < 3)%nat → (c < 3)%nat → box_cells !! (3 * a + c)%nat = Some (a, c).
Proof.
  intros Ha Hc.
  destruct a as [|[|[|?]]]; [| | |lia];
    destruct c as [|[|[|?]]]; try lia; reflexivity.
Qed.

Lemma elem_of_box_cells a c :
  (a, c) ∈ box_cells ↔ (a < 3)%nat ∧ (c < 3)%nat.
Proof.
  unfold box_cells. rewrite list_elem_of_bind. split.
  - intros (i' & Hin & Hi'). apply list_elem_of_bind in Hin.
    destruct Hin as (j' & Hin & Hj').
    apply list_elem_of_singleton in Hin. simplify_eq.
    apply elem_of_seq in Hi', Hj'. lia.
  - intros [Hi Hj]. exists a. split; [|apply elem_of_seq; lia].
    apply list_elem_of_bind. exists c. split; [|apply elem_of_seq; lia].
    by apply list_elem_of_singleton.
Qed.

Lemma NoDup_box_cells : NoDup box_cells.
Proof. apply (bool_decide_unpack _). by vm_compute. Qed.

Lemma NoDup_range9 : NoDup range9.
Proof. apply NoDup_seq. Qed.

Lemma elem_of_range9 i : i ∈ range9 ↔ (i < 9)%nat.
Proof. unfold range9. rewrite elem_of_seq. lia. Qed.

Lemma div3_add q a : (a < 3)%nat → ((3 * q + a) / 3)%nat = q.
Proof. intros. lia. Qed.

Lemma valid_grid_solved s : valid_grid s → solved s.
Proof.
  intros (Hwf & Hrng & Hpeer). split; [done|]. intros k Hk.
  split; [|split]; apply unit_Permutation.
  - apply NoDup_fmap_2_strong; [|apply NoDup_range9].
    intros j j' Hj Hj' Heq. apply elem_of_range9 in Hj, Hj'.
    destruct (decide (j = j')) as [|Hne]; [done|].
    exfalso. apply (Hpeer k j k j'); try done.
    split; [by right|by left].
  - unfold row_of. by rewrite length_fmap.
  - intros x Hx. apply list_elem_of_fmap in Hx.
    destruct Hx as (j & -> & Hj). apply elem_of_range9 in Hj. by apply Hrng.
  - apply NoDup_fmap_2_strong; [|apply NoDup_range9].
    intros i i' Hi Hi' Heq. apply elem_of_range9 in Hi, Hi'.
    destruct (decide (i = i')) as [|Hne]; [done|].
    exfalso. apply (Hpeer i k i' k); try done.
    split; [by left|right; by left].
  - unfold col_of. by rewrite length_fmap.
  - intros x Hx. apply list_elem_of_fmap in Hx.
    destruct Hx as (i & -> & Hi). apply elem_of_range9 in Hi. by apply Hrng.
  - apply NoDup_fmap_2_strong; [|apply NoDup_box_cells].
    intros [a c] [a' c'] Hin Hin' Heq.
    apply elem_of_box_cells in Hin, Hin'. cbn [fst snd] in Heq.
    destruct (decide (a = a' ∧ c = c')) as [[-> ->]|Hne]; [done|].
    assert (k / 3 < 3)%nat by lia. assert (k mod 3 < 3)%nat by lia.
    exfalso. revert Heq. apply Hpeer; [lia..|].
    split; [lia|]. right; right. by rewrite !div3_add by tauto.
  - unfold box_of. by rewrite length_fmap.
  - intros x Hx. apply list_elem_of_fmap in Hx.
    destruct Hx as ([a c] & -> & Hin). apply elem_of_box_cells in Hin.
    assert (k / 3 < 3)%nat by lia. assert (k mod 3 < 3)%nat by lia.
    cbn [fst snd]. apply Hrng; lia.
Qed.

Lemma NoDup_fmap_seq_inj (f : nat → Z) n j j' :
  NoDup (f <$> seq 0 n) → (j < n)%nat → (j' < n)%nat → f j = f j' → j = j'.
Proof.
  intros Hnd Hj Hj' Heq.
  apply (NoDup_lookup _ j j' (f j) Hnd).
  - by rewrite list_lookup_fmap, lookup_seq_lt.
  - rewrite list_lookup_fmap, lookup_seq_lt by done. simpl. by rewrite Heq.
Qed.

Lemma solved_valid_grid s : solved s → valid_grid s.
Proof.
  intros [Hwf Hunits]. split; [done|]. split.
  - intros i j Hi Hj. destruct (Hunits i Hi) as (Hrow & _ & _).
    apply elem_of_digits. rewrite <- Hrow.
    apply list_elem_of_fmap. exists j. split; [done|]. by apply elem_of_range9.
  - intros i j i' j' Hi Hj Hi' Hj' [Hne Hpeer] Heq.
    destruct Hpeer as [<-|[<-|[Hbi Hbj]]].
    + destruct (Hunits i Hi) as (Hrow & _ & _).
      assert (j = j'); [|destruct Hne; congruence].
      apply (NoDup_fmap_seq_inj (λ j, at_ s i j) 9); try done.
      fold range9. fold (row_of s i). rewrite Hrow. apply NoDup_digits.
    + destruct (Hunits j Hj) as (_ & Hcol & _).
      assert (i = i'); [|destruct Hne; congruence].
      apply (NoDup_fmap_seq_inj (λ i, at_ s i j) 9); try done.
      fold range9. fold (col_of s j). rewrite Hcol. apply NoDup_digits.
    + destruct (Hunits (3 * (i / 3) + j / 3)%nat) as (_ & _ & Hbox); [lia|].
      assert (NoDup (box_of s (3 * (i / 3) + j / 3))) as Hnd
        by (rewrite Hbox; apply NoDup_digits).
      assert (3 * (i mod 3) + j mod 3 = 3 * (i' mod 3) + j' mod 3)%nat; [|lia].
      apply (NoDup_lookup _ _ _ (at_ s i j) Hnd).
      * unfold box_of. rewrite list_lookup_fmap, box_cells_lookup by lia.
        cbn [fmap option_fmap option_map fst snd]. f_equal. f_equal; lia.
      * unfold box_of. rewrite list_lookup_fmap, box_cells_lookup by lia.
        cbn [fmap option_fmap option_map fst snd]. rewrite Heq.
        f_equal. f_equal; lia.
Qed.

Lemma in_range_at b i j :
  wf b → in_range b → (i < 9)%nat → (j < 9)%nat → 0 ≤ at_ b i j ≤ 9.
Proof.
  intros Hwf Hrng Hi Hj.
  destruct (wf_lookup b i Hwf Hi) as (row & Hrow & Hlen).
  destruct (lookup_lt_is_Some_2 row j) as [v Hv]; [lia|].
  unfold at_. rewrite Hrow. simpl. rewrite Hv. simpl.
  unfold in_range in Hrng. rewrite Forall_lookup in Hrng.
  specialize (Hrng _ _ Hrow). rewrite Forall_lookup in Hrng.
  by apply (Hrng j).
Qed.

(** On a grid without conflicts the search reaches exactly the
    completions. *)
Lemma fills_completion b s :
  wf b → in_range b → conflict_free b → fills b s ↔ completion b s.
Proof.
  intros Hwf Hrng Hcf. split.
  - intros (Hwfs & Hext & Hnew). split; [|done].
    apply valid_grid_solved. split; [done|]. split.
    + intros i j Hi Hj. destruct (decide (at_ b i j = 0)) as [Hz|Hz].
      * by apply Hnew.
      * rewrite Hext by done. pose proof (in_range_at b i j Hwf Hrng Hi Hj). lia.
    + intros i j i' j' Hi Hj Hi' Hj' Hpeer.
      destruct (decide (at_ b i j = 0)) as [Hz|Hz].
      { destruct (Hnew i j Hi Hj Hz) as [_ Hfree].
        intros Heq. by apply (Hfree i' j' Hi' Hj' Hpeer). }
      destruct (decide (at_ b i' j' = 0)) as [Hz'|Hz'].
      { destruct (Hnew i' j' Hi' Hj' Hz') as [_ Hfree].
        intros Heq. by apply (Hfree i j Hi Hj (peer_sym _ _ _ _ Hpeer)). }
      rewrite !Hext by done. by apply Hcf.
  - intros [Hsolved Hext]. apply solved_valid_grid in Hsolved.
    destruct Hsolved as (Hwfs & Hdig & Hpeer).
    split; [done|]. split; [done|].
    intros i j Hi Hj Hz. split; [by apply Hdig|].
    intros i' j' Hi' Hj' Hp Heq. by apply (Hpeer i j i' j').
Qed.

(** * [is_valid_puzzle] *)

Lemma free_upd_self b i j v num :
  wf b → (i < 9)%nat → (j < 9)%nat →
  free (upd b i j v) i j num ↔ free b i j num.
Proof.
  intros Hwf Hi Hj. unfold free.
  split; intros Hfree i' j' Hi' Hj' Hpeer;
    specialize (Hfree i' j' Hi' Hj' Hpeer);
    rewrite at_upd_other in *; try done; by destruct Hpeer.
Qed.

Lemma is_valid_puzzle_in_spec cs b :
  wf b → (∀ i j, (i, j) ∈ cs → (i < 9)%nat ∧ (j < 9)%nat) →
  ∃ r, is_valid_puzzle_in cs b = Ok (r, b) ∧
       (r = true ↔
          ∀ i j, (i, j) ∈ cs → at_ b i j ≠ 0 → free b i j (at_ b i j)).
Proof.
  intros Hwf. induction cs as [|[i j] cs IH]; intros Hcs.
  - exists true. split; [done|]. split; [|done].
    intros _ i j Hin. by apply elem_of_nil in Hin.
  - destruct (Hcs i j) as [Hi Hj]; [left|].
    destruct IH as (r & Hr & Hiff); [intros; apply Hcs; by right|].
    cbn [is_valid_puzzle_in]. rewrite cell_wf by done. ok_step.
    destruct (decide (at_ b i j ≠ 0)) as [Hnz|Hz].
    + rewrite set_cell_wf by done. ok_step.
      destruct (is_valid_move_spec (upd b i j 0) i j (at_ b i j))
        as (valid & -> & Hvalid); [by apply upd_wf|done..|].
      ok_step. rewrite set_cell_wf by (try apply upd_wf; done). ok_step.
      rewrite upd_restore by done.
      rewrite free_upd_self in Hvalid by done.
      destruct valid.
      * exists r. split; [done|]. rewrite Hiff. split.
        -- intros Hall i' j' Hin Hnz'. apply elem_of_cons in Hin.
           destruct Hin as [[= -> ->]|Hin]; [by apply Hvalid|by apply Hall].
        -- intros Hall i' j' Hin. apply Hall. by right.
      * exists false. split; [done|]. split; [done|].
        intros Hall. apply Hvalid, Hall; [left|done].
    + exists r. split; [done|]. rewrite Hiff. split.
      * intros Hall i' j' Hin Hnz'. apply elem_of_cons in Hin.
        destruct Hin as [[= -> ->]|Hin]; [done|by apply Hall].
      * intros Hall i' j' Hin. apply Hall. by right.
Qed.

Lemma is_valid_puzzle_spec b :
  wf b →
  ∃ r, is_valid_puzzle b = Ok (r, b) ∧ (r = true ↔ conflict_free b).
Proof.
  intros Hwf.
  destruct (is_valid_puzzle_in_spec all_cells b Hwf) as (r & Hr & Hiff).
  { intros i j. apply elem_of_all_cells. }
  exists r. split; [done|]. rewrite Hiff. split.
  - intros Hall i j i' j' Hi Hj Hi' Hj' Hpeer Hnz Heq.
    apply (Hall i j (proj2 (elem_of_all_cells i j) (conj Hi Hj)) Hnz
             i' j' Hi' Hj' Hpeer). done.
  - intros Hcf i j Hin Hnz i' j' Hi' Hj' Hpeer Heq.
    apply elem_of_all_cells in Hin.
    apply (Hcf i j i' j'); try done; tauto.
Qed.

Lemma valid_grid_conflict_free s : valid_grid s → conflict_free s.
Proof.
  intros (_ & _ & Hpeer) i j i' j' Hi Hj Hi' Hj' Hp _. by apply Hpeer.
Qed.

Lemma valid_grid_full s : valid_grid s → full s.
Proof. intros (_ & Hdig & _) i j Hi Hj. specialize (Hdig i j Hi Hj). lia. Qed.

(** * [_find_all_solutions] *)

Lemma filter_length_split {A} (P Q R : A → Prop)
    `{∀ x, Decision (P x)} `{∀ x, Decision (Q x)} `{∀ x, Decision (R x)}
    (l : list A) :
  (∀ x, x ∈ l → (R x ↔ P x ∨ Q x)) →
  (∀ x, x ∈ l → P x → Q x → False) →
  length (filter R l) = (length (filter P l) + length (filter Q l))%nat.
Proof.
  induction l as [|x l IH]; intros Hiff Hdisj; [done|].
  rewrite !filter_cons.
  specialize (Hiff x (list_elem_of_here _ _)) as Hx.
  specialize (Hdisj x (list_elem_of_here _ _)) as Hdx.
  assert (length (filter R l)
          = (length (filter P l) + length (filter Q l))%nat) as IH'.
  { apply IH; [intros; apply Hiff; by right|intros ??; apply Hdisj; by right]. }
  destruct (decide (R x)), (decide (P x)), (decide (Q x));
    simpl; try lia; tauto.
Qed.

Lemma filter_none {A} (P : A → Prop) `{∀ x, Decision (P x)} (l : list A) :
  (∀ x, x ∈ l → ¬ P x) → filter P l = [].
Proof.
  induction l as [|x l IH]; intros Hnone; [done|].
  rewrite filter_cons_False by (apply Hnone; left).
  apply IH. intros y Hy. apply Hnone. by right.
Qed.

Lemma fills_at_digit b s row col :
  wf b → (row < 9)%nat → (col < 9)%nat → at_ b row col = 0 →
  fills b s → at_ s row col ∈ digits ∧ free b row col (at_ s row col).
Proof.
  intros Hwf Hrow Hcol Hz Hs.
  apply (fills_step b row col) in Hs; [|done..].
  destruct Hs as (num & Hnum & Hfree & Hwfs & Hext & _).
  assert (at_ s row col = num) as ->; [|done].
  apply elem_of_digits in Hnum.
  rewrite (Hext row col Hrow Hcol); rewrite at_upd_same by done; [done|lia].
Qed.

(** The completions reached through the digit [num] at [(row, col)]. *)
Lemma fills_branch b row col num (L : list board) :
  wf b → (row < 9)%nat → (col < 9)%nat → at_ b row col = 0 →
  num ∈ digits → free b row col num →
  (∀ s, s ∈ L ↔ fills b s) →
  ∀ s, s ∈ filter (λ s : board, at_ s row col = num) L
       ↔ fills (upd b row col num) s.
Proof.
  intros Hwf Hrow Hcol Hz Hnum Hfree HL s.
  rewrite list_elem_of_filter, HL. split.
  - intros [Hat Hs]. apply (fills_step b row col) in Hs; [|done..].
    destruct Hs as (num' & Hnum' & Hfree' & Hs).
    assert (at_ s row col = num') as Heq.
    { destruct Hs as (_ & Hext & _). apply elem_of_digits in Hnum'.
      rewrite (Hext row col Hrow Hcol); rewrite at_upd_same by done;
        [done|lia]. }
    by replace num with num' by congruence.
  - intros Hs. split.
    + destruct Hs as (_ & Hext & _). apply elem_of_digits in Hnum.
      rewrite (Hext row col Hrow Hcol); rewrite at_upd_same by done;
        [done|lia].
    + apply (fills_step b row col); [done..|]. eauto.
Qed.

Lemma find_all_try_spec
    (rec : board → list board → result (board * list board))
    max_solutions row col nums b (L : list board) :
  wf b → (row < 9)%nat → (col < 9)%nat → at_ b row col = 0 →
  NoDup nums → (∀ num, num ∈ nums → num ∈ digits) →
  NoDup L → (∀ s, s ∈ L ↔ fills b s) →
  (∀ b1 sols1 L1, wf b1 → (empties b1 < empties b)%nat →
     NoDup L1 → (∀ s, s ∈ L1 ↔ fills b1 s) →
     find_all_post max_solutions b1 sols1 L1 (rec b1 sols1)) →
  ∀ solutions,
    find_all_post max_solutions b solutions
      (filter (λ s, at_ s row col ∈ nums) L)
      (find_all_try rec row col nums b solutions).
Proof.
  intros Hwf Hrow Hcol Hz Hnd Hdig HndL HL Hrec.
  induction nums as [|num nums IH]; intros solutions.
  - exists []. rewrite app_nil_r. split; [done|]. split; [by intros ? ?%elem_of_nil|].
    rewrite filter_none; [simpl; lia|].
    intros s _ Hin. by apply elem_of_nil in Hin.
  - apply NoDup_cons in Hnd. destruct Hnd as [Hnum Hnd].
    assert (length (filter (λ s, at_ s row col ∈ num :: nums) L)
            = (length (filter (λ s, at_ s row col = num) L)
               + length (filter (λ s, at_ s row col ∈ nums) L))%nat) as Hsplit.
    { apply filter_length_split.
      - intros s _. apply elem_of_cons.
      - intros s _ -> Hin. done. }
    assert (∀ s, s ∈ filter (λ s, at_ s row col ∈ nums) L
                 → s ∈ filter (λ s, at_ s row col ∈ num :: nums) L) as Hsub.
    { intros s. rewrite !list_elem_of_filter. intros [? ?].
      split; [by right|done]. }
    specialize (IH Hnd (λ n Hn, Hdig n (list_elem_of_further _ _ _ Hn))).
    cbn [find_all_try].
    destruct (is_valid_move_spec b row col num Hwf Hrow Hcol)
      as (ok & -> & Hok).
    ok_step. destruct ok.
    + rewrite set_cell_wf by done. ok_step.
      destruct (Hrec (upd b row col num) solutions
                  (filter (λ s, at_ s row col = num) L))
        as (new1 & -> & Hin1 & Hlen1).
      { by apply upd_wf. }
      { rewrite (empties_upd b row col num); [lia|done..|].
        apply digits_nonzero, Hdig. by left. }
      { by apply NoDup_filter. }
      { apply fills_branch; try done; [apply Hdig; by left|by apply Hok]. }
      ok_step. rewrite set_cell_wf by (try apply upd_wf; done). ok_step.
      rewrite upd_upd, (upd_id b row col 0) by done.
      destruct (IH (solutions ++ new1)) as (new2 & -> & Hin2 & Hlen2).
      exists (new1 ++ new2). rewrite app_assoc. split; [done|]. split.
      * intros s Hs. apply elem_of_app in Hs. destruct Hs as [Hs|Hs]; [|auto].
        apply Hin1 in Hs. revert Hs. rewrite !list_elem_of_filter.
        intros [-> HsL]. split; [apply list_elem_of_here|exact HsL].
      * rewrite length_app in *. lia.
    + assert (filter (λ s, at_ s row col = num) L = []) as Hnil.
      { apply filter_none. intros s Hin <-. apply HL in Hin.
        destruct (fills_at_digit b s row col) as [_ Hfree]; [done..|].
        apply Hok in Hfree. done. }
      rewrite Hnil in Hsplit. simpl in Hsplit.
      destruct (IH solutions) as (new2 & -> & Hin2 & Hlen2).
      exists new2. split; [done|]. split; [auto|]. lia.
Qed.

Lemma fills_of_full b (L : list board) :
  wf b → full b → NoDup L → (∀ s, s ∈ L ↔ fills b s) → L = [b].
Proof.
  intros Hwf Hfull Hnd HL.
  assert (∀ s, s ∈ L ↔ s = b) as HL'.
  { intros s. rewrite HL. split.
    - intros (Hwfs & Hext & _). apply board_ext; [done..|].
      intros i j Hi Hj. apply Hext; [done..|]. by apply Hfull.
    - intros ->. by apply fills_refl. }
  destruct L as [|s L].
  - assert (b ∈ @nil board) as Hin by (by apply HL'). by apply elem_of_nil in Hin.
  - assert (s = b) as -> by (apply HL'; left).
    f_equal. destruct L as [|s' L]; [done|].
    assert (s' = b) as -> by (apply HL'; right; left).
    apply NoDup_cons in Hnd. destruct Hnd as [Hnotin _].
    exfalso. apply Hnotin. left.
Qed.

Lemma NoDup_digits_list : NoDup digits.
Proof. apply NoDup_digits. Qed.

Lemma find_all_spec fuel max_solutions b solutions (L : list board) :
  wf b → (empties b < fuel)%nat →
  NoDup L → (∀ s, s ∈ L ↔ fills b s) →
  find_all_post max_solutions b solutions L
    (_find_all_solutions fuel max_solutions b solutions).
Proof.
  revert b solutions L.
  induction fuel as [|fuel IH]; intros b solutions L Hwf Hfuel HndL HL; [lia|].
  cbn [_find_all_solutions].
  destruct (decide (Z.of_nat (length solutions) >= max_solutions)) as [Hge|Hlt].
  { exists []. rewrite app_nil_r. split; [done|].
    split; [by intros ? ?%elem_of_nil|]. simpl. lia. }
  destruct (find_empty_cases b Hwf)
    as [[-> Hfull]|(row & col & -> & Hrow & Hcol & Hz)]; ok_step.
  - rewrite (fills_of_full b L) by done.
    exists [b]. split; [done|]. split; [done|]. cbn [length]. lia.
  - assert (filter (λ s, at_ s row col ∈ digits) L = L) as Hall.
    { apply filter_all. apply Forall_forall. intros s Hs. apply HL in Hs.
      by destruct (fills_at_digit b s row col). }
    rewrite <- Hall at 1.
    apply find_all_try_spec; try done.
    + apply NoDup_digits.
    + intros b1 sols1 L1 Hwf1 Hlt1 Hnd1 HL1. apply IH; try done. lia.
Qed.

(** Everything the search reaches from a 9x9 grid can be listed. *)
Lemma fills_listable b : wf b → ∃ L, NoDup L ∧ ∀ s, s ∈ L ↔ fills b s.
Proof.
  remember (empties b) as n eqn:Hn. revert b Hn.
  induction (lt_wf n) as [n _ IH]. intros b -> Hwf.
  destruct (find_empty_cases b Hwf)
    as [[_ Hfull]|(row & col & _ & Hrow & Hcol & Hz)].
  { exists [b]. split; [apply NoDup_singleton|].
    intros s. rewrite list_elem_of_singleton. split.
    - intros ->. by apply fills_refl.
    - intros (Hwfs & Hext & _). apply board_ext; [done..|].
      intros i j Hi Hj. apply Hext; [done..|]. by apply Hfull. }
  assert (∀ nums, (∀ num, num ∈ nums → num ∈ digits) → NoDup nums →
    ∃ L, NoDup L ∧
      ∀ s, s ∈ L ↔ fills b s ∧ at_ s row col ∈ nums) as Hnums.
  { induction nums as [|num nums IHn]; intros Hdig Hnd.
    - exists []. split; [apply NoDup_nil_2|]. intros s. split.
      + by intros ?%elem_of_nil.
      + intros [_ Hin]. by apply elem_of_nil in Hin.
    - apply NoDup_cons in Hnd. destruct Hnd as [Hnum Hnd].
      destruct IHn as (L2 & Hnd2 & HL2);
        [intros; apply Hdig; by right|done|].
      destruct (is_valid_move_spec b row col num Hwf Hrow Hcol)
        as (ok & _ & Hok).
      destruct ok.
      + destruct (IH (empties (upd b row col num))) with (b := upd b row col num)
          as (L1 & Hnd1 & HL1); [|done|by apply upd_wf|].
        { rewrite (empties_upd b row col num); [lia|done..|].
          apply digits_nonzero, Hdig. by left. }
        assert (∀ s, s ∈ L1 ↔ fills b s ∧ at_ s row col = num) as HL1'.
        { intros s. rewrite HL1. split.
          - intros Hs. split.
            + apply (fills_step b row col); [done..|].
              exists num. split; [apply Hdig; by left|]. split; [by apply Hok|done].
            + destruct Hs as (_ & Hext & _).
              assert (num ≠ 0) by (apply digits_nonzero, Hdig; by left).
              rewrite (Hext row col Hrow Hcol); rewrite at_upd_same by done; done.
          - intros [Hs <-]. apply (fills_step b row col) in Hs; [|done..].
            destruct Hs as (num' & Hnum' & _ & Hs).
            assert (at_ s row col = num') as ->; [|done].
            destruct Hs as (_ & Hext & _). apply digits_nonzero in Hnum'.
            rewrite (Hext row col Hrow Hcol); rewrite at_upd_same by done; done. }
        exists (L1 ++ L2). split.
        * apply NoDup_app. split; [done|]. split; [|done].
          intros s Hs1 Hs2. apply HL1' in Hs1. apply HL2 in Hs2.
          destruct Hs1 as [_ <-]. by destruct Hs2.
        * intros s. rewrite elem_of_app, HL1', HL2, elem_of_cons. tauto.
      + exists L2. split; [done|]. intros s. rewrite HL2, elem_of_cons.
        split; [tauto|]. intros [Hs [Heq|Hin]]; [|done].
        destruct (fills_at_digit b s row col) as [_ Hfree]; [done..|].
        rewrite Heq in Hfree. apply Hok in Hfree. done. }
  destruct (Hnums digits) as (L & Hnd & HL); [done|apply NoDup_digits|].
  exists L. split; [done|]. intros s. rewrite HL. split; [tauto|].
  intros Hs. split; [done|]. by destruct (fills_at_digit b s row col).
Qed.

Lemma find_all_try_mono
    (rec rec' : board → list board → result (board * list board))
    row col nums b solutions res :
  (∀ b1 sols1 res1, rec b1 sols1 = Ok res1 → rec' b1 sols1 = Ok res1) →
  find_all_try rec row col nums b solutions = Ok res →
  find_all_try rec' row col nums b solutions = Ok res.
Proof.
  intros Hrec. revert b solutions.
  induction nums as [|num nums IH]; intros b solutions; [done|].
  cbn [find_all_try].
  destruct (is_valid_move b row col num) as [[|]| |]; bsimpl; try done;
    [|apply IH].
  destruct (set_cell b row col num) as [b1| |]; bsimpl; try done.
  destruct (rec b1 solutions) as [[b2 sols2]| |] eqn:Hb1; bsimpl; try done.
  rewrite (Hrec _ _ _ Hb1). bsimpl.
  destruct (set_cell b2 row col 0) as [b3| |]; bsimpl; try done.
  apply IH.
Qed.

Lemma find_all_mono fuel fuel' max_solutions b solutions res :
  (fuel ≤ fuel')%nat →
  _find_all_solutions fuel max_solutions b solutions = Ok res →
  _find_all_solutions fuel' max_solutions b solutions = Ok res.
Proof.
  revert fuel' b solutions res.
  induction fuel as [|fuel IH]; intros fuel' b solutions res Hle; [done|].
  destruct fuel' as [|fuel']; [lia|]. cbn [_find_all_solutions].
  destruct (decide _); [done|].
  destruct (find_empty b) as [[[row col]|]| |]; bsimpl; try done.
  apply find_all_try_mono. intros b1 sols1 res1. apply IH. lia.
Qed.

(** * [count_solutions] *)

Lemma load_lookup (h : heap) l b : h !! l = Some b → load h l = b.
Proof. unfold load. by intros ->. Qed.

Lemma fresh_not_lookup (h : heap) l :
  is_Some (h !! l) → l ≠ fresh (dom h).
Proof.
  intros Hl ->. apply elem_of_dom in Hl. by apply is_fresh in Hl.
Qed.

Lemma count_solutions_spec l limit (h : heap) b (L : list board) :
  h !! l = Some b → wf b → NoDup L → (∀ s, s ∈ L ↔ fills b s) →
  ∃ h', count_solutions l limit h
        = Ok (Z.of_nat (Nat.min (length L) (Z.to_nat limit)), h') ∧
        ∀ l', is_Some (h !! l') → h' !! l' = h !! l'.
Proof.
  intros Hl Hwf Hnd HL. unfold count_solutions, deepcopy, alloc, call.
  rewrite (load_lookup h l b Hl).
  rewrite (load_lookup _ (fresh (dom h)) b) by apply lookup_insert_eq.
  destruct (find_all_spec depth_bound limit b [] L) as (new & -> & _ & Hlen);
    try done.
  { pose proof (empties_le b). unfold depth_bound. lia. }
  bsimpl. eexists. split.
  - rewrite app_nil_l, Hlen. do 3 f_equal. simpl. lia.
  - intros l' Hl'. apply fresh_not_lookup in Hl'.
    by rewrite !lookup_insert_ne.
Qed.

(** * Every seeding of the diagonal boxes can be completed *)

(** ** The three computations *)

Lemma menu_ok_true : Diag.menu_ok = true.
Proof. vm_compute. reflexivity. Qed.

Lemma canon_ok_true : Diag.canon_ok = true.
Proof. vm_compute. reflexivity. Qed.

Lemma menu_latin_true : Diag.menu_latin = true.
Proof. vm_compute. reflexivity. Qed.

Section DiagBasics.
Import Diag.
Local Open Scope nat_scope.

(** ** The boolean tests *)

Lemma pair_eqb_eq p q : pair_eqb p q = true ↔ p = q.
Proof.
  destruct p as [a b], q as [a' b']. unfold pair_eqb. simpl.
  rewrite andb_true_iff, !Nat.eqb_eq. split; [intros [-> ->]|intros [= -> ->]]; done.
Qed.

Lemma existsb_pair_eqb p l : existsb (pair_eqb p) l = true ↔ p ∈ l.
Proof.
  induction l as [|q l IH]; simpl.
  - split; [done|]. by intros ?%elem_of_nil.
  - rewrite orb_true_iff, IH, pair_eqb_eq, elem_of_cons. done.
Qed.

Lemma nodupb_NoDup l : nodupb l = true ↔ NoDup l.
Proof.
  induction l as [|p l IH]; simpl.
  - split; [intros _; apply NoDup_nil_2|done].
  - rewrite andb_true_iff, negb_true_iff, IH, NoDup_cons.
    rewrite <- not_true_iff_false, existsb_pair_eqb. done.
Qed.

Lemma bijb_NoDup f g : bijb f g = true ↔ NoDup (zip f g).
Proof. apply nodupb_NoDup. Qed.

Lemma zip_fmap {A B A' B'} (h1 : A → A') (h2 : B → B') (f : list A) (g : list B) :
  zip (h1 <$> f) (h2 <$> g) = prod_map h1 h2 <$> zip f g.
Proof.
  revert g. induction f as [|x f IH]; intros [|y g]; simpl; [done..|].
  f_equal. apply IH.
Qed.

(** Relabelling rows or columns cannot create a bijection. *)
Lemma bijb_fmap (h1 h2 : nat → nat) f g :
  bijb (h1 <$> f) (h2 <$> g) = true → bijb f g = true.
Proof.
  rewrite !bijb_NoDup, zip_fmap. apply NoDup_fmap_1.
Qed.

Lemma apartb_spec f g :
  apartb f g = true ↔ Forall2 (λ x y, x ≠ y) f g.
Proof.
  revert g. induction f as [|x f IH]; intros [|y g]; simpl.
  - split; [constructor|done].
  - split; [done|inversion 1].
  - split; [done|inversion 1].
  - rewrite andb_true_iff, negb_true_iff, Nat.eqb_neq, IH. split.
    + intros [? ?]. by constructor.
    + inversion 1; subst. done.
Qed.

Lemma apartb_sym f g : apartb f g = true → apartb g f = true.
Proof.
  rewrite !apartb_spec. intros H. apply Forall2_flip.
  eapply Forall2_impl; [done|]. simpl. auto.
Qed.

(** ** The lists of residues *)

Lemma elem_of_lists_of vals n f :
  f ∈ lists_of vals n ↔ length f = n ∧ Forall (λ x, x ∈ vals) f.
Proof.
  revert f. induction n as [|n IH]; intros f; simpl.
  - rewrite list_elem_of_singleton. split.
    + intros ->. split; [done|constructor].
    + intros [Hlen _]. by apply length_zero_iff_nil.
  - rewrite list_elem_of_bind. split.
    + intros (x & Hf & Hx). apply list_elem_of_fmap in Hf.
      destruct Hf as (f' & -> & Hf'). apply IH in Hf'.
      destruct Hf' as [<- Hall]. split; [done|]. by constructor.
    + intros [Hlen Hall]. destruct f as [|x f]; [done|].
      apply Forall_cons in Hall. destruct Hall as [Hx Hall].
      exists x. split; [|done]. apply list_elem_of_fmap. exists f.
      split; [done|]. apply IH. split; [|done]. simpl in Hlen. lia.
Qed.

Lemma elem_of_all_fns f :
  f ∈ all_fns ↔ length f = 9 ∧ Forall (λ x, x < 3) f.
Proof.
  unfold all_fns. rewrite elem_of_lists_of.
  apply and_iff_compat_l, Forall_iff. intros x.
  rewrite !elem_of_cons, elem_of_nil. lia.
Qed.

Lemma elem_of_bal_fns f :
  f ∈ bal_fns ↔ (length f = 9 ∧ Forall (λ x, x < 3) f) ∧ balancedb f = true.
Proof.
  unfold bal_fns. rewrite list_elem_of_filter, elem_of_all_fns. tauto.
Qed.

Lemma elem_of_parts f :
  f ∈ parts ↔ f ∈ bal_fns ∧ rgsb 0 f = true.
Proof. unfold parts. rewrite list_elem_of_filter. tauto. Qed.

Lemma iter_xI_inj x y p q :
  Nat.iter x xI (xO p) = Nat.iter y xI (xO q) → x = y ∧ p = q.
Proof.
  revert y. induction x as [|x IH]; intros [|y]; simpl; try done.
  - by intros [= ->].
  - intros [= Heq]. apply IH in Heq. destruct Heq as [-> ->]. done.
Qed.

Lemma key_inj f g : key f = key g → f = g.
Proof.
  revert g. induction f as [|x f IH]; intros [|y g]; simpl.
  - done.
  - by destruct y.
  - by destruct x.
  - intros Heq. apply iter_xI_inj in Heq. destruct Heq as [-> Heq].
    f_equal. by apply IH.
Qed.

End DiagBasics.

(** ** What the check of the menu establishes *)

Section DiagMenu.
Import Diag.
Local Open Scope nat_scope.

Lemma existsb_elem {A} (f : A → bool) l :
  existsb f l = true ↔ ∃ x, x ∈ l ∧ f x = true.
Proof.
  induction l as [|y l IH]; simpl.
  - split; [done|]. intros (x & Hx & _). by apply elem_of_nil in Hx.
  - rewrite orb_true_iff, IH. split.
    + intros [Hy|(x & Hx & Hf)]; [exists y|exists x];
        (split; [|done]); [left|by right].
    + intros (x & Hx & Hf). apply elem_of_cons in Hx.
      destruct Hx as [->|Hx]; [by left|right; eauto].
Qed.

Lemma forallb_elem {A} (f : A → bool) l :
  forallb f l = true ↔ ∀ x, x ∈ l → f x = true.
Proof.
  induction l as [|y l IH]; simpl.
  - split; [|done]. intros _ x Hx. by apply elem_of_nil in Hx.
  - rewrite andb_true_iff, IH. split.
    + intros [Hy Hall] x Hx. apply elem_of_cons in Hx.
      destruct Hx as [->|Hx]; auto.
    + intros Hall. split; [apply Hall; left|].
      intros x Hx. apply Hall. by right.
Qed.

Lemma elem_of_cands O c x :
  x ∈ cands O c ↔ ∃ g, g ∈ O ∧ apartb c g = true ∧ x = third c g.
Proof.
  unfold cands. rewrite list_elem_of_fmap. split.
  - intros (g & -> & Hg). apply list_elem_of_filter in Hg. exists g. tauto.
  - intros (g & Hg & Hap & ->). exists g. split; [done|].
    by apply list_elem_of_filter.
Qed.

Lemma canon_fmap f : ∃ h : nat → nat, canon f = h <$> f.
Proof.
  unfold canon. destruct (find _ perms3) as [[a k]|].
  - eexists. reflexivity.
  - exists id. by rewrite list_fmap_id.
Qed.

Lemma lookup_unions (l : list (Pmap ())) k v :
  foldr (∪) ∅ l !! k = Some v → ∃ S, S ∈ l ∧ S !! k = Some v.
Proof.
  induction l as [|S l IH]; simpl.
  - by rewrite lookup_empty.
  - rewrite lookup_union_Some_raw. intros [HS|[_ Hl]].
    + exists S. split; [left|done].
    + destruct (IH Hl) as (S' & HS' & Hk). exists S'. split; [by right|done].
Qed.

Lemma rowsets_sound f k S :
  rowsets !! key f = Some S → is_Some (S !! k) →
  ∃ q, k = key q ∧ bijb f q = true.
Proof.
  unfold rowsets. intros HS [[] Hk].
  apply elem_of_list_to_map_2, list_elem_of_fmap in HS.
  destruct HS as (p & HS & _). apply pair_equal_spec in HS.
  destruct HS as [Hkey ->]. apply key_inj in Hkey. subst p.
  apply elem_of_list_to_map_2, list_elem_of_fmap in Hk.
  destruct Hk as (q & Hk & Hq). apply pair_equal_spec in Hk.
  destruct Hk as [-> _]. apply list_elem_of_filter in Hq.
  exists q. tauto.
Qed.

Lemma meet_sound Oc Or c r :
  meet (col_keys Oc c) (row_set Or r) = true →
  ∃ g7 rho7, g7 ∈ cands Oc c ∧ rho7 ∈ cands Or r ∧ bijb rho7 g7 = true.
Proof.
  unfold meet, col_keys, row_set. rewrite existsb_elem.
  intros (k & Hk & Hsome). apply bool_decide_eq_true in Hsome.
  apply list_elem_of_fmap in Hk. destruct Hk as (g7 & -> & Hg7).
  destruct Hsome as [v Hv]. apply lookup_unions in Hv.
  destruct Hv as (S & HS & Hv). apply list_elem_of_omap in HS.
  destruct HS as (rho7 & Hrho7 & HS).
  destruct (rowsets_sound _ _ _ HS (mk_is_Some _ _ Hv)) as (q & Hq & Hbij).
  apply key_inj in Hq. subst q.
  exists g7, rho7. split; [done|]. split; [done|].
  destruct (canon_fmap g7) as [h2 Hh2], (canon_fmap rho7) as [h1 Hh1].
  rewrite Hh1, Hh2 in Hbij. by apply bijb_fmap in Hbij.
Qed.

Lemma phi_of_meet rho gamma c r :
  meet (col_keys (orth_cols rho) c) (row_set (orth_rows gamma) r) = true →
  phi rho gamma c r.
Proof.
  intros Hmeet. apply meet_sound in Hmeet.
  destruct Hmeet as (g7 & rho7 & Hg7 & Hrho7 & Hbij).
  apply elem_of_cands in Hg7, Hrho7.
  destruct Hg7 as (g' & Hg' & Hapc & ->).
  destruct Hrho7 as (rho' & Hrho' & Hapr & ->).
  unfold orth_cols in Hg'. unfold orth_rows in Hrho'.
  apply list_elem_of_filter in Hg', Hrho'.
  destruct Hg' as [Hbg Hg'], Hrho' as [Hbr Hrho'].
  unfold bal_fns in Hg', Hrho'. apply list_elem_of_filter in Hg', Hrho'.
  exists g', rho'. tauto.
Qed.

Lemma mask_of_tests c r :
  mask_of (tests_c col_orths c) (tests_r row_orths r) = mask c r.
Proof.
  unfold mask_of, tests_c, tests_r, col_orths, row_orths, mask.
  rewrite <- !list_fmap_compose.
  rewrite zip_with_fmap_l, zip_with_fmap_r, zip_with_diag. done.
Qed.

Lemma mkey_inj m m' : mkey m = mkey m' → m = m'.
Proof.
  revert m'. induction m as [|[a b] m IH]; intros [|[a' b'] m']; simpl.
  - done.
  - by destruct a', b'.
  - by destruct a, b.
  - destruct a, b, a', b'; intros [= Heq]; f_equal; by apply IH.
Qed.

Lemma mask_in_masks c r : c ∈ parts → r ∈ parts → mask c r ∈ masks.
Proof.
  intros Hc Hr. unfold masks. cbv zeta.
  set (L := (tests_c col_orths <$> parts) ≫= _).
  assert ((mkey (mask c r), mask c r) ∈ L) as Hin.
  { unfold L. apply list_elem_of_bind. exists (tests_c col_orths c).
    split; [|apply list_elem_of_fmap; eauto].
    apply list_elem_of_fmap. exists (tests_r row_orths r).
    split; [by rewrite mask_of_tests|]. apply list_elem_of_fmap; eauto. }
  apply list_elem_of_fmap. exists (mkey (mask c r), mask c r).
  split; [done|]. apply elem_of_map_to_list.
  destruct (list_to_map L !! mkey (mask c r)) as [m'|] eqn:Hm'.
  - apply elem_of_list_to_map_2 in Hm' as Hm''.
    unfold L in Hm''. apply list_elem_of_bind in Hm''.
    destruct Hm'' as (tc & Hm'' & _). apply list_elem_of_fmap in Hm''.
    destruct Hm'' as (tr & Heq & _).
    apply pair_equal_spec in Heq. destruct Heq as [Hkey Hm].
    apply mkey_inj in Hkey. f_equal. rewrite Hm. symmetry. exact Hkey.
  - apply not_elem_of_list_to_map_2 in Hm'. exfalso. apply Hm'.
    apply list_elem_of_fmap. exists (mkey (mask c r), mask c r).
    split; [reflexivity|exact Hin].
Qed.

Lemma cross_sound c r c' r' :
  cross (mask c r) (mask c' r') = true →
  ∃ e, e ∈ menu ∧
    ((phi (rows1 e) (cols6 e) c r ∧ phi (rows2 e) (cols3 e) c' r') ∨
     (phi (rows2 e) (cols3 e) c r ∧ phi (rows1 e) (cols6 e) c' r')).
Proof.
  unfold cross, mask. rewrite zip_fmap, zip_diag, <- list_fmap_compose.
  rewrite existsb_elem. intros (ab & Hab & Htest).
  apply list_elem_of_fmap in Hab. destruct Hab as (e & -> & He).
  exists e. split; [done|]. cbn beta iota delta [fst snd] in Htest.
  apply orb_true_iff in Htest.
  destruct Htest as [Ht|Ht]; apply andb_true_iff in Ht; destruct Ht as [H1 H2];
    [left|right]; split; by apply phi_of_meet.
Qed.

(** For any two pairs of a column partition and a row partition, one
    entry of the menu serves the first pair as it stands and the second
    pair exchanged, or the other way round. *)
Lemma menu_serves c r c' r' :
  c ∈ parts → r ∈ parts → c' ∈ parts → r' ∈ parts →
  ∃ e, e ∈ menu ∧
    ((phi (rows1 e) (cols6 e) c r ∧ phi (rows2 e) (cols3 e) c' r') ∨
     (phi (rows2 e) (cols3 e) c r ∧ phi (rows1 e) (cols6 e) c' r')).
Proof.
  intros Hc Hr Hc' Hr'. apply cross_sound.
  pose proof menu_ok_true as Hok. unfold menu_ok in Hok. cbv zeta in Hok.
  rewrite forallb_elem in Hok.
  specialize (Hok _ (mask_in_masks c r Hc Hr)).
  rewrite forallb_elem in Hok.
  exact (Hok _ (mask_in_masks c' r' Hc' Hr')).
Qed.

End DiagMenu.

(** ** From partitions to arbitrary boxes *)

Section DiagBoxes.
Import Diag.
Local Open Scope nat_scope.

Lemma in_perms3 a k : (a, k) ∈ perms3 ↔ (a = 1 ∨ a = 2) ∧ k < 3.
Proof.
  unfold perms3. rewrite !elem_of_cons, elem_of_nil. split.
  - intros H. repeat destruct H as [H|H]; try done; injection H as -> ->; lia.
  - intros [[-> | ->] Hk];
      destruct k as [|[|[|?]]]; try lia; tauto.
Qed.

Lemma affine_inv a k g :
  (a = 1 ∨ a = 2) → k < 3 → Forall (λ x, x < 3) g →
  affine a k (affine a (inv_shift a k) g) = g.
Proof.
  intros Ha Hk Hg. unfold affine, inv_shift. rewrite <- list_fmap_compose.
  induction Hg as [|x g Hx Hg IH]; [done|]. simpl in *. f_equal; [|done].
  destruct Ha as [-> | ->];
    destruct k as [|[|[|?]]]; try lia;
    destruct x as [|[|[|?]]]; try lia; reflexivity.
Qed.

Lemma affine_lt a k f : Forall (λ x, x < 3) (affine a k f).
Proof.
  unfold affine. apply Forall_fmap, Forall_true. intros x. simpl. lia.
Qed.

Lemma affine_all_fns a k f : f ∈ all_fns → affine a k f ∈ all_fns.
Proof.
  rewrite !elem_of_all_fns. intros [Hlen _]. split; [|apply affine_lt].
  unfold affine. by rewrite length_fmap.
Qed.

Lemma apartb_affine a k c g :
  (a = 1 ∨ a = 2) → k < 3 →
  Forall (λ x, x < 3) c → Forall (λ x, x < 3) g →
  apartb (affine a k c) g = true →
  apartb c (affine a (inv_shift a k) g) = true.
Proof.
  intros Ha Hk Hc Hg. rewrite !apartb_spec. unfold affine, inv_shift.
  rewrite Forall2_fmap_l, Forall2_fmap_r. intros H.
  induction H as [|x y c g Hxy H IH]; [constructor|].
  apply Forall_cons in Hc, Hg. destruct Hc as [Hx Hc], Hg as [Hy Hg].
  constructor; [|by apply IH].
  intros ->. apply Hxy. clear -Ha Hk Hy.
  destruct Ha as [-> | ->];
    destruct k as [|[|[|?]]]; try lia;
    destruct y as [|[|[|?]]]; try lia; reflexivity.
Qed.

Lemma third3_affine a k x y :
  (a = 1 ∨ a = 2) → k < 3 →
  third3 ((a * x + k) mod 3) ((a * y + k) mod 3) =
  (a * third3 x y + k) mod 3.
Proof.
  intros Ha Hk. unfold third3.
  destruct Ha as [-> | ->]; destruct k as [|[|[|?]]]; lia.
Qed.

Lemma third_affine a k r rho :
  (a = 1 ∨ a = 2) → k < 3 →
  third (affine a k r) (affine a k rho) = affine a k (third r rho).
Proof.
  intros Ha Hk. unfold third, affine. revert rho.
  induction r as [|x r IH]; intros [|y rho]; [done..|].
  rewrite !fmap_cons. cbn [zip_with]. rewrite fmap_cons.
  f_equal; [by apply third3_affine|apply IH].
Qed.

Lemma bijb_fmap_r (h : nat → nat) f g :
  bijb f (h <$> g) = true → bijb f g = true.
Proof.
  intros H. apply (bijb_fmap id h). by rewrite list_fmap_id.
Qed.

Lemma bijb_fmap_l (h : nat → nat) f g :
  bijb (h <$> f) g = true → bijb f g = true.
Proof.
  intros H. apply (bijb_fmap h id). by rewrite list_fmap_id.
Qed.

Lemma phi_affine a k a' k' rho gamma c r :
  (a = 1 ∨ a = 2) → k < 3 → (a' = 1 ∨ a' = 2) → k' < 3 →
  c ∈ all_fns → r ∈ all_fns →
  phi rho gamma (affine a k c) (affine a' k' r) → phi rho gamma c r.
Proof.
  intros Ha Hk Ha' Hk' Hc Hr
    (g' & rho' & Hg' & Hrho' & Hapc & Hb1 & Hapr & Hb6 & Hb7).
  apply elem_of_all_fns in Hc as [_ Hc], Hr as [_ Hr].
  pose proof (proj2 (proj1 (elem_of_all_fns _) Hg')) as Hg'lt.
  pose proof (proj2 (proj1 (elem_of_all_fns _) Hrho')) as Hrho'lt.
  exists (affine a (inv_shift a k) g'), (affine a' (inv_shift a' k') rho').
  split; [by apply affine_all_fns|]. split; [by apply affine_all_fns|].
  split; [by apply apartb_affine|]. split.
  { rewrite <- (affine_inv a k g') in Hb1 by done.
    by apply bijb_fmap_r in Hb1. }
  split; [by apply apartb_affine|]. split.
  { rewrite <- (affine_inv a' k' rho') in Hb6 by done.
    by apply bijb_fmap_l in Hb6. }
  rewrite <- (affine_inv a k g'), <- (affine_inv a' k' rho') in Hb7 by done.
  rewrite !third_affine in Hb7 by done.
  by apply bijb_fmap in Hb7.
Qed.

Lemma bal_fns_all f : f ∈ bal_fns → f ∈ all_fns.
Proof. unfold bal_fns. rewrite list_elem_of_filter. tauto. Qed.

Lemma canon_exists f :
  f ∈ bal_fns → ∃ a k, (a = 1 ∨ a = 2) ∧ k < 3 ∧ affine a k f ∈ parts.
Proof.
  intros Hf. pose proof canon_ok_true as Hok. unfold canon_ok in Hok.
  rewrite forallb_elem in Hok. specialize (Hok f Hf).
  apply existsb_elem in Hok. destruct Hok as ([a k] & Hak & Hg).
  cbn beta iota zeta delta [fst snd] in Hg.
  apply andb_true_iff in Hg. destruct Hg as [Hbal Hrgs].
  apply in_perms3 in Hak. destruct Hak as [Ha Hk].
  exists a, k. split; [done|]. split; [done|].
  apply elem_of_parts. split; [|done].
  unfold bal_fns. apply list_elem_of_filter. split; [done|].
  by apply affine_all_fns, bal_fns_all.
Qed.

(** For the columns of one diagonal box and the rows of another, and
    again for a second such pair, one entry of the menu serves both. *)
Lemma menu_serves_all c r c' r' :
  c ∈ bal_fns → r ∈ bal_fns → c' ∈ bal_fns → r' ∈ bal_fns →
  ∃ e, e ∈ menu ∧
    ((phi (rows1 e) (cols6 e) c r ∧ phi (rows2 e) (cols3 e) c' r') ∨
     (phi (rows2 e) (cols3 e) c r ∧ phi (rows1 e) (cols6 e) c' r')).
Proof.
  intros Hc Hr Hc' Hr'.
  destruct (canon_exists c Hc) as (a1 & k1 & Ha1 & Hk1 & Hp1).
  destruct (canon_exists r Hr) as (a2 & k2 & Ha2 & Hk2 & Hp2).
  destruct (canon_exists c' Hc') as (a3 & k3 & Ha3 & Hk3 & Hp3).
  destruct (canon_exists r' Hr') as (a4 & k4 & Ha4 & Hk4 & Hp4).
  destruct (menu_serves _ _ _ _ Hp1 Hp2 Hp3 Hp4) as (e & He & Hphi).
  apply bal_fns_all in Hc, Hr, Hc', Hr'.
  exists e. split; [done|].
  destruct Hphi as [[H1 H2]|[H1 H2]]; [left|right]; split.
  - exact (phi_affine _ _ _ _ _ _ _ _ Ha1 Hk1 Ha2 Hk2 Hc Hr H1).
  - exact (phi_affine _ _ _ _ _ _ _ _ Ha3 Hk3 Ha4 Hk4 Hc' Hr' H2).
  - exact (phi_affine _ _ _ _ _ _ _ _ Ha1 Hk1 Ha2 Hk2 Hc Hr H1).
  - exact (phi_affine _ _ _ _ _ _ _ _ Ha3 Hk3 Ha4 Hk4 Hc' Hr' H2).
Qed.

(** *** The third list of a band or stack *)

Lemma third_lt f g : Forall (λ x, x < 3) (third f g).
Proof.
  unfold third. revert g. induction f as [|x f IH]; intros [|y g];
    cbn [zip_with]; try constructor; [|apply IH].
  unfold third3. lia.
Qed.

Lemma third_all_fns f g : f ∈ all_fns → g ∈ all_fns → third f g ∈ all_fns.
Proof.
  rewrite !elem_of_all_fns. intros [Hf _] [Hg _]. split; [|apply third_lt].
  unfold third. rewrite length_zip_with. lia.
Qed.

Lemma third3_apart x y :
  x < 3 → y < 3 → x ≠ y → x ≠ third3 x y ∧ y ≠ third3 x y.
Proof. intros Hx Hy Hxy. unfold third3. lia. Qed.

Lemma third_apart f g :
  Forall (λ x, x < 3) f → Forall (λ x, x < 3) g → apartb f g = true →
  apartb f (third f g) = true ∧ apartb g (third f g) = true.
Proof.
  rewrite !apartb_spec. intros Hf Hg H. unfold third.
  induction H as [|x y f g Hxy H IH]; cbn [zip_with].
  { split; constructor. }
  apply Forall_cons in Hf, Hg. destruct Hf as [Hx Hf], Hg as [Hy Hg].
  destruct (IH Hf Hg) as [IH1 IH2].
  destruct (third3_apart x y Hx Hy Hxy) as [H1 H2].
  split; by constructor.
Qed.

Lemma latin3b_spec f g h :
  latin3b f g h = true ↔
  apartb f g = true ∧ apartb f h = true ∧ apartb g h = true.
Proof. unfold latin3b. rewrite !andb_true_iff. tauto. Qed.

Lemma fnb_all_fns f : fnb f = true → f ∈ all_fns.
Proof.
  unfold fnb. rewrite andb_true_iff, Nat.eqb_eq, elem_of_all_fns.
  intros [Hlen Hf]. split; [done|].
  apply Forall_forall. intros x Hx.
  rewrite forallb_elem in Hf. apply Nat.ltb_lt. by apply Hf.
Qed.

Lemma r0_all_fns : r0 ∈ all_fns.
Proof. apply fnb_all_fns. reflexivity. Qed.

Lemma c0_all_fns : c0 ∈ all_fns.
Proof. apply fnb_all_fns. reflexivity. Qed.

Lemma bijb_r0_c0 : bijb r0 c0 = true.
Proof. reflexivity. Qed.

(** *** All nine boxes *)

Lemma boxes_from rho1 rho2 gamma3 gamma6 r4 c4 r8 c8 :
  rho1 ∈ all_fns → rho2 ∈ all_fns → gamma3 ∈ all_fns → gamma6 ∈ all_fns →
  r4 ∈ all_fns → c4 ∈ all_fns → r8 ∈ all_fns → c8 ∈ all_fns →
  bijb r4 c4 = true → bijb r8 c8 = true →
  latin3b r0 rho1 rho2 = true → latin3b c0 gamma3 gamma6 = true →
  phi rho1 gamma6 c4 r8 → phi rho2 gamma3 c8 r4 →
  ∃ b1 b2 b3 b5 b6 b7,
    good_boxes (box_table (r4, c4) (r8, c8) b1 b2 b3 b5 b6 b7).
Proof.
  intros Hrho1 Hrho2 Hgamma3 Hgamma6 Hr4 Hc4 Hr8 Hc8 Hb4 Hb8 Hrows Hcols
    (gamma1 & rho6 & Hgamma1 & Hrho6 & Hap1 & Hb1 & Hap6 & Hb6 & Hb7)
    (gamma2 & rho3 & Hgamma2 & Hrho3 & Hap2 & Hb2 & Hap3 & Hb3 & Hb5).
  apply latin3b_spec in Hrows as (Hr01 & Hr02 & Hr12).
  apply latin3b_spec in Hcols as (Hc03 & Hc06 & Hc36).
  pose proof (proj2 (proj1 (elem_of_all_fns _) Hr4)) as Hr4lt.
  pose proof (proj2 (proj1 (elem_of_all_fns _) Hc4)) as Hc4lt.
  pose proof (proj2 (proj1 (elem_of_all_fns _) Hr8)) as Hr8lt.
  pose proof (proj2 (proj1 (elem_of_all_fns _) Hc8)) as Hc8lt.
  pose proof (proj2 (proj1 (elem_of_all_fns _) Hgamma1)) as Hgamma1lt.
  pose proof (proj2 (proj1 (elem_of_all_fns _) Hgamma2)) as Hgamma2lt.
  pose proof (proj2 (proj1 (elem_of_all_fns _) Hrho3)) as Hrho3lt.
  pose proof (proj2 (proj1 (elem_of_all_fns _) Hrho6)) as Hrho6lt.
  destruct (third_apart _ _ Hc4lt Hgamma1lt Hap1) as [Hs1a Hs1b].
  destruct (third_apart _ _ Hr8lt Hrho6lt Hap6) as [Hd2a Hd2b].
  destruct (third_apart _ _ Hc8lt Hgamma2lt Hap2) as [Hs2a Hs2b].
  destruct (third_apart _ _ Hr4lt Hrho3lt Hap3) as [Hd1a Hd1b].
  pose proof (third_all_fns _ _ Hc4 Hgamma1) as Hg7.
  pose proof (third_all_fns _ _ Hr8 Hrho6) as Hr7.
  pose proof (third_all_fns _ _ Hc8 Hgamma2) as Hg5.
  pose proof (third_all_fns _ _ Hr4 Hrho3) as Hr5.
  pose proof r0_all_fns. pose proof c0_all_fns. pose proof bijb_r0_c0.
  exists (rho1, gamma1), (rho2, gamma2), (rho3, gamma3),
    (third r4 rho3, third c8 gamma2), (rho6, gamma6),
    (third r8 rho6, third c4 gamma1).
  split; [|split].
  - intros b s Hb Hs.
    destruct b as [|[|[|?]]]; [| | |lia];
      (destruct s as [|[|[|?]]]; [| | |lia]);
      cbn [box_table fst snd]; auto.
  - intros b s s' Hb Hs Hs' Hne.
    destruct b as [|[|[|?]]]; [| | |lia];
      (destruct s as [|[|[|?]]]; [| | |lia]);
      (destruct s' as [|[|[|?]]]; [| | |lia]);
      try (exfalso; apply Hne; reflexivity);
      cbn [box_table fst snd]; auto using apartb_sym.
  - intros s b b' Hs Hb Hb' Hne.
    destruct s as [|[|[|?]]]; [| | |lia];
      (destruct b as [|[|[|?]]]; [| | |lia]);
      (destruct b' as [|[|[|?]]]; [| | |lia]);
      try (exfalso; apply Hne; reflexivity);
      cbn [box_table fst snd]; auto using apartb_sym.
Qed.

Lemma menu_entry_latin e :
  e ∈ menu →
  latin3b r0 (rows1 e) (rows2 e) = true ∧
  latin3b c0 (cols3 e) (cols6 e) = true ∧
  rows1 e ∈ all_fns ∧ rows2 e ∈ all_fns ∧
  cols3 e ∈ all_fns ∧ cols6 e ∈ all_fns.
Proof.
  intros He. pose proof menu_latin_true as H. unfold menu_latin in H.
  rewrite forallb_elem in H. specialize (H e He).
  rewrite !andb_true_iff in H.
  destruct H as [[[[[H1 H2] H3] H4] H5] H6].
  auto 10 using fnb_all_fns.
Qed.

Lemma latin3b_swap f g h : latin3b f g h = true → latin3b f h g = true.
Proof.
  rewrite !latin3b_spec. intros (H1 & H2 & H3). auto using apartb_sym.
Qed.

(** Whatever the two other diagonal boxes are, the six remaining boxes
    can be chosen. *)
Lemma boxes_exist r4 c4 r8 c8 :
  r4 ∈ bal_fns → c4 ∈ bal_fns → r8 ∈ bal_fns → c8 ∈ bal_fns →
  bijb r4 c4 = true → bijb r8 c8 = true →
  ∃ b1 b2 b3 b5 b6 b7,
    good_boxes (box_table (r4, c4) (r8, c8) b1 b2 b3 b5 b6 b7).
Proof.
  intros Hr4 Hc4 Hr8 Hc8 Hb4 Hb8.
  destruct (menu_serves_all c4 r8 c8 r4 Hc4 Hr8 Hc8 Hr4) as (e & He & Hphi).
  destruct (menu_entry_latin e He) as (Hrows & Hcols & H1 & H2 & H3 & H6).
  apply bal_fns_all in Hr4, Hc4, Hr8, Hc8.
  destruct Hphi as [[HA HB]|[HA HB]].
  - by apply (boxes_from (rows1 e) (rows2 e) (cols3 e) (cols6 e)).
  - apply (boxes_from (rows2 e) (rows1 e) (cols6 e) (cols3 e));
      auto using latin3b_swap.
Qed.

End DiagBoxes.

(** ** The grid of a table of boxes *)

Section DiagGrid.
Import Diag Grid.
Local Open Scope nat_scope.

Lemma pigeonhole {A} (l k : list A) :
  NoDup l → (∀ x, x ∈ l → x ∈ k) → length k ≤ length l → l ≡ₚ k.
Proof.
  intros Hnd Hsub Hlen. apply submseteq_length_Permutation; [|done].
  by apply NoDup_submseteq.
Qed.

(** *** Positions of the digits of one box in another *)

Lemma index_of_lookup v q : v ∈ q → q !! index_of v q = Some v.
Proof.
  induction q as [|x q IH]; [by intros ?%elem_of_nil|].
  intros Hv. cbn [index_of]. destruct (decide (x = v)) as [->|Hne]; [done|].
  apply elem_of_cons in Hv as [->|Hv]; [done|]. by apply IH.
Qed.

Lemma index_of_lt v q : v ∈ q → index_of v q < length q.
Proof.
  intros Hv. apply lookup_lt_is_Some. exists v. by apply index_of_lookup.
Qed.

Lemma perm_digits_length (p : list Z) : p ≡ₚ digits → length p = 9.
Proof. by intros ->. Qed.

Lemma perm_digits_NoDup (p : list Z) : p ≡ₚ digits → NoDup p.
Proof. intros ->. apply NoDup_digits. Qed.

Section Positions.
Variables p0 q : list Z.
Hypothesis Hp0 : p0 ≡ₚ digits.
Hypothesis Hq : q ≡ₚ digits.

Lemma perm_digits_elem v : v ∈ p0 → v ∈ q.
Proof using Hp0 Hq. by rewrite Hp0, Hq. Qed.

Lemma positions_seq : positions p0 q ≡ₚ seq 0 9.
Proof using Hp0 Hq.
  apply pigeonhole.
  - unfold positions. apply NoDup_fmap_2_strong; [|by apply perm_digits_NoDup].
    intros v w Hv Hw Heq.
    apply perm_digits_elem, index_of_lookup in Hv, Hw.
    rewrite Heq in Hv. congruence.
  - intros n Hn. unfold positions in Hn.
    apply list_elem_of_fmap in Hn as (v & -> & Hv).
    apply perm_digits_elem, index_of_lt in Hv.
    rewrite (perm_digits_length q Hq) in Hv. apply elem_of_seq. lia.
  - unfold positions.
    by rewrite length_fmap, length_seq, (perm_digits_length p0 Hp0).
Qed.

Lemma positions_lookup k v :
  p0 !! k = Some v →
  ∃ n, positions p0 q !! k = Some n ∧ n < 9 ∧ q !! n = Some v.
Proof using Hp0 Hq.
  intros Hk. exists (index_of v q).
  assert (v ∈ q) as Hv.
  { apply perm_digits_elem. by eapply list_elem_of_lookup_2. }
  split; [|split].
  - unfold positions. by rewrite list_lookup_fmap, Hk.
  - apply index_of_lt in Hv. by rewrite (perm_digits_length q Hq) in Hv.
  - by apply index_of_lookup.
Qed.

Lemma balancedb_perm (f g : list nat) : f ≡ₚ g → balancedb f = balancedb g.
Proof. intros H. unfold balancedb, count_of. by rewrite H. Qed.

Lemma rows_in_bal : rows_in p0 q ∈ bal_fns.
Proof using Hp0 Hq.
  assert (rows_in p0 q ≡ₚ r0) as Hperm.
  { unfold rows_in. by rewrite positions_seq. }
  apply elem_of_bal_fns. split; [split|].
  - by rewrite Hperm.
  - rewrite Hperm. apply (proj1 (elem_of_all_fns r0)), r0_all_fns.
  - by rewrite (balancedb_perm _ _ Hperm).
Qed.

Lemma cols_in_bal : cols_in p0 q ∈ bal_fns.
Proof using Hp0 Hq.
  assert (cols_in p0 q ≡ₚ c0) as Hperm.
  { unfold cols_in. by rewrite positions_seq. }
  apply elem_of_bal_fns. split; [split|].
  - by rewrite Hperm.
  - rewrite Hperm. apply (proj1 (elem_of_all_fns c0)), c0_all_fns.
  - by rewrite (balancedb_perm _ _ Hperm).
Qed.

Lemma zip_fmap_same {A B C} (f : A → B) (g : A → C) (l : list A) :
  zip (f <$> l) (g <$> l) = (λ x, (f x, g x)) <$> l.
Proof. induction l as [|x l IH]; [done|]. cbn. by rewrite <- IH. Qed.

Lemma rows_cols_in_box : bijb (rows_in p0 q) (cols_in p0 q) = true.
Proof using Hp0 Hq.
  apply bijb_NoDup. unfold rows_in, cols_in. rewrite zip_fmap_same.
  apply NoDup_fmap_2_strong.
  - intros n m _ _ Heq. cbv beta in Heq.
    apply pair_equal_spec in Heq as [H1 H2].
    rewrite (Nat.div_mod_eq n 3), (Nat.div_mod_eq m 3). by rewrite H1, H2.
  - rewrite positions_seq. apply NoDup_seq.
Qed.
End Positions.

(** *** Places of a box *)

Lemma elem_of_places a c : (a, c) ∈ places ↔ a < 3 ∧ c < 3.
Proof.
  split.
  - assert (Forall (λ p : nat * nat, p.1 < 3 ∧ p.2 < 3) places) as H.
    { unfold places. cbn. repeat constructor. }
    rewrite Forall_forall in H. intros Hin. apply (H _ Hin).
  - intros [Ha Hc]. apply list_elem_of_In.
    destruct a as [|[|[|?]]]; [| | |lia];
      (destruct c as [|[|[|?]]]; [| | |lia]); cbn; tauto.
Qed.

Lemma find_pair_lookup a c l :
  (a, c) ∈ l → l !! find_pair a c l = Some (a, c).
Proof.
  induction l as [|p l IH]; [by intros ?%elem_of_nil|].
  intros Hin. cbn [find_pair].
  destruct (pair_eqb (a, c) p) eqn:Heq.
  - apply pair_eqb_eq in Heq. by subst p.
  - apply elem_of_cons in Hin as [Hp|Hin]; [|by apply IH].
    apply pair_eqb_eq in Hp. rewrite Hp in Heq. discriminate Heq.
Qed.

Lemma lookup_zip {A B} (f : list A) (g : list B) k x y :
  zip f g !! k = Some (x, y) ↔ f !! k = Some x ∧ g !! k = Some y.
Proof.
  rewrite lookup_zip_with_Some. split.
  - intros (x' & y' & [= -> ->] & H1 & H2). done.
  - intros [H1 H2]. by exists x, y.
Qed.

Lemma box_all_places R C :
  R ∈ all_fns → C ∈ all_fns → bijb R C = true → zip R C ≡ₚ places.
Proof.
  rewrite !elem_of_all_fns, bijb_NoDup. intros [HRl HR] [HCl HC] Hnd.
  apply pigeonhole; [done| |].
  - intros [x y] Hin. apply list_elem_of_lookup in Hin as [k Hk].
    apply lookup_zip in Hk as [H1 H2]. apply elem_of_places. split.
    + rewrite Forall_lookup in HR. by apply (HR k).
    + rewrite Forall_lookup in HC. by apply (HC k).
  - rewrite length_zip_with. unfold places. cbn. lia.
Qed.

Lemma box_place R C a c :
  R ∈ all_fns → C ∈ all_fns → bijb R C = true → a < 3 → c < 3 →
  find_pair a c (zip R C) < 9 ∧
  R !! find_pair a c (zip R C) = Some a ∧
  C !! find_pair a c (zip R C) = Some c.
Proof.
  intros HR HC Hb Ha Hc.
  assert ((a, c) ∈ zip R C) as Hin.
  { rewrite (box_all_places R C HR HC Hb). by apply elem_of_places. }
  apply find_pair_lookup, lookup_zip in Hin as [H1 H2].
  split; [|done]. apply elem_of_all_fns in HR as [HRl _].
  rewrite <- HRl. apply lookup_lt_is_Some. by exists a.
Qed.

Lemma apartb_lookup f g k x :
  apartb f g = true → f !! k = Some x → g !! k = Some x → False.
Proof.
  rewrite apartb_spec. intros H Hf Hg.
  by destruct (Forall2_lookup_lr _ _ _ _ _ _ H Hf Hg).
Qed.

(** *** The grid *)

Lemma grid_of_wf bx p0 : wf (grid_of bx p0).
Proof.
  unfold grid_of, wf. rewrite length_fmap. split; [done|].
  apply Forall_fmap, Forall_true. intros i. unfold compose.
  by rewrite length_fmap.
Qed.

Lemma at_grid_of bx p0 i j :
  i < 9 → j < 9 → at_ (grid_of bx p0) i j = grid_cell bx p0 i j.
Proof.
  intros Hi Hj. unfold at_, grid_of, range9.
  rewrite list_lookup_fmap, lookup_seq_lt by done.
  cbn [fmap option_fmap option_map mbind option_bind].
  rewrite list_lookup_fmap, lookup_seq_lt by done. done.
Qed.

Lemma mod3_add q a : a < 3 → (3 * q + a) mod 3 = a.
Proof. intros Ha. lia. Qed.

Lemma grid_at bx p0 b s a c :
  good_boxes bx → p0 ≡ₚ digits → b < 3 → s < 3 → a < 3 → c < 3 →
  ∃ k, k < 9 ∧
    p0 !! k = Some (at_ (grid_of bx p0) (3 * b + a) (3 * s + c)) ∧
    (bx b s).1 !! k = Some a ∧ (bx b s).2 !! k = Some c.
Proof.
  intros (Hbox & _ & _) Hp0 Hb Hs Ha Hc.
  destruct (Hbox b s Hb Hs) as (HR & HC & Hbij).
  rewrite at_grid_of by lia. unfold grid_cell.
  rewrite !div3_add, !mod3_add by done. cbv zeta.
  destruct (box_place _ _ a c HR HC Hbij Ha Hc) as (Hk & H1 & H2).
  exists (find_pair a c (zip (bx b s).1 (bx b s).2)).
  split; [done|]. split; [|done].
  destruct (lookup_lt_is_Some_2 p0 (find_pair a c (zip (bx b s).1 (bx b s).2)))
    as [v Hv]; [by rewrite (perm_digits_length p0 Hp0)|].
  by rewrite Hv.
Qed.

Lemma grid_at' bx p0 i j :
  good_boxes bx → p0 ≡ₚ digits → i < 9 → j < 9 →
  ∃ k, k < 9 ∧
    p0 !! k = Some (at_ (grid_of bx p0) i j) ∧
    (bx (i / 3) (j / 3)).1 !! k = Some (i mod 3) ∧
    (bx (i / 3) (j / 3)).2 !! k = Some (j mod 3).
Proof.
  intros Hbx Hp0 Hi Hj.
  destruct (grid_at bx p0 (i / 3) (j / 3) (i mod 3) (j mod 3) Hbx Hp0)
    as (k & Hk); [lia..|].
  rewrite <- !Nat.div_mod_eq in Hk. by exists k.
Qed.

Lemma grid_of_valid bx p0 :
  good_boxes bx → p0 ≡ₚ digits → valid_grid (grid_of bx p0).
Proof.
  intros Hbx Hp0. split; [apply grid_of_wf|]. split.
  - intros i j Hi Hj.
    destruct (grid_at' bx p0 i j Hbx Hp0 Hi Hj) as (k & _ & Hv & _).
    apply list_elem_of_lookup_2 in Hv.
    apply elem_of_digits. by rewrite <- Hp0.
  - intros i j i' j' Hi Hj Hi' Hj' [Hne Hpeer] Heq.
    destruct (grid_at' bx p0 i j Hbx Hp0 Hi Hj) as (k & _ & Hv & HR & HC).
    destruct (grid_at' bx p0 i' j' Hbx Hp0 Hi' Hj')
      as (k' & _ & Hv' & HR' & HC').
    rewrite <- Heq in Hv'.
    pose proof (NoDup_lookup _ _ _ _ (perm_digits_NoDup p0 Hp0) Hv Hv') as <-.
    destruct Hbx as (_ & Hrows & Hcols).
    destruct (decide (i / 3 = i' / 3)) as [Hband|Hband];
      destruct (decide (j / 3 = j' / 3)) as [Hstack|Hstack].
    + rewrite <- Hband, <- Hstack in HR', HC'.
      assert (i mod 3 = i' mod 3) as Hri by congruence.
      assert (j mod 3 = j' mod 3) as Hcj by congruence.
      assert (i = i').
      { rewrite (Nat.div_mod_eq i 3), (Nat.div_mod_eq i' 3).
        by rewrite Hband, Hri. }
      assert (j = j').
      { rewrite (Nat.div_mod_eq j 3), (Nat.div_mod_eq j' 3).
        by rewrite Hstack, Hcj. }
      tauto.
    + assert (i = i') as <-.
      { destruct Hpeer as [?|[Hjj|[_ ?]]]; [done| |done].
        exfalso. apply Hstack. by rewrite Hjj. }
      apply (apartb_lookup _ _ k (i mod 3)
               (Hrows (i / 3) (j / 3) (j' / 3) ltac:(lia) ltac:(lia) ltac:(lia)
                  Hstack)); done.
    + assert (j = j') as <-.
      { destruct Hpeer as [Hii|[?|[? _]]]; [|done|done].
        exfalso. apply Hband. by rewrite Hii. }
      apply (apartb_lookup _ _ k (j mod 3)
               (Hcols (j / 3) (i / 3) (i' / 3) ltac:(lia) ltac:(lia) ltac:(lia)
                  Hband)); done.
    + destruct Hpeer as [Hii|[Hjj|[? _]]]; [| |done].
      * apply Hband. by rewrite Hii.
      * apply Hstack. by rewrite Hjj.
Qed.

(** *** Every seeding of the diagonal boxes has a completion *)

Lemma places_lookup k i j :
  r0 !! k = Some i → c0 !! k = Some j → k = 3 * i + j.
Proof.
  intros H1 H2.
  do 9 (destruct k as [|k]; [cbn in H1, H2; injection H1 as <-;
                             injection H2 as <-; reflexivity|]).
  done.
Qed.

Lemma in_box_lookup p0 q k i j v :
  p0 ≡ₚ digits → q ≡ₚ digits → p0 !! k = Some v →
  rows_in p0 q !! k = Some i → cols_in p0 q !! k = Some j →
  q !! (3 * i + j) = Some v.
Proof.
  intros Hp0 Hq Hv HR HC.
  destruct (positions_lookup p0 q Hp0 Hq k v Hv) as (n & Hn & _ & Hqv).
  unfold rows_in in HR. unfold cols_in in HC.
  rewrite list_lookup_fmap, Hn in HR. rewrite list_lookup_fmap, Hn in HC.
  cbn [fmap option_fmap option_map] in HR, HC.
  assert (i = n / 3) as -> by congruence.
  assert (j = n mod 3) as -> by congruence.
  by rewrite <- Nat.div_mod_eq.
Qed.

Lemma diag_grid p0 p4 p8 :
  p0 ≡ₚ digits → p4 ≡ₚ digits → p8 ≡ₚ digits →
  ∃ s, valid_grid s ∧
    ∀ i j, i < 3 → j < 3 →
      p0 !! (3 * i + j) = Some (at_ s i j) ∧
      p4 !! (3 * i + j) = Some (at_ s (3 + i) (3 + j)) ∧
      p8 !! (3 * i + j) = Some (at_ s (6 + i) (6 + j)).
Proof.
  intros Hp0 Hp4 Hp8.
  destruct (boxes_exist (rows_in p0 p4) (cols_in p0 p4)
              (rows_in p0 p8) (cols_in p0 p8))
    as (b1 & b2 & b3 & b5 & b6 & b7 & Hbx);
    [by apply rows_in_bal|by apply cols_in_bal|
     by apply rows_in_bal|by apply cols_in_bal|
     by apply rows_cols_in_box|by apply rows_cols_in_box|].
  set (bx := box_table _ _ b1 b2 b3 b5 b6 b7) in Hbx.
  exists (grid_of bx p0). split; [by apply grid_of_valid|].
  intros i j Hi Hj. split; [|split].
  - destruct (grid_at bx p0 0 0 i j Hbx Hp0) as (k & _ & Hv & HR & HC);
      [lia..|].
    change (3 * 0 + i) with i in Hv. change (3 * 0 + j) with j in Hv.
    change (bx 0 0) with (r0, c0) in HR, HC. cbn [fst snd] in HR, HC.
    by rewrite <- (places_lookup k i j HR HC).
  - destruct (grid_at bx p0 1 1 i j Hbx Hp0) as (k & _ & Hv & HR & HC);
      [lia..|].
    change (3 * 1 + i) with (3 + i) in Hv. change (3 * 1 + j) with (3 + j) in Hv.
    change (bx 1 1) with (rows_in p0 p4, cols_in p0 p4) in HR, HC.
    cbn [fst snd] in HR, HC.
    by apply (in_box_lookup p0 p4 k).
  - destruct (grid_at bx p0 2 2 i j Hbx Hp0) as (k & _ & Hv & HR & HC);
      [lia..|].
    change (3 * 2 + i) with (6 + i) in Hv. change (3 * 2 + j) with (6 + j) in Hv.
    change (bx 2 2) with (rows_in p0 p8, cols_in p0 p8) in HR, HC.
    cbn [fst snd] in HR, HC.
    by apply (in_box_lookup p0 p8 k).
Qed.

End DiagGrid.

(** * [generate_puzzle] *)

(** ** Boards below a valid grid *)

Lemma in_range_of_at b :
  wf b → (∀ i j, (i < 9)%nat → (j < 9)%nat → 0 ≤ at_ b i j ≤ 9) → in_range b.
Proof.
  intros Hwf Hat. unfold in_range.
  apply Forall_lookup. intros i row Hrow.
  assert (i < 9)%nat as Hi.
  { destruct Hwf as [Hlen _]. rewrite <- Hlen.
    apply lookup_lt_is_Some. by exists row. }
  destruct (wf_lookup b i Hwf Hi) as (row' & Hrow' & Hlen).
  assert (row' = row) as -> by congruence.
  apply Forall_lookup. intros j v Hv.
  assert (j < 9)%nat as Hj.
  { rewrite <- Hlen. apply lookup_lt_is_Some. by exists v. }
  specialize (Hat i j Hi Hj). unfold at_ in Hat.
  rewrite Hrow in Hat. cbn [mbind option_bind] in Hat.
  by rewrite Hv in Hat.
Qed.

Lemma below_valid b s :
  wf b → valid_grid s → extends b s → in_range b ∧ conflict_free b.
Proof.
  intros Hwf (Hwfs & Hdig & Hpeers) Hext. split.
  - apply in_range_of_at; [done|]. intros i j Hi Hj.
    destruct (decide (at_ b i j = 0)) as [->|Hz]; [lia|].
    rewrite <- (Hext i j Hi Hj Hz). specialize (Hdig i j Hi Hj). lia.
  - intros i j i' j' Hi Hj Hi' Hj' Hp Hz.
    destruct (decide (at_ b i' j' = 0)) as [Hz'|Hz']; [by rewrite Hz'|].
    rewrite <- (Hext i j Hi Hj Hz), <- (Hext i' j' Hi' Hj' Hz').
    by apply Hpeers.
Qed.

Lemma below_valid_fills b s :
  wf b → valid_grid s → extends b s → fills b s.
Proof.
  intros Hwf Hs Hext.
  destruct (below_valid b s Hwf Hs Hext) as [Hrng Hcf].
  apply fills_completion; [done..|]. split; [|done].
  by apply valid_grid_solved.
Qed.

Lemma extends_upd_0 b s i j :
  wf b → (i < 9)%nat → (j < 9)%nat → extends b s → extends (upd b i j 0) s.
Proof.
  intros Hwf Hi Hj Hext i' j' Hi' Hj'.
  rewrite at_upd by done. destruct (decide _) as [_|_]; [done|].
  by apply Hext.
Qed.

(** ** Seeding the diagonal boxes *)

Lemma fill_box_spec box nums ijs idx b :
  wf b →
  (∀ ij, ij ∈ ijs → (box + ij.1 < 9)%nat ∧ (box + ij.2 < 9)%nat) →
  NoDup ijs →
  (idx + length ijs ≤ length nums)%nat →
  ∃ b', fill_box box nums ijs idx b = Ok b' ∧ wf b' ∧
    (∀ n ij, ijs !! n = Some ij →
       nums !! (idx + n)%nat = Some (at_ b' (box + ij.1) (box + ij.2))) ∧
    (∀ i j, (i < 9)%nat → (j < 9)%nat →
       (∀ ij, ij ∈ ijs → (box + ij.1)%nat ≠ i ∨ (box + ij.2)%nat ≠ j) →
       at_ b' i j = at_ b i j).
Proof.
  revert idx b. induction ijs as [|[i j] ijs IH]; intros idx b Hwf Hin Hnd Hlen.
  - exists b. split; [done|]. split; [done|]. split; [|done].
    intros n ij Hn. by rewrite lookup_nil in Hn.
  - apply NoDup_cons in Hnd as [Hnotin Hnd].
    cbn [length] in Hlen.
    destruct (lookup_lt_is_Some_2 nums idx) as [v Hv]; [lia|].
    destruct (Hin (i, j)) as [Hi Hj]; [apply elem_of_cons; by left|].
    cbn [fst snd] in Hi, Hj.
    cbn [fill_box]. rewrite Hv, set_cell_wf by done. ok_step.
    destruct (IH (S idx) (upd b (box + i) (box + j) v))
      as (b' & Hrun & Hwf' & Hcells & Hframe);
      [by apply upd_wf| |done|lia|].
    { intros ij Hij. apply Hin, elem_of_cons. by right. }
    exists b'. split; [done|]. split; [done|]. split.
    + intros [|n] ij Hn.
      * injection Hn as <-. cbn [fst snd]. rewrite Nat.add_0_r, Hv. f_equal.
        rewrite Hframe; [by rewrite at_upd_same|done|done|].
        intros [i' j'] Hij. cbn [fst snd].
        destruct (decide (i' = i)) as [->|?]; [|left; lia].
        destruct (decide (j' = j)) as [->|?]; [done|right; lia].
      * cbn [lookup list_lookup] in Hn.
        rewrite <- (Hcells n ij Hn). f_equal. lia.
    + intros i' j' Hi' Hj' Hout.
      rewrite Hframe; [|done|done|].
      * apply at_upd_other; [done..|].
        destruct (Hout (i, j)) as [?|?]; [apply elem_of_cons; by left|..];
          cbn [fst snd] in *; [by left|by right].
      * intros ij Hij. apply Hout, elem_of_cons. by right.
Qed.

Lemma fill_box_cells box nums b :
  wf b → (box + 2 < 9)%nat → length nums = 9%nat →
  ∃ b', fill_box box nums box_cells 0 b = Ok b' ∧ wf b' ∧
    (∀ i j, (i < 3)%nat → (j < 3)%nat →
       nums !! (3 * i + j)%nat = Some (at_ b' (box + i) (box + j))) ∧
    (∀ i j, (i < 9)%nat → (j < 9)%nat →
       ¬ ((box ≤ i < box + 3)%nat ∧ (box ≤ j < box + 3)%nat) →
       at_ b' i j = at_ b i j).
Proof.
  intros Hwf Hbox Hlen.
  destruct (fill_box_spec box nums box_cells 0 b Hwf)
    as (b' & Hrun & Hwf' & Hcells & Hframe).
  { intros [i j] [Hi Hj]%elem_of_box_cells. cbn [fst snd]. lia. }
  { apply NoDup_box_cells. }
  { rewrite Hlen. done. }
  exists b'. split; [done|]. split; [done|]. split.
  - intros i j Hi Hj.
    apply (Hcells (3 * i + j)%nat (i, j)). by apply box_cells_lookup.
  - intros i j Hi Hj Hout. apply Hframe; [done..|].
    intros [a c] [Ha Hc]%elem_of_box_cells. cbn [fst snd]. lia.
Qed.

Lemma at_empty_board i j : at_ empty_board i j = 0.
Proof.
  unfold at_, empty_board.
  destruct (replicate 9 (replicate 9 0) !! i) as [row|] eqn:Hrow; [|done].
  apply lookup_replicate in Hrow as [-> _]. cbn [mbind option_bind].
  destruct (replicate 9 0 !! j) as [v|] eqn:Hv; [|done].
  by apply lookup_replicate in Hv as [-> _].
Qed.

Lemma empty_board_wf : wf empty_board.
Proof.
  unfold wf, empty_board. rewrite length_replicate. split; [done|].
  apply Forall_replicate. by rewrite length_replicate.
Qed.

Lemma seed_with_spec p0 p4 p8 :
  length p0 = 9%nat → length p4 = 9%nat → length p8 = 9%nat →
  ∃ b, seed_with p0 p4 p8 = Ok b ∧ Grid.seeded p0 p4 p8 b.
Proof.
  intros H0 H4 H8. unfold seed_with.
  destruct (fill_box_cells 0 p0 empty_board empty_board_wf)
    as (b1 & -> & Hwf1 & Hc1 & Hf1); [lia|done|].
  ok_step.
  destruct (fill_box_cells 3 p4 b1 Hwf1) as (b2 & -> & Hwf2 & Hc2 & Hf2);
    [lia|done|].
  ok_step.
  destruct (fill_box_cells 6 p8 b2 Hwf2) as (b3 & -> & Hwf3 & Hc3 & Hf3);
    [lia|done|].
  exists b3. split; [done|]. split; [done|]. split.
  - intros i j Hi Hj. split; [|split].
    + rewrite Hf3, Hf2 by lia. by apply Hc1.
    + rewrite Hf3 by lia. by apply Hc2.
    + by apply Hc3.
  - intros i j Hi Hj Hne.
    rewrite Hf3, Hf2, Hf1 by lia. apply at_empty_board.
Qed.

Lemma seeded_extends p0 p4 p8 b s :
  Grid.seeded p0 p4 p8 b →
  (∀ i j, (i < 3)%nat → (j < 3)%nat →
     p0 !! (3 * i + j)%nat = Some (at_ s i j) ∧
     p4 !! (3 * i + j)%nat = Some (at_ s (3 + i) (3 + j)) ∧
     p8 !! (3 * i + j)%nat = Some (at_ s (6 + i) (6 + j))) →
  extends b s.
Proof.
  intros (Hwf & Hdiag & Hzero) Hs i j Hi Hj Hnz.
  destruct (decide ((i / 3)%nat = (j / 3)%nat)) as [Heq|Hne];
    [|by rewrite Hzero in Hnz].
  destruct (Hdiag (i mod 3)%nat (j mod 3)%nat) as (Hb0 & Hb4 & Hb8); [lia..|].
  destruct (Hs (i mod 3)%nat (j mod 3)%nat) as (Hs0 & Hs4 & Hs8); [lia..|].
  destruct (decide (i / 3 = 0)%nat) as [Hd|Hd0].
  { replace (i mod 3)%nat with i in * by lia.
    replace (j mod 3)%nat with j in * by lia. congruence. }
  destruct (decide (i / 3 = 1)%nat) as [Hd|Hd1].
  { replace (3 + i mod 3)%nat with i in * by lia.
    replace (3 + j mod 3)%nat with j in * by lia. congruence. }
  replace (6 + i mod 3)%nat with i in * by lia.
  replace (6 + j mod 3)%nat with j in * by lia. congruence.
Qed.

(** Whatever the three permutations are, the seeded board lies below a
    valid grid. *)
Lemma seeded_completable p0 p4 p8 b :
  p0 ≡ₚ digits → p4 ≡ₚ digits → p8 ≡ₚ digits →
  Grid.seeded p0 p4 p8 b →
  ∃ s, valid_grid s ∧ extends b s.
Proof.
  intros H0 H4 H8 Hb.
  destruct (diag_grid p0 p4 p8 H0 H4 H8) as (s & Hs & Hdiag).
  exists s. split; [done|]. by apply (seeded_extends p0 p4 p8).
Qed.

Lemma solve_below_valid b s :
  wf b → valid_grid s → extends b s →
  ∃ sol, solve b = Ok (true, sol) ∧ valid_grid sol ∧ extends b sol.
Proof.
  intros Hwf Hs Hext.
  destruct (below_valid b s Hwf Hs Hext) as [Hrng Hcf].
  destruct (solve_spec b Hwf) as ([r sol] & Hrun & Htrue & Hfalse).
  cbn [fst snd] in Htrue, Hfalse. destruct r.
  - exists sol. split; [done|].
    apply (fills_completion b sol Hwf Hrng Hcf) in Htrue; [|done].
    destruct Htrue as [Hsolved Hext']. split; [|done].
    by apply solved_valid_grid.
  - destruct (Hfalse eq_refl) as [_ Hnone].
    destruct (Hnone s). by apply below_valid_fills.
Qed.

(** ** The dig loop and the whole generator *)

Section GeneratorProofs.
Context {rng : Type}.
Variable shuffle : ∀ A : Type, list A → rng → list A * rng.
(** [random.shuffle] rearranges the list. *)
Hypothesis shuffle_perm : ∀ A (l : list A) g, (shuffle A l g).1 ≡ₚ l.

Lemma seed_boxes_seed_with g :
  seed_boxes shuffle [0; 3; 6]%nat g empty_board =
  (let s0 := shuffle Z digits g in
   let s4 := shuffle Z digits s0.2 in
   let s8 := shuffle Z digits s4.2 in
   b ← seed_with s0.1 s4.1 s8.1; Ok (s8.2, b)).
Proof using Type.
  cbv zeta. unfold seed_with. cbn [seed_boxes].
  destruct (shuffle Z digits g) as [p0 g0]. cbn [fst snd].
  destruct (fill_box 0 p0 box_cells 0 empty_board) as [b1| |]; [|done..].
  ok_step.
  destruct (shuffle Z digits g0) as [p4 g4]. cbn [fst snd].
  destruct (fill_box 3 p4 box_cells 0 b1) as [b2| |]; [|done..].
  ok_step.
  destruct (shuffle Z digits g4) as [p8 g8]. cbn [fst snd].
  by destruct (fill_box 6 p8 box_cells 0 b2) as [b3| |].
Qed.

Lemma seed_boxes_spec g :
  ∃ g' b s, seed_boxes shuffle [0; 3; 6]%nat g empty_board = Ok (g', b) ∧
    wf b ∧ valid_grid s ∧ extends b s.
Proof using shuffle_perm.
  rewrite seed_boxes_seed_with. cbv zeta.
  set (s0 := shuffle Z digits g).
  set (s4 := shuffle Z digits s0.2).
  set (s8 := shuffle Z digits s4.2).
  pose proof (shuffle_perm Z digits g : s0.1 ≡ₚ digits) as H0.
  pose proof (shuffle_perm Z digits s0.2 : s4.1 ≡ₚ digits) as H4.
  pose proof (shuffle_perm Z digits s4.2 : s8.1 ≡ₚ digits) as H8.
  destruct (seed_with_spec s0.1 s4.1 s8.1) as (b & -> & Hb);
    [by apply perm_digits_length..|].
  destruct (seeded_completable _ _ _ b H0 H4 H8 Hb) as (s & Hs & Hext).
  ok_step. exists s8.2, b, s. split; [done|].
  split; [apply Hb|]. done.
Qed.

Lemma dig_spec cells removed target_removed bd sl (h : heap) b sol :
  (∀ ij, ij ∈ cells → (ij.1 < 9)%nat ∧ (ij.2 < 9)%nat) →
  h !! bd = Some b → h !! sl = Some sol → bd ≠ sl →
  valid_grid sol → wf b → extends b sol →
  (∀ s, fills b s → s = sol) →
  81 - removed ≤ Z.of_nat (clue_count b) →
  ∃ h' b', dig cells removed target_removed bd h = Ok h' ∧
    h' !! bd = Some b' ∧ h' !! sl = Some sol ∧
    wf b' ∧ extends b' sol ∧ (∀ s, fills b' s → s = sol) ∧
    81 - Z.max removed target_removed ≤ Z.of_nat (clue_count b').
Proof using Type.
  revert removed h b.
  induction cells as [|[i j] cells IH];
    intros removed h b Hcells Hbd Hsl Hne Hsol Hwf Hext Huniq Hcount.
  { exists h, b. cbn [dig]. repeat (split; [done|]). lia. }
  cbn [dig]. destruct (decide (removed >= target_removed)) as [Hstop|Hgo].
  { exists h, b. repeat (split; [done|]). lia. }
  destruct (Hcells (i, j)) as [Hi Hj]; [apply elem_of_cons; by left|].
  cbn [fst snd] in Hi, Hj.
  assert (∀ ij, ij ∈ cells → (ij.1 < 9)%nat ∧ (ij.2 < 9)%nat) as Hcells'.
  { intros ij Hij. apply Hcells, elem_of_cons. by right. }
  unfold read_cell, write_cell. rewrite (load_lookup h bd b Hbd).
  rewrite cell_wf by done. ok_step.
  rewrite set_cell_wf by done. ok_step.
  set (b1 := upd b i j 0). set (h1 := <[bd := b1]> h).
  assert (wf b1) as Hwf1 by by apply upd_wf.
  assert (extends b1 sol) as Hext1 by by apply extends_upd_0.
  destruct (fills_listable b1 Hwf1) as (L & HndL & HL).
  destruct (count_solutions_spec bd 2 h1 b1 L) as (h2 & -> & Hframe);
    [apply lookup_insert_eq|done..|].
  ok_step.
  assert (h2 !! bd = Some b1) as Hbd2.
  { rewrite Hframe; [apply lookup_insert_eq|].
    exists b1. apply lookup_insert_eq. }
  assert (h2 !! sl = Some sol) as Hsl2.
  { rewrite Hframe; unfold h1; rewrite lookup_insert_ne by done; [done|].
    by exists sol. }
  destruct (decide (Z.of_nat (Nat.min (length L) (Z.to_nat 2)) = 1))
    as [Hone|Hmany].
  - assert (sol ∈ L) as HsolL by by apply HL, below_valid_fills.
    assert (L = [sol]) as ->.
    { destruct L as [|s0 [|s1 L]]; cbn [length] in Hone; [lia| |lia].
      apply list_elem_of_singleton in HsolL. by subst. }
    destruct (IH (removed + 1) h2 b1) as (h' & b' & Hrun & Hrest);
      [done..| | |].
    { intros s Hs. apply HL, list_elem_of_singleton in Hs. done. }
    { destruct (decide (at_ b i j = 0)) as [Hz|Hz].
      - unfold b1. rewrite upd_id by done. lia.
      - rewrite (clue_count_upd b i j) in Hcount by done. fold b1 in Hcount.
        lia. }
    exists h', b'. split; [done|].
    destruct Hrest as (? & ? & ? & ? & ? & ?). repeat (split; [done|]). lia.
  - unfold write_cell. rewrite (load_lookup h2 bd b1 Hbd2).
    rewrite set_cell_wf by done. ok_step.
    unfold b1 at 1. rewrite upd_restore by done.
    destruct (IH removed (<[bd := b]> h2) b) as (h' & b' & Hrun & Hrest);
      [done|apply lookup_insert_eq|by rewrite lookup_insert_ne|done..|].
    exists h', b'. split; [done|].
    destruct Hrest as (? & ? & ? & ? & ? & ?). repeat (split; [done|]). lia.
Qed.

Lemma shuffle_cells g ij :
  ij ∈ (shuffle (nat * nat) all_cells g).1 → (ij.1 < 9)%nat ∧ (ij.2 < 9)%nat.
Proof using shuffle_perm.
  rewrite shuffle_perm. destruct ij as [i j]. apply elem_of_all_cells.
Qed.

(** What [generate_puzzle] returns. *)
Lemma generate_puzzle_spec difficulty g :
  ∃ puzzle solution g',
    generate_puzzle shuffle difficulty g = Ok (puzzle, solution, g') ∧
    wf puzzle ∧ valid_grid solution ∧ extends puzzle solution ∧
    (∀ s, fills puzzle s → s = solution) ∧
    Z.min 81 (default 32 (difficulty_levels !! difficulty))
    ≤ Z.of_nat (clue_count puzzle).
Proof using shuffle_perm.
  unfold generate_puzzle, alloc, call, deepcopy, alloc.
  set (bd := fresh (dom (∅ : heap))).
  rewrite (load_lookup _ bd empty_board) by apply lookup_insert_eq.
  destruct (seed_boxes_spec g) as (g1 & b & s & -> & Hwf & Hs & Hext).
  ok_step.
  rewrite (load_lookup _ bd b) by apply lookup_insert_eq.
  destruct (solve_below_valid b s Hwf Hs Hext) as (sol & -> & Hsol & _).
  ok_step.
  set (h2 := <[bd := sol]> _).
  assert (h2 !! bd = Some sol) as Hbd by apply lookup_insert_eq.
  rewrite (load_lookup h2 bd sol Hbd).
  set (sl := fresh (dom h2)).
  assert (bd ≠ sl) as Hne by (apply fresh_not_lookup; by exists sol).
  destruct (shuffle (nat * nat) all_cells g1) as [cells g2] eqn:Hsh.
  pose proof (shuffle_cells g1) as Hcells. rewrite Hsh in Hcells.
  cbn [fst] in Hcells.
  destruct Hsol as (Hwfs & Hdig & Hpeers).
  assert (full sol) as Hfull.
  { intros i j Hi Hj. specialize (Hdig i j Hi Hj). lia. }
  destruct (dig_spec cells 0
              (81 - default 32 (difficulty_levels !! difficulty))
              bd sl (<[sl := sol]> h2) sol sol)
    as (h' & b' & -> & Hbd' & Hsl' & Hwf' & Hext' & Huniq & Hcount);
    [done|by rewrite lookup_insert_ne|apply lookup_insert_eq|done|done|done| | | |].
  { by intros i j Hi Hj _. }
  { intros s' Hs'.
    destruct (fills_listable sol Hwfs) as (L & HndL & HL).
    rewrite (fills_of_full sol L Hwfs Hfull HndL HL) in HL.
    by apply HL, list_elem_of_singleton in Hs'. }
  { rewrite clue_count_full by done. lia. }
  ok_step.
  exists b', sol, g2.
  rewrite (load_lookup h' bd b' Hbd'), (load_lookup h' sl sol Hsl').
  split; [done|]. repeat (split; [done|]). lia.
Qed.
End GeneratorProofs.

(** * The properties of the specification *)

(** ** Helpers *)

Lemma not_free_peer b row col num :
  ¬ free b row col num ↔
  ∃ i j, (i < 9)%nat ∧ (j < 9)%nat ∧ peer row col i j ∧ at_ b i j = num.
Proof.
  split.
  - intros Hnf.
    destruct (decide (Exists (λ ij : nat * nat,
                peer row col ij.1 ij.2 ∧ at_ b ij.1 ij.2 = num) all_cells))
      as [Hex|Hnex].
    + apply Exists_exists in Hex as ([i j] & Hin & Hp & Hv).
      apply elem_of_all_cells in Hin as [Hi Hj]. by exists i, j.
    + destruct Hnf. intros i j Hi Hj Hp Hv. apply Hnex, Exists_exists.
      exists (i, j). split; [by apply elem_of_all_cells|done].
  - intros (i & j & Hi & Hj & Hp & Hv) Hfree. by apply (Hfree i j).
Qed.

Lemma peer_cases row col i j :
  peer row col i j ↔
  (i = row ∧ j ≠ col) ∨ (i ≠ row ∧ j = col) ∨
  ((i / 3)%nat = (row / 3)%nat ∧ (j / 3)%nat = (col / 3)%nat ∧
   (i ≠ row ∨ j ≠ col)).
Proof.
  unfold peer. split.
  - intros [Hne [->|[->|[Hb Hs]]]].
    + left. split; [done|]. destruct Hne; [done|]. by intros ->.
    + right. left. split; [|done]. destruct Hne; [|done]. by intros ->.
    + right. right. split; [done|]. split; [done|].
      destruct Hne; [left|right]; by intros ->.
  - intros [[-> Hj]|[[Hi ->]|(Hb & Hs & Hne)]].
    + split; [right|left]; [by intros ->|done].
    + split; [left|right; left]; [by intros ->|done].
    + split; [|by right; right].
      destruct Hne; [left|right]; by intros ->.
Qed.

Lemma ones_board_at i j : (i < 9)%nat → (j < 9)%nat → at_ ones_board i j = 1.
Proof.
  intros Hi Hj. unfold at_, ones_board.
  rewrite lookup_replicate_2 by done. cbn [mbind option_bind].
  by rewrite lookup_replicate_2.
Qed.

Lemma ones_board_wf : wf ones_board.
Proof.
  unfold wf, ones_board. rewrite length_replicate. split; [done|].
  apply Forall_replicate. by rewrite length_replicate.
Qed.

Lemma ones_board_no_completion s : ¬ completion ones_board s.
Proof.
  intros [Hsolved Hext]. apply solved_valid_grid in Hsolved.
  destruct Hsolved as (_ & _ & Hpeers).
  apply (Hpeers 0 0 0 1)%nat; [lia..| |].
  - split; [by right|by left].
  - rewrite !Hext; rewrite ?ones_board_at; (done || lia).
Qed.

Lemma concrete_wf (b : board) :
  bool_decide (length b = 9%nat ∧
               Forall (λ row : list Z, length row = 9%nat) b) = true → wf b.
Proof. intros H. by apply bool_decide_eq_true_1 in H. Qed.

Lemma concrete_in_range (b : board) :
  bool_decide (Forall (Forall (λ v : Z, 0 ≤ v ≤ 9)) b) = true → in_range b.
Proof. intros H. by apply bool_decide_eq_true_1 in H. Qed.

Lemma is_valid_puzzle_conflict_free b :
  wf b → is_valid_puzzle b = Ok (true, b) → conflict_free b.
Proof.
  intros Hwf Hrun. destruct (is_valid_puzzle_spec b Hwf) as (r & Hr & Hiff).
  rewrite Hrun in Hr. apply Hiff. congruence.
Qed.

Lemma conflict_free_is_valid_puzzle b :
  wf b → conflict_free b → is_valid_puzzle b = Ok (true, b).
Proof.
  intros Hwf Hcf. destruct (is_valid_puzzle_spec b Hwf) as (r & Hr & Hiff).
  apply Hiff in Hcf. by rewrite Hr, Hcf.
Qed.

Lemma completions_listable b :
  wf b → in_range b → conflict_free b →
  ∃ L, NoDup L ∧ ∀ s, s ∈ L ↔ completion b s.
Proof.
  intros Hwf Hrng Hcf. destruct (fills_listable b Hwf) as (L & Hnd & HL).
  exists L. split; [done|]. intros s.
  by rewrite HL, (fills_completion b s Hwf Hrng Hcf).
Qed.

(** ** [is_valid_move] *)

(** C5: on a 9x9 grid, for a row and a column in 0..8 (and any value, so
    in particular 1..9), [is_valid_move] returns [False] exactly when the
    value occurs in the row at another column, or in the column at another
    row, or in the 3x3 box of the cell at another cell.  The function only
    reads the board: it returns a boolean and no new board content. *)
Theorem is_valid_move_false_iff b row col num :
  wf b → (row < 9)%nat → (col < 9)%nat →
  ∃ r, is_valid_move b row col num = Ok r ∧
    (r = false ↔
       (∃ j, (j < 9)%nat ∧ j ≠ col ∧ at_ b row j = num) ∨
       (∃ i, (i < 9)%nat ∧ i ≠ row ∧ at_ b i col = num) ∨
       (∃ i j, (i < 9)%nat ∧ (j < 9)%nat ∧
          (i / 3)%nat = (row / 3)%nat ∧ (j / 3)%nat = (col / 3)%nat ∧
          (i ≠ row ∨ j ≠ col) ∧ at_ b i j = num)).
Proof.
  intros Hwf Hrow Hcol.
  destruct (is_valid_move_spec b row col num Hwf Hrow Hcol) as (r & Hr & Hiff).
  exists r. split; [done|].
  assert (r = false ↔ ¬ free b row col num) as ->.
  { rewrite <- Hiff. destruct r; split; congruence. }
  rewrite not_free_peer. split.
  - intros (i & j & Hi & Hj & Hp & Hv).
    apply peer_cases in Hp as [[-> Hne]|[[Hne ->]|(Hb & Hs & Hne)]].
    + left. by exists j.
    + right. left. by exists i.
    + right. right. by exists i, j.
  - intros [(j & Hj & Hne & Hv)|[(i & Hi & Hne & Hv)|
             (i & j & Hi & Hj & Hb & Hs & Hne & Hv)]].
    + exists row, j. repeat (split; [done|]). split; [|done].
      apply peer_cases. left. done.
    + exists i, col. repeat (split; [done|]). split; [|done].
      apply peer_cases. right. left. done.
    + exists i, j. repeat (split; [done|]). split; [|done].
      apply peer_cases. right. right. done.
Qed.

Lemma is_valid_move_false_iff_witness :
  ∃ r, is_valid_move stuck_board 0 8 9 = Ok r ∧
    (r = false ↔
       (∃ j, (j < 9)%nat ∧ j ≠ 8%nat ∧ at_ stuck_board 0 j = 9) ∨
       (∃ i, (i < 9)%nat ∧ i ≠ 0%nat ∧ at_ stuck_board i 8 = 9) ∨
       (∃ i j, (i < 9)%nat ∧ (j < 9)%nat ∧
          (i / 3)%nat = (0 / 3)%nat ∧ (j / 3)%nat = (8 / 3)%nat ∧
          (i ≠ 0%nat ∨ j ≠ 8%nat) ∧ at_ stuck_board i j = 9)).
Proof.
  apply (is_valid_move_false_iff stuck_board 0 8 9).
  - apply concrete_wf. vm_compute. reflexivity.
  - lia.
  - lia.
Defined.

(** ** [solve] *)

(** C3, as the specification states it, fails: on the full grid of ones
    [solve] returns [True] and leaves the grid as it is, but
    [is_valid_puzzle] rejects that grid and its first row is no
    permutation of 1..9. *)
Lemma solve_true_ones_counterexample :
  wf ones_board ∧ in_range ones_board ∧
  solve ones_board = Ok (true, ones_board) ∧
  (∃ b', is_valid_puzzle ones_board = Ok (false, b')) ∧
  ¬ row_of ones_board 0 ≡ₚ digits.
Proof.
  split; [apply ones_board_wf|].
  split; [apply concrete_in_range; vm_compute; reflexivity|].
  split; [vm_compute; reflexivity|].
  split; [eexists; vm_compute; reflexivity|].
  intros Hperm.
  assert (2 ∈ row_of ones_board 0) as Hin.
  { rewrite Hperm. apply elem_of_digits. lia. }
  unfold row_of in Hin. apply list_elem_of_fmap in Hin as (j & Hj & Hin).
  apply elem_of_range9 in Hin. rewrite ones_board_at in Hj by (done || lia).
  discriminate Hj.
Qed.

(** C3, amended: on a 9x9 grid with values in 0..9 that passes
    [is_valid_puzzle], when [solve] returns [True] the resulting grid has
    all 81 cells non-zero, passes [is_valid_puzzle], has every row, column
    and box a permutation of 1..9, and keeps the givens. *)
Theorem solve_true_solved b s :
  wf b → in_range b → is_valid_puzzle b = Ok (true, b) →
  solve b = Ok (true, s) →
  full s ∧ clue_count s = 81%nat ∧
  is_valid_puzzle s = Ok (true, s) ∧
  (∀ k, (k < 9)%nat →
     row_of s k ≡ₚ digits ∧ col_of s k ≡ₚ digits ∧ box_of s k ≡ₚ digits) ∧
  extends b s.
Proof.
  intros Hwf Hrng Hvalid Hrun.
  pose proof (is_valid_puzzle_conflict_free b Hwf Hvalid) as Hcf.
  destruct (solve_spec b Hwf) as (res & Hres & Htrue & _).
  rewrite Hrun in Hres. injection Hres as <-. cbn [fst snd] in Htrue.
  specialize (Htrue eq_refl).
  pose proof (fills_full b s Htrue) as Hfull.
  apply (fills_completion b s Hwf Hrng Hcf) in Htrue.
  destruct Htrue as [Hsolved Hext].
  pose proof (solved_valid_grid s Hsolved) as Hgrid.
  split; [done|]. split; [by apply clue_count_full|].
  split; [|split; [apply Hsolved|done]].
  apply conflict_free_is_valid_puzzle; [apply Hsolved|].
  by apply valid_grid_conflict_free.
Qed.

Lemma solve_true_solved_witness :
  full sample_solution ∧ clue_count sample_solution = 81%nat ∧
  is_valid_puzzle sample_solution = Ok (true, sample_solution) ∧
  (∀ k, (k < 9)%nat →
     row_of sample_solution k ≡ₚ digits ∧ col_of sample_solution k ≡ₚ digits ∧
     box_of sample_solution k ≡ₚ digits) ∧
  extends sample_puzzle sample_solution.
Proof.
  apply (solve_true_solved sample_puzzle sample_solution).
  - apply concrete_wf. vm_compute. reflexivity.
  - apply concrete_in_range. vm_compute. reflexivity.
  - vm_compute. reflexivity.
  - vm_compute. reflexivity.
Defined.

(** C4: [solve] always returns, and when it returns [False] the grid is
    cell for cell what it was before the call. *)
Theorem solve_false_restores b :
  wf b →
  (∃ r b', solve b = Ok (r, b')) ∧
  ∀ b', solve b = Ok (false, b') →
    b' = b ∧ ∀ i j, at_ b' i j = at_ b i j.
Proof.
  intros Hwf. destruct (solve_spec b Hwf) as ([r b1] & Hres & _ & Hfalse).
  split; [by exists r, b1|].
  intros b' Hrun. rewrite Hrun in Hres. injection Hres as <- <-.
  destruct (Hfalse eq_refl) as [Heq _]. cbn [snd] in Heq. by subst.
Qed.

Lemma solve_false_restores_witness :
  find_empty backtrack_board = Ok (Some (0, 0)%nat) ∧
  is_valid_move backtrack_board 0 0 1 = Ok true ∧
  is_valid_move backtrack_board 0 0 2 = Ok true ∧
  solve backtrack_board = Ok (false, backtrack_board) ∧
  (∃ r b', solve backtrack_board = Ok (r, b')) ∧
  ∀ b', solve backtrack_board = Ok (false, b') →
    b' = backtrack_board ∧ ∀ i j, at_ b' i j = at_ backtrack_board i j.
Proof.
  split; [vm_compute; reflexivity|].
  split; [vm_compute; reflexivity|].
  split; [vm_compute; reflexivity|].
  split; [vm_compute; reflexivity|].
  apply (solve_false_restores backtrack_board).
  apply concrete_wf. vm_compute. reflexivity.
Defined.

(** C9: on every 9x9 grid [solve] and [count_solutions] return.  Every
    recursive call is made on the board with one more cell filled, so the
    number of empty cells, at most 81, strictly decreases; the searches
    give their result at any recursion depth above that number. *)
Theorem solve_count_terminate b limit :
  wf b →
  (empties b ≤ 81)%nat ∧
  (∀ row col num, find_empty b = Ok (Some (row, col)) → num ∈ digits →
     (empties (upd b row col num) < empties b)%nat) ∧
  (∃ res, ∀ fuel, (empties b < fuel)%nat → solve_rec fuel b = Ok res) ∧
  (∃ res, ∀ fuel, (empties b < fuel)%nat →
     _find_all_solutions fuel limit b [] = Ok res) ∧
  (∃ res, solve b = Ok res) ∧
  (∀ (h : heap) l, h !! l = Some b →
     ∃ res, count_solutions l limit h = Ok res).
Proof.
  intros Hwf. split; [apply empties_le|]. split; [|split; [|split; [|split]]].
  - intros row col num Hfind Hnum.
    destruct (find_empty_Some b row col Hwf Hfind) as (Hrow & Hcol & Hz).
    rewrite (empties_upd b row col num) by (done || by apply digits_nonzero).
    lia.
  - destruct (solve_rec_spec (S (empties b)) b Hwf) as (res & Hres & _); [lia|].
    exists res. intros fuel Hfuel.
    apply (solve_rec_mono (S (empties b))); [lia|done].
  - destruct (fills_listable b Hwf) as (L & Hnd & HL).
    destruct (find_all_spec (S (empties b)) limit b [] L Hwf)
      as (new & Hres & _); [lia|done..|].
    eexists. intros fuel Hfuel.
    apply (find_all_mono (S (empties b))); [lia|exact Hres].
  - destruct (solve_spec b Hwf) as (res & Hres & _). by exists res.
  - intros h l Hl. destruct (fills_listable b Hwf) as (L & Hnd & HL).
    destruct (count_solutions_spec l limit h b L Hl Hwf Hnd HL)
      as (h' & Hres & _).
    by eexists.
Qed.

Lemma solve_count_terminate_witness :
  (empties sample_puzzle ≤ 81)%nat ∧
  (∀ row col num, find_empty sample_puzzle = Ok (Some (row, col)) →
     num ∈ digits →
     (empties (upd sample_puzzle row col num) < empties sample_puzzle)%nat) ∧
  (∃ res, ∀ fuel, (empties sample_puzzle < fuel)%nat →
     solve_rec fuel sample_puzzle = Ok res) ∧
  (∃ res, ∀ fuel, (empties sample_puzzle < fuel)%nat →
     _find_all_solutions fuel 2 sample_puzzle [] = Ok res) ∧
  (∃ res, solve sample_puzzle = Ok res) ∧
  (∀ (h : heap) l, h !! l = Some sample_puzzle →
     ∃ res, count_solutions l 2 h = Ok res).
Proof.
  apply (solve_count_terminate sample_puzzle 2).
  apply concrete_wf. vm_compute. reflexivity.
Defined.

(** ** [count_solutions] *)

(** C8: after [count_solutions] the caller's board holds what it held
    before the call, and so does every other board that existed: the
    search writes to a fresh copy only. *)
Theorem count_solutions_frame (h : heap) l b limit :
  h !! l = Some b → wf b →
  ∃ n h', count_solutions l limit h = Ok (n, h') ∧
    h' !! l = Some b ∧
    (∀ i j, at_ (load h' l) i j = at_ (load h l) i j) ∧
    ∀ l', is_Some (h !! l') → h' !! l' = h !! l'.
Proof.
  intros Hl Hwf. destruct (fills_listable b Hwf) as (L & Hnd & HL).
  destruct (count_solutions_spec l limit h b L Hl Hwf Hnd HL)
    as (h' & Hres & Hframe).
  assert (h' !! l = Some b) as Hl'.
  { rewrite Hframe; [done|by exists b]. }
  eexists _, h'. split; [exact Hres|]. split; [done|]. split; [|done].
  intros i j. by rewrite (load_lookup h l b Hl), (load_lookup h' l b Hl').
Qed.

Lemma count_solutions_frame_witness :
  ∃ n h', count_solutions 1%positive 2 {[ 1%positive := sample_puzzle ]}
          = Ok (n, h') ∧
    h' !! 1%positive = Some sample_puzzle ∧
    (∀ i j, at_ (load h' 1%positive) i j
            = at_ (load {[ 1%positive := sample_puzzle ]} 1%positive) i j) ∧
    ∀ l', is_Some (({[ 1%positive := sample_puzzle ]} : heap) !! l') →
          h' !! l' = ({[ 1%positive := sample_puzzle ]} : heap) !! l'.
Proof.
  apply (count_solutions_frame {[ 1%positive := sample_puzzle ]} 1%positive
           sample_puzzle 2).
  - reflexivity.
  - apply concrete_wf. vm_compute. reflexivity.
Defined.

(** C2, as the specification states it, fails: the full grid of ones has
    values in 0..9 and no completion at all, yet [count_solutions] with
    limit 2 returns 1 on it. *)
Lemma count_solutions_ones_counterexample :
  wf ones_board ∧ in_range ones_board ∧
  (∀ s, ¬ completion ones_board s) ∧
  ∃ h', count_solutions 1%positive 2 {[ 1%positive := ones_board ]}
        = Ok (1, h').
Proof.
  split; [apply ones_board_wf|].
  split; [apply concrete_in_range; vm_compute; reflexivity|].
  split; [apply ones_board_no_completion|].
  destruct (count_solutions_spec 1%positive 2 {[ 1%positive := ones_board ]}
              ones_board [ones_board]) as (h' & Hres & _).
  - reflexivity.
  - apply ones_board_wf.
  - apply NoDup_singleton.
  - intros s. rewrite list_elem_of_singleton.
    assert (full ones_board) as Hfull.
    { intros i j Hi Hj. by rewrite ones_board_at. }
    split; [intros ->; by apply fills_refl; [apply ones_board_wf|]|].
    intros Hs. destruct (fills_listable ones_board ones_board_wf)
      as (L & Hnd & HL).
    rewrite (fills_of_full ones_board L ones_board_wf Hfull Hnd HL) in HL.
    by apply HL, list_elem_of_singleton in Hs.
  - exists h'. exact Hres.
Qed.

(** C2, amended: on a 9x9 grid with values in 0..9 that passes
    [is_valid_puzzle], and for a limit of at least 1,
    [count_solutions] returns the smaller of the limit and the number of
    completions of the grid.  So the result lies in 0..limit, it is 0
    exactly when there is no completion, and with a limit of at least 2
    it is 1 exactly when there is one completion and no other. *)
Theorem count_solutions_min (h : heap) l b limit :
  h !! l = Some b → wf b → in_range b →
  is_valid_puzzle b = Ok (true, b) → 1 ≤ limit →
  ∃ (L : list board) n h',
    NoDup L ∧ (∀ s, s ∈ L ↔ completion b s) ∧
    count_solutions l limit h = Ok (n, h') ∧
    n = Z.min limit (Z.of_nat (length L)) ∧
    0 ≤ n ≤ limit ∧
    (n = 0 ↔ ∀ s, ¬ completion b s) ∧
    (2 ≤ limit →
     (n = 1 ↔ ∃ s, completion b s ∧ ∀ s', completion b s' → s' = s)).
Proof.
  intros Hl Hwf Hrng Hvalid Hlimit.
  pose proof (is_valid_puzzle_conflict_free b Hwf Hvalid) as Hcf.
  destruct (completions_listable b Hwf Hrng Hcf) as (L & Hnd & HL).
  assert (∀ s, s ∈ L ↔ fills b s) as HL'.
  { intros s. by rewrite HL, (fills_completion b s Hwf Hrng Hcf). }
  destruct (count_solutions_spec l limit h b L Hl Hwf Hnd HL')
    as (h' & Hres & _).
  exists L, (Z.of_nat (Nat.min (length L) (Z.to_nat limit))), h'.
  split; [done|]. split; [done|]. split; [done|].
  split; [lia|]. split; [lia|]. split; [split|].
  - intros Hn s Hs. apply HL in Hs.
    destruct L; [by apply elem_of_nil in Hs|cbn [length] in Hn; lia].
  - intros Hnone. destruct L as [|s L]; [done|].
    destruct (Hnone s). apply HL, elem_of_cons. by left.
  - intros Hlimit2. split.
    + intros Hn. destruct L as [|s [|s' L]]; cbn [length] in Hn; [lia| |lia].
      exists s. split; [apply HL, list_elem_of_singleton; done|].
      intros s' Hs'. by apply HL, list_elem_of_singleton in Hs'.
    + intros (s & Hs & Huniq).
      destruct L as [|s1 [|s2 L]]; cbn [length].
      * apply HL in Hs. by apply elem_of_nil in Hs.
      * lia.
      * apply NoDup_cons in Hnd as [Hnotin _]. destruct Hnotin.
        assert (s1 = s) as -> by (apply Huniq, HL, elem_of_cons; by left).
        assert (s2 = s) as ->.
        { apply Huniq, HL, elem_of_cons. right. apply elem_of_cons. by left. }
        apply elem_of_cons. by left.
Qed.

Lemma count_solutions_min_witness :
  ∃ (L : list board) n h',
    NoDup L ∧ (∀ s, s ∈ L ↔ completion sample_puzzle s) ∧
    count_solutions 1%positive 2 {[ 1%positive := sample_puzzle ]}
    = Ok (n, h') ∧
    n = Z.min 2 (Z.of_nat (length L)) ∧
    0 ≤ n ≤ 2 ∧
    (n = 0 ↔ ∀ s, ¬ completion sample_puzzle s) ∧
    (2 ≤ 2 →
     (n = 1 ↔ ∃ s, completion sample_puzzle s ∧
                   ∀ s', completion sample_puzzle s' → s' = s)).
Proof.
  apply (count_solutions_min {[ 1%positive := sample_puzzle ]} 1%positive
           sample_puzzle 2).
  - reflexivity.
  - apply concrete_wf. vm_compute. reflexivity.
  - apply concrete_in_range. vm_compute. reflexivity.
  - vm_compute. reflexivity.
  - lia.
Defined.

(** ** [generate_puzzle] *)

(** C7: whatever three permutations of 1..9 fill the diagonal boxes of the
    empty grid, the seeded grid passes [is_valid_puzzle], and [solve]
    returns [True] on it and leaves a full grid in which every row, column
    and box is a permutation of 1..9 and which keeps the seeded cells. *)
Theorem diagonal_seeding_solves p0 p4 p8 :
  p0 ≡ₚ digits → p4 ≡ₚ digits → p8 ≡ₚ digits →
  ∃ b s, seed_with p0 p4 p8 = Ok b ∧
    is_valid_puzzle b = Ok (true, b) ∧
    solve b = Ok (true, s) ∧
    full s ∧ solved s ∧ extends b s.
Proof.
  intros H0 H4 H8.
  destruct (seed_with_spec p0 p4 p8) as (b & Hseed & Hb);
    [by apply perm_digits_length..|].
  pose proof (proj1 Hb) as Hwf.
  destruct (seeded_completable p0 p4 p8 b H0 H4 H8 Hb) as (s0 & Hs0 & Hext0).
  destruct (below_valid b s0 Hwf Hs0 Hext0) as [_ Hcf].
  destruct (solve_below_valid b s0 Hwf Hs0 Hext0) as (s & Hrun & Hs & Hext).
  exists b, s. split; [done|].
  split; [by apply conflict_free_is_valid_puzzle|].
  split; [done|]. split; [by apply valid_grid_full|].
  split; [by apply valid_grid_solved|done].
Qed.

Lemma diagonal_seeding_solves_witness :
  ∃ b s, seed_with digits digits digits = Ok b ∧
    is_valid_puzzle b = Ok (true, b) ∧
    solve b = Ok (true, s) ∧
    full s ∧ solved s ∧ extends b s.
Proof.
  apply (diagonal_seeding_solves digits digits digits); reflexivity.
Defined.

(** C1: [generate_puzzle] returns a puzzle and a solution, for every
    difficulty input; [count_solutions] with limit 2 returns 1 on the
    puzzle, and the solution is the one completion of the puzzle. *)
Theorem generated_puzzle_unique {rng : Type}
    (shuffle : ∀ A : Type, list A → rng → list A * rng) difficulty g :
  (∀ A (l : list A) g, (shuffle A l g).1 ≡ₚ l) →
  ∃ puzzle solution g',
    generate_puzzle shuffle difficulty g = Ok (puzzle, solution, g') ∧
    (∀ (h : heap) l, h !! l = Some puzzle →
       ∃ h', count_solutions l 2 h = Ok (1, h')) ∧
    completion puzzle solution ∧
    (∀ s, completion puzzle s → s = solution).
Proof.
  intros Hperm.
  destruct (generate_puzzle_spec shuffle Hperm difficulty g)
    as (puzzle & solution & g' & Hrun & Hwf & Hsol & Hext & Huniq & _).
  exists puzzle, solution, g'. split; [done|].
  destruct (below_valid puzzle solution Hwf Hsol Hext) as [Hrng Hcf].
  pose proof (below_valid_fills puzzle solution Hwf Hsol Hext) as Hfills.
  split; [|split].
  - intros h l Hl.
    destruct (count_solutions_spec l 2 h puzzle [solution] Hl Hwf)
      as (h' & Hres & _); [apply NoDup_singleton| |by exists h'].
    intros s. rewrite list_elem_of_singleton. split; [by intros ->|].
    apply Huniq.
  - by apply (fills_completion puzzle solution Hwf Hrng Hcf).
  - intros s Hs. by apply Huniq, (fills_completion puzzle s Hwf Hrng Hcf).
Qed.

Lemma generated_puzzle_unique_witness :
  ∃ puzzle solution g',
    generate_puzzle no_shuffle "hard" () = Ok (puzzle, solution, g') ∧
    (∀ (h : heap) l, h !! l = Some puzzle →
       ∃ h', count_solutions l 2 h = Ok (1, h')) ∧
    completion puzzle solution ∧
    (∀ s, completion puzzle s → s = solution).
Proof.
  apply (generated_puzzle_unique no_shuffle "hard" ()).
  intros A l g. reflexivity.
Defined.

(** C6: the table of clue targets is easy 40, medium 32, hard 26 and
    expert 22; the puzzle returned by [generate_puzzle] has at least as
    many non-zero cells as the target of its difficulty, that is, of the
    81 cells of the solution at most 81 minus the target were removed. *)
Theorem generated_puzzle_clues {rng : Type}
    (shuffle : ∀ A : Type, list A → rng → list A * rng) difficulty g :
  (∀ A (l : list A) g, (shuffle A l g).1 ≡ₚ l) →
  map_to_list difficulty_levels
    ≡ₚ [("easy", 40); ("medium", 32); ("hard", 26); ("expert", 22)] ∧
  ∃ puzzle solution g',
    generate_puzzle shuffle difficulty g = Ok (puzzle, solution, g') ∧
    clue_count solution = 81%nat ∧
    default 32 (difficulty_levels !! difficulty)
    ≤ Z.of_nat (clue_count puzzle) ∧
    Z.of_nat (clue_count solution - clue_count puzzle)
    ≤ 81 - default 32 (difficulty_levels !! difficulty).
Proof.
  intros Hperm.
  assert (map_to_list difficulty_levels
          ≡ₚ [("easy", 40); ("medium", 32); ("hard", 26); ("expert", 22)])
    as Htable.
  { apply (bool_decide_unpack _). vm_compute. reflexivity. }
  split; [done|].
  destruct (generate_puzzle_spec shuffle Hperm difficulty g)
    as (puzzle & solution & g' & Hrun & Hwf & Hsol & Hext & _ & Hcount).
  exists puzzle, solution, g'. split; [done|].
  assert (clue_count solution = 81%nat) as H81.
  { by apply clue_count_full, valid_grid_full. }
  split; [done|].
  assert (default 32 (difficulty_levels !! difficulty) ≤ 81) as Hle.
  { destruct (difficulty_levels !! difficulty) as [t|] eqn:Ht;
      cbn [default from_option id]; [|lia].
    apply elem_of_map_to_list in Ht. rewrite Htable in Ht.
    rewrite !elem_of_cons, elem_of_nil, !pair_equal_spec in Ht.
    destruct Ht as [[_ ->]|[[_ ->]|[[_ ->]|[[_ ->]|[]]]]]; lia. }
  lia.
Qed.

Lemma generated_puzzle_clues_witness :
  map_to_list difficulty_levels
    ≡ₚ [("easy", 40); ("medium", 32); ("hard", 26); ("expert", 22)] ∧
  ∃ puzzle solution g',
    generate_puzzle no_shuffle "expert" () = Ok (puzzle, solution, g') ∧
    clue_count solution = 81%nat ∧
    default 32 (difficulty_levels !! "expert")
    ≤ Z.of_nat (clue_count puzzle) ∧
    Z.of_nat (clue_count solution - clue_count puzzle)
    ≤ 81 - default 32 (difficulty_levels !! "expert").
Proof.
  apply (generated_puzzle_clues no_shuffle "expert" ()).
  intros A l g. reflexivity.
Defined.

(** C10: for a difficulty that is none of easy, medium, hard and expert,
    [generate_puzzle] returns a puzzle and a solution, and they are the
    ones that the difficulty medium gives from the same state of the
    random generator: the clue target falls back to 32. *)
Theorem unknown_difficulty_is_medium {rng : Type}
    (shuffle : ∀ A : Type, list A → rng → list A * rng) difficulty g :
  (∀ A (l : list A) g, (shuffle A l g).1 ≡ₚ l) →
  difficulty ∉ ["easy"; "medium"; "hard"; "expert"] →
  default 32 (difficulty_levels !! difficulty) = 32 ∧
  difficulty_levels !! "medium" = Some 32 ∧
  generate_puzzle shuffle difficulty g = generate_puzzle shuffle "medium" g ∧
  ∃ res, generate_puzzle shuffle difficulty g = Ok res.
Proof.
  intros Hperm Hnot.
  assert (difficulty_levels !! difficulty = None) as Hnone.
  { unfold difficulty_levels.
    rewrite !not_elem_of_cons in Hnot. destruct_and?.
    rewrite !lookup_insert_ne by done. by apply lookup_singleton_ne. }
  assert (difficulty_levels !! "medium" = Some 32) as Hmed by reflexivity.
  split; [by rewrite Hnone|]. split; [done|]. split.
  - unfold generate_puzzle. by rewrite Hnone, Hmed.
  - destruct (generate_puzzle_spec shuffle Hperm difficulty g)
      as (puzzle & solution & g' & Hrun & _).
    by eexists.
Qed.

Lemma unknown_difficulty_is_medium_witness :
  default 32 (difficulty_levels !! "insane") = 32 ∧
  difficulty_levels !! "medium" = Some 32 ∧
  generate_puzzle no_shuffle "insane" ()
  = generate_puzzle no_shuffle "medium" () ∧
  ∃ res, generate_puzzle no_shuffle "insane" () = Ok res.
Proof.
  apply (unknown_difficulty_is_medium no_shuffle "insane" ()).
  - intros A l g. reflexivity.
  - apply (bool_decide_unpack _). vm_compute. reflexivity.
Defined.

(** * Further properties of the solver *)

(** ** [find_empty] *)

Lemma all_cells_lookup k :
  (k < 81)%nat → all_cells !! k = Some ((k / 9)%nat, (k mod 9)%nat).
Proof.
  intros Hk.
  assert (Forall (λ k, all_cells !! k = Some ((k / 9)%nat, (k mod 9)%nat))
            (seq 0 81)) as Hall.
  { apply (bool_decide_unpack _). vm_compute. reflexivity. }
  rewrite Forall_forall in Hall. apply Hall, elem_of_seq. lia.
Qed.

Lemma all_cells_lookup_Some k i j :
  all_cells !! k = Some (i, j) ↔ k = (9 * i + j)%nat ∧ (i < 9)%nat ∧ (j < 9)%nat.
Proof.
  split.
  - intros Hk.
    assert (k < 81)%nat as Hlt.
    { rewrite <- length_all_cells. apply lookup_lt_is_Some. by eexists. }
    rewrite all_cells_lookup in Hk by done.
    apply (inj Some), pair_equal_spec in Hk as [<- <-]. lia.
  - intros (-> & Hi & Hj). rewrite all_cells_lookup by lia.
    f_equal. f_equal; lia.
Qed.

Lemma find_empty_Some_iff b i j :
  wf b →
  find_empty b = Ok (Some (i, j)) ↔
    (i < 9)%nat ∧ (j < 9)%nat ∧ at_ b i j = 0 ∧
    ∀ i' j', (i' < 9)%nat → (j' < 9)%nat → before i' j' i j → at_ b i' j' ≠ 0.
Proof.
  intros Hwf. rewrite find_empty_wf by done. unfold before. split.
  - intros [= Hsome].
    apply fmap_Some in Hsome as ([k [i0 j0]] & Hfind & Heq).
    cbn [snd] in Heq. injection Heq as -> ->.
    apply list_find_Some in Hfind as (Hk & Hz & Hfirst).
    apply all_cells_lookup_Some in Hk as (-> & Hi & Hj).
    cbn [fst snd] in Hz. repeat (split; [done|]).
    intros i' j' Hi' Hj' Hlt.
    apply (Hfirst (9 * i' + j')%nat (i', j')); [|lia].
    by apply all_cells_lookup_Some.
  - intros (Hi & Hj & Hz & Hfirst).
    assert (list_find (λ ij : nat * nat, at_ b ij.1 ij.2 = 0) all_cells
            = Some ((9 * i + j)%nat, (i, j))) as ->; [|done].
    apply list_find_Some. split; [by apply all_cells_lookup_Some|].
    split; [done|]. intros k [i' j'] Hk Hlt.
    apply all_cells_lookup_Some in Hk as (-> & Hi' & Hj').
    cbn [fst snd]. apply Hfirst; [done..|lia].
Qed.

(** X1: on a 9x9 grid [find_empty] returns [None] exactly when no cell
    holds 0, and otherwise the first cell that holds 0 in row-major
    order. *)
Theorem find_empty_first b :
  wf b →
  (find_empty b = Ok None ↔ full b) ∧
  ∀ i j, find_empty b = Ok (Some (i, j)) ↔
    (i < 9)%nat ∧ (j < 9)%nat ∧ at_ b i j = 0 ∧
    ∀ i' j', (i' < 9)%nat → (j' < 9)%nat →
      (i' < i)%nat ∨ (i' = i ∧ (j' < j)%nat) → at_ b i' j' ≠ 0.
Proof.
  intros Hwf. split.
  - split; [by apply find_empty_None|by apply find_empty_full].
  - intros i j. by apply find_empty_Some_iff.
Qed.

Lemma find_empty_first_witness :
  (find_empty sample_puzzle = Ok None ↔ full sample_puzzle) ∧
  ∀ i j, find_empty sample_puzzle = Ok (Some (i, j)) ↔
    (i < 9)%nat ∧ (j < 9)%nat ∧ at_ sample_puzzle i j = 0 ∧
    ∀ i' j', (i' < 9)%nat → (j' < 9)%nat →
      (i' < i)%nat ∨ (i' = i ∧ (j' < j)%nat) → at_ sample_puzzle i' j' ≠ 0.
Proof.
  apply (find_empty_first sample_puzzle).
  apply concrete_wf. vm_compute. reflexivity.
Defined.

(** ** [is_valid_puzzle] *)

(** X2: on a 9x9 grid [is_valid_puzzle] returns [True] exactly when no
    non-zero value occurs twice in a row, a column or a box, and whatever
    it returns, every cell it blanked is written back: the grid is left as
    it was. *)
Theorem is_valid_puzzle_conflicts b :
  wf b →
  ∃ r, is_valid_puzzle b = Ok (r, b) ∧
    (r = true ↔
       ∀ i j i' j', (i < 9)%nat → (j < 9)%nat → (i' < 9)%nat → (j' < 9)%nat →
         peer i j i' j' → at_ b i j ≠ 0 → at_ b i j ≠ at_ b i' j').
Proof. intros Hwf. by apply is_valid_puzzle_spec. Qed.

Lemma is_valid_puzzle_conflicts_witness :
  ∃ r, is_valid_puzzle stuck_board = Ok (r, stuck_board) ∧
    (r = true ↔
       ∀ i j i' j', (i < 9)%nat → (j < 9)%nat → (i' < 9)%nat → (j' < 9)%nat →
         peer i j i' j' → at_ stuck_board i j ≠ 0 →
         at_ stuck_board i j ≠ at_ stuck_board i' j').
Proof.
  apply (is_valid_puzzle_conflicts stuck_board).
  apply concrete_wf. vm_compute. reflexivity.
Defined.

(** ** [solve] *)

(** X3: whatever the givens are, [solve] never changes a non-zero cell;
    when it returns [True] every cell that was empty holds a value in
    1..9 that none of its peers holds in the final grid. *)
Theorem solve_keeps_givens b r s :
  wf b → solve b = Ok (r, s) →
  wf s ∧
  (∀ i j, (i < 9)%nat → (j < 9)%nat → at_ b i j ≠ 0 → at_ s i j = at_ b i j) ∧
  (r = true →
   ∀ i j, (i < 9)%nat → (j < 9)%nat → at_ b i j = 0 →
     1 ≤ at_ s i j ≤ 9 ∧
     ∀ i' j', (i' < 9)%nat → (j' < 9)%nat → peer i j i' j' →
       at_ s i' j' ≠ at_ s i j).
Proof.
  intros Hwf Hrun.
  destruct (solve_spec b Hwf) as (res & Hres & Htrue & Hfalse).
  rewrite Hrun in Hres. injection Hres as <-. cbn [fst snd] in Htrue, Hfalse.
  destruct r.
  - destruct (Htrue eq_refl) as (Hwfs & Hext & Hnew).
    split; [done|]. split; [done|]. intros _ i j Hi Hj Hz.
    destruct (Hnew i j Hi Hj Hz) as [Hdig Hfree]. split; [done|].
    intros i' j' Hi' Hj' Hp. by apply Hfree.
  - destruct (Hfalse eq_refl) as [-> _]. split; [done|]. split; [done|].
    intros [=].
Qed.

Lemma solve_keeps_givens_witness :
  wf sample_solution ∧
  (∀ i j, (i < 9)%nat → (j < 9)%nat → at_ sample_puzzle i j ≠ 0 →
     at_ sample_solution i j = at_ sample_puzzle i j) ∧
  (true = true →
   ∀ i j, (i < 9)%nat → (j < 9)%nat → at_ sample_puzzle i j = 0 →
     1 ≤ at_ sample_solution i j ≤ 9 ∧
     ∀ i' j', (i' < 9)%nat → (j' < 9)%nat → peer i j i' j' →
       at_ sample_solution i' j' ≠ at_ sample_solution i j).
Proof.
  apply (solve_keeps_givens sample_puzzle true sample_solution).
  - apply concrete_wf. vm_compute. reflexivity.
  - vm_compute. reflexivity.
Defined.

(** X4: on a 9x9 grid with values in 0..9 that passes [is_valid_puzzle],
    [solve] returns [True] exactly when the grid has a completion. *)
Theorem solve_true_iff_completion b :
  wf b → in_range b → is_valid_puzzle b = Ok (true, b) →
  ∃ r s, solve b = Ok (r, s) ∧ (r = true ↔ ∃ c, completion b c).
Proof.
  intros Hwf Hrng Hvalid.
  pose proof (is_valid_puzzle_conflict_free b Hwf Hvalid) as Hcf.
  destruct (solve_spec b Hwf) as ([r s] & Hres & Htrue & Hfalse).
  cbn [fst snd] in Htrue, Hfalse. exists r, s. split; [done|].
  destruct r.
  - split; [|done]. intros _. exists s.
    by apply (fills_completion b s Hwf Hrng Hcf), Htrue.
  - split; [done|]. intros [c Hc]. destruct (Hfalse eq_refl) as [_ Hnone].
    destruct (Hnone c). by apply (fills_completion b c Hwf Hrng Hcf).
Qed.

Lemma solve_true_iff_completion_witness :
  ∃ r s, solve stuck_board = Ok (r, s) ∧
    (r = true ↔ ∃ c, completion stuck_board c).
Proof.
  apply (solve_true_iff_completion stuck_board).
  - apply concrete_wf. vm_compute. reflexivity.
  - apply concrete_in_range. vm_compute. reflexivity.
  - vm_compute. reflexivity.
Defined.

(** ** [count_solutions] and [_find_all_solutions] *)

(** X5: with a limit of 0 or less [count_solutions] returns 0 for every
    board, of any shape and content: the search returns before it reads a
    cell. *)
Theorem count_solutions_no_limit (h : heap) l b limit :
  h !! l = Some b → limit ≤ 0 →
  ∃ h', count_solutions l limit h = Ok (0, h') ∧ h' !! l = Some b.
Proof.
  intros Hl Hlimit. unfold count_solutions, deepcopy, alloc, call.
  rewrite (load_lookup h l b Hl).
  rewrite (load_lookup _ (fresh (dom h)) b) by apply lookup_insert_eq.
  unfold depth_bound. cbn [_find_all_solutions length].
  destruct (decide (Z.of_nat 0 >= limit)) as [_|Hn]; [|lia].
  ok_step. cbn [length]. eexists. split; [reflexivity|].
  assert (l ≠ fresh (dom h)) as Hne by (apply fresh_not_lookup; by exists b).
  by rewrite !lookup_insert_ne.
Qed.

Lemma count_solutions_no_limit_witness :
  ∃ h', count_solutions 1%positive 0 {[ 1%positive := [[7]] ]} = Ok (0, h') ∧
        h' !! 1%positive = Some [[7]].
Proof.
  apply (count_solutions_no_limit {[ 1%positive := [[7]] ]} 1%positive
           [[7]] 0).
  - reflexivity.
  - lia.
Defined.

(** X6: on every 9x9 grid, [solve] returns [True] exactly when
    [count_solutions] with a limit of at least 1 returns a non-zero
    count. *)
Theorem solve_iff_count_positive (h : heap) l b limit :
  h !! l = Some b → wf b → 1 ≤ limit →
  ∃ r s n h', solve b = Ok (r, s) ∧ count_solutions l limit h = Ok (n, h') ∧
    (r = true ↔ 1 ≤ n).
Proof.
  intros Hl Hwf Hlimit.
  destruct (solve_spec b Hwf) as ([r s] & Hres & Htrue & Hfalse).
  cbn [fst snd] in Htrue, Hfalse.
  destruct (fills_listable b Hwf) as (L & Hnd & HL).
  destruct (count_solutions_spec l limit h b L Hl Hwf Hnd HL)
    as (h' & Hcount & _).
  eexists r, s, _, h'. split; [done|]. split; [exact Hcount|].
  destruct r.
  - split; [|done]. intros _. apply HL in Htrue; [|done].
    destruct L; [by apply elem_of_nil in Htrue|cbn [length]; lia].
  - split; [done|]. intros Hn. destruct (Hfalse eq_refl) as [_ Hnone].
    destruct L as [|s0 L]; [cbn [length] in Hn; lia|].
    destruct (Hnone s0). apply HL, elem_of_cons. by left.
Qed.

Lemma solve_iff_count_positive_witness :
  ∃ r s n h', solve sample_puzzle = Ok (r, s) ∧
    count_solutions 1%positive 2 {[ 1%positive := sample_puzzle ]}
    = Ok (n, h') ∧
    (r = true ↔ 1 ≤ n).
Proof.
  apply (solve_iff_count_positive {[ 1%positive := sample_puzzle ]}
           1%positive sample_puzzle 2).
  - reflexivity.
  - apply concrete_wf. vm_compute. reflexivity.
  - lia.
Defined.

(** X7: [_find_all_solutions] gives the board back as it received it,
    keeps the solutions found before in their places, appends only grids
    that keep the givens and fill the empty cells legally, and appends
    none once the list holds [max_solutions] grids. *)
Theorem find_all_solutions_post b solutions max_solutions :
  wf b →
  ∃ new, _find_all_solutions depth_bound max_solutions b solutions
         = Ok (b, solutions ++ new) ∧
    (∀ s, s ∈ new → fills b s) ∧
    Z.of_nat (length new)
    ≤ Z.max 0 (max_solutions - Z.of_nat (length solutions)).
Proof.
  intros Hwf. destruct (fills_listable b Hwf) as (L & Hnd & HL).
  destruct (find_all_spec depth_bound max_solutions b solutions L Hwf)
    as (new & Hres & Hin & Hlen); [|done..|].
  { pose proof (empties_le b). unfold depth_bound. lia. }
  exists new. split; [done|]. split; [|lia].
  intros s Hs. by apply HL, Hin.
Qed.

Lemma find_all_solutions_post_witness :
  ∃ new, _find_all_solutions depth_bound 2 sample_puzzle [sample_puzzle]
         = Ok (sample_puzzle, [sample_puzzle] ++ new) ∧
    (∀ s, s ∈ new → fills sample_puzzle s) ∧
    Z.of_nat (length new) ≤ Z.max 0 (2 - Z.of_nat (length [sample_puzzle])).
Proof.
  apply (find_all_solutions_post sample_puzzle [sample_puzzle] 2).
  apply concrete_wf. vm_compute. reflexivity.
Defined.

(** ** Indices out of range *)

Lemma cell_row_out b row j : wf b → (9 ≤ row)%nat → cell b row j = IndexError.
Proof.
  intros [Hlen _] Hrow. unfold cell.
  by rewrite (lookup_ge_None_2 b row) by lia.
Qed.

Lemma cell_col_out b i col :
  wf b → (i < 9)%nat → (9 ≤ col)%nat → cell b i col = IndexError.
Proof.
  intros Hwf Hi Hcol. unfold cell.
  destruct (wf_lookup b i Hwf Hi) as (row & -> & Hlen).
  by rewrite (lookup_ge_None_2 row col) by lia.
Qed.

Lemma any_conflict_raise (test : nat → result bool) skip n :
  (skip < 2)%nat →
  (∀ i, i ≠ skip → test i = IndexError) → test skip = Ok false →
  any_conflict test (seq 0 (S (S n))) = IndexError.
Proof.
  intros Hskip Hraise Hpass. cbn [seq any_conflict].
  destruct (decide (skip = 0%nat)) as [->|Hne].
  - rewrite Hpass. ok_step. by rewrite (Hraise 1%nat) by lia.
  - by rewrite (Hraise 0%nat) by lia.
Qed.

Lemma any_conflict_raise_first (test : nat → result bool) n :
  test 0%nat = IndexError → any_conflict test (seq 0 (S n)) = IndexError.
Proof. intros Hraise. cbn [seq any_conflict]. by rewrite Hraise. Qed.

(** X8: on a 9x9 grid, a row index of 9 or more makes [is_valid_move]
    raise [IndexError]; with the row in range and a column index of 9 or
    more it returns [False] when the value stands in that row, and raises
    [IndexError] otherwise. *)
Theorem is_valid_move_out_of_range b row col num :
  wf b →
  ((9 ≤ row)%nat → is_valid_move b row col num = IndexError) ∧
  ((row < 9)%nat → (9 ≤ col)%nat →
   (num ∈ row_of b row → is_valid_move b row col num = Ok false) ∧
   (num ∉ row_of b row → is_valid_move b row col num = IndexError)).
Proof.
  intros Hwf. split.
  - intros Hrow. unfold is_valid_move, range9.
    assert (∀ j, j ≠ col →
              differs_and_holds (bool_decide (j ≠ col)) b row j num
              = IndexError) as Hraise.
    { intros j Hj. rewrite bool_decide_eq_true_2 by done.
      unfold differs_and_holds. by rewrite cell_row_out. }
    assert (any_conflict
              (λ j, differs_and_holds (bool_decide (j ≠ col)) b row j num)
              (seq 0 9) = IndexError) as ->; [|reflexivity].
    destruct (decide (col < 2)%nat) as [Hcol|Hcol].
    + apply (any_conflict_raise _ col); [done|done|].
      by rewrite bool_decide_eq_false_2 by (intros H; by apply H).
    + apply any_conflict_raise_first, Hraise. lia.
  - intros Hrow Hcol.
    assert (∃ r1, any_conflict
              (λ j, differs_and_holds (bool_decide (j ≠ col)) b row j num)
              range9 = Ok r1 ∧ (r1 = true ↔ num ∈ row_of b row))
      as (r1 & Hr1 & Hiff).
    { destruct (any_conflict_Ok
        (λ j, differs_and_holds (bool_decide (j ≠ col)) b row j num)
        (λ j, j ≠ col ∧ at_ b row j = num) range9) as (r1 & Hr1 & H1).
      { intros j Hj. apply elem_of_seq in Hj.
        apply differs_and_holds_Ok; [done|done|lia|apply bool_decide_eq_true]. }
      exists r1. split; [done|]. rewrite H1. unfold row_of.
      rewrite list_elem_of_fmap. split.
      - intros (j & Hj & _ & Hv). by exists j.
      - intros (j & Hv & Hj). exists j. split; [done|]. split; [|done].
        apply elem_of_range9 in Hj. lia. }
    unfold is_valid_move. rewrite Hr1. ok_step. destruct r1.
    { split; [done|]. intros Hnot. destruct Hnot. by apply Hiff. }
    split; [intros Hin; by apply Hiff in Hin|]. intros _.
    unfold range9.
    assert (∀ i, i ≠ row → (i < 9)%nat →
              differs_and_holds (bool_decide (i ≠ row)) b i col num
              = IndexError) as Hraise.
    { intros i Hne Hi. rewrite bool_decide_eq_true_2 by done.
      unfold differs_and_holds. by rewrite cell_col_out. }
    assert (differs_and_holds (bool_decide (row ≠ row)) b row col num
            = Ok false) as Hpass.
    { by rewrite bool_decide_eq_false_2 by (intros H; by apply H). }
    cbn [seq any_conflict].
    destruct (decide (row = 0%nat)) as [->|Hne].
    + rewrite Hpass. ok_step. by rewrite (Hraise 1%nat) by lia.
    + by rewrite (Hraise 0%nat) by lia.
Qed.

Lemma is_valid_move_out_of_range_witness :
  is_valid_move sample_puzzle 9 0 5 = IndexError ∧
  ((5 ∈ row_of sample_puzzle 0) ∧
   is_valid_move sample_puzzle 0 9 5 = Ok false) ∧
  ((1 ∉ row_of sample_puzzle 0) ∧
   is_valid_move sample_puzzle 0 9 1 = IndexError).
Proof.
  assert (wf sample_puzzle) as Hwf
    by (apply concrete_wf; vm_compute; reflexivity).
  assert (5 ∈ row_of sample_puzzle 0) as Hin
    by (apply (bool_decide_unpack _); vm_compute; reflexivity).
  assert (1 ∉ row_of sample_puzzle 0) as Hout
    by (apply (bool_decide_unpack _); vm_compute; reflexivity).
  split; [|split; (split; [done|])].
  - apply (proj1 (is_valid_move_out_of_range sample_puzzle 9 0 5 Hwf)). lia.
  - apply (proj2 (is_valid_move_out_of_range sample_puzzle 0 9 5 Hwf));
      [lia|lia|done].
  - apply (proj2 (is_valid_move_out_of_range sample_puzzle 0 9 1 Hwf));
      [lia|lia|done].
Defined.

(** * Further properties of the generator *)

Lemma extends_below b b' s :
  (∀ i j, (i < 9)%nat → (j < 9)%nat → at_ b' i j ≠ 0 → at_ b' i j = at_ b i j) →
  extends b s → extends b' s.
Proof.
  intros Hsub Hext i j Hi Hj Hnz. rewrite (Hsub i j Hi Hj Hnz).
  apply Hext; [done..|]. by rewrite <- (Hsub i j Hi Hj Hnz).
Qed.

Lemma second_element {A} `{EqDecision A} (L : list A) x :
  NoDup L → (2 ≤ length L)%nat → ∃ y, y ∈ L ∧ y ≠ x.
Proof.
  intros Hnd Hlen. destruct L as [|a [|c L]]; cbn [length] in Hlen; [lia..|].
  destruct (decide (a = x)) as [->|Hax].
  - exists c. split; [right; by left|]. intros ->.
    apply NoDup_cons in Hnd as [Hnotin _]. destruct Hnotin. by left.
  - exists a. split; [by left|done].
Qed.

Section GeneratorMore.
Context {rng : Type}.
Variable shuffle : ∀ A : Type, list A → rng → list A * rng.
Hypothesis shuffle_perm : ∀ A (l : list A) g, (shuffle A l g).1 ≡ₚ l.

(** A clue is needed when the board without it has a completion other
    than [sol]. *)
Lemma dig_needed cells removed target_removed bd sl (h : heap) b sol :
  NoDup cells →
  (∀ ij, ij ∈ cells → (ij.1 < 9)%nat ∧ (ij.2 < 9)%nat) →
  h !! bd = Some b → h !! sl = Some sol → bd ≠ sl →
  valid_grid sol → wf b → extends b sol →
  (∀ ij, ij ∈ cells → at_ b ij.1 ij.2 ≠ 0) →
  Z.of_nat (clue_count b) = 81 - removed →
  (∀ i j, (i < 9)%nat → (j < 9)%nat → at_ b i j ≠ 0 →
     (i, j) ∈ cells ∨ ∃ s, s ≠ sol ∧ completion (upd b i j 0) s) →
  ∃ h' b', dig cells removed target_removed bd h = Ok h' ∧
    h' !! bd = Some b' ∧
    (81 - target_removed < Z.of_nat (clue_count b') →
     ∀ i j, (i < 9)%nat → (j < 9)%nat → at_ b' i j ≠ 0 →
       ∃ s, s ≠ sol ∧ completion (upd b' i j 0) s).
Proof using Type.
  revert removed h b.
  induction cells as [|[i j] cells IH];
    intros removed h b Hnd Hcells Hbd Hsl Hne Hsol Hwf Hext Hnz Hcount Hneed.
  { exists h, b. cbn [dig]. split; [done|]. split; [done|].
    intros _ i j Hi Hj Hv.
    destruct (Hneed i j Hi Hj Hv) as [Hin|Hs]; [by apply elem_of_nil in Hin|done]. }
  cbn [dig]. destruct (decide (removed >= target_removed)) as [Hstop|Hgo].
  { exists h, b. split; [done|]. split; [done|]. lia. }
  apply NoDup_cons in Hnd as [Hnotin Hnd].
  destruct (Hcells (i, j)) as [Hi Hj]; [apply elem_of_cons; by left|].
  cbn [fst snd] in Hi, Hj.
  assert (∀ ij, ij ∈ cells → (ij.1 < 9)%nat ∧ (ij.2 < 9)%nat) as Hcells'.
  { intros ij Hij. apply Hcells, elem_of_cons. by right. }
  assert (at_ b i j ≠ 0) as Hv.
  { apply (Hnz (i, j)), elem_of_cons. by left. }
  unfold read_cell, write_cell. rewrite (load_lookup h bd b Hbd).
  rewrite cell_wf by done. ok_step.
  rewrite set_cell_wf by done. ok_step.
  set (b1 := upd b i j 0). set (h1 := <[bd := b1]> h).
  assert (wf b1) as Hwf1 by by apply upd_wf.
  assert (extends b1 sol) as Hext1 by by apply extends_upd_0.
  destruct (below_valid b1 sol Hwf1 Hsol Hext1) as [Hrng1 Hcf1].
  destruct (fills_listable b1 Hwf1) as (L & HndL & HL).
  destruct (count_solutions_spec bd 2 h1 b1 L) as (h2 & -> & Hframe);
    [apply lookup_insert_eq|done..|].
  ok_step.
  assert (h2 !! bd = Some b1) as Hbd2.
  { rewrite Hframe; [apply lookup_insert_eq|].
    exists b1. apply lookup_insert_eq. }
  assert (h2 !! sl = Some sol) as Hsl2.
  { rewrite Hframe; unfold h1; rewrite lookup_insert_ne by done; [done|].
    by exists sol. }
  assert (sol ∈ L) as HsolL by by apply HL, below_valid_fills.
  assert (∀ i' j', (i', j') ∈ cells → i ≠ i' ∨ j ≠ j') as Hother.
  { intros i' j' Hin. destruct (decide (i = i')) as [->|?]; [|by left].
    destruct (decide (j = j')) as [->|?]; [done|by right]. }
  destruct (decide (Z.of_nat (Nat.min (length L) (Z.to_nat 2)) = 1))
    as [Hone|Hmany].
  - destruct (IH (removed + 1) h2 b1) as (h' & b' & Hrun & Hrest);
      [done..| | | |by exists h', b'].
    + intros [i' j'] Hin. cbn [fst snd]. unfold b1.
      rewrite at_upd_other by (done || by apply Hother).
      by apply (Hnz (i', j')), elem_of_cons; right.
    + rewrite (clue_count_upd b i j) in Hcount by done. fold b1 in Hcount. lia.
    + intros i' j' Hi' Hj' Hv'. unfold b1 in Hv'.
      rewrite at_upd in Hv' by done.
      destruct (decide (i = i' ∧ j = j')) as [_|Hdiff]; [done|].
      destruct (Hneed i' j' Hi' Hj' Hv') as [Hin|(s & Hs & Hcompl)].
      * left. apply elem_of_cons in Hin as [Heq|Hin]; [|done].
        destruct Hdiff. by injection Heq as -> ->.
      * right. exists s. split; [done|]. destruct Hcompl as [Hsolved Hexts].
        split; [done|]. revert Hexts. apply extends_below.
        intros i0 j0 Hi0 Hj0. unfold b1.
        rewrite !at_upd by (done || by apply upd_wf).
        repeat destruct (decide _); done.
  - unfold write_cell. rewrite (load_lookup h2 bd b1 Hbd2).
    rewrite set_cell_wf by done. ok_step.
    unfold b1 at 1. rewrite upd_restore by done.
    destruct (IH removed (<[bd := b]> h2) b) as (h' & b' & Hrun & Hrest);
      [done|done|apply lookup_insert_eq|by rewrite lookup_insert_ne|done..| |
       | |by exists h', b'].
    + intros ij Hin. apply Hnz, elem_of_cons. by right.
    + done.
    + intros i' j' Hi' Hj' Hv'.
      destruct (Hneed i' j' Hi' Hj' Hv') as [Hin|Hs]; [|by right].
      apply elem_of_cons in Hin as [Heq|Hin]; [|by left].
      injection Heq as -> ->. right.
      destruct (second_element L sol HndL) as (s & Hs & Hdiff).
      { destruct L as [|? [|? ?]]; cbn [length] in *; [|lia|lia].
        by apply elem_of_nil in HsolL. }
      exists s. split; [done|].
      by apply (fills_completion b1 s Hwf1 Hrng1 Hcf1), HL.
Qed.

Lemma generate_puzzle_needed difficulty g :
  ∃ puzzle solution g',
    generate_puzzle shuffle difficulty g = Ok (puzzle, solution, g') ∧
    (default 32 (difficulty_levels !! difficulty)
     < Z.of_nat (clue_count puzzle) →
     ∀ i j, (i < 9)%nat → (j < 9)%nat → at_ puzzle i j ≠ 0 →
       ∃ s, s ≠ solution ∧ completion (upd puzzle i j 0) s).
Proof using shuffle_perm.
  unfold generate_puzzle, alloc, call, deepcopy, alloc.
  set (bd := fresh (dom (∅ : heap))).
  rewrite (load_lookup _ bd empty_board) by apply lookup_insert_eq.
  destruct (seed_boxes_spec shuffle shuffle_perm g)
    as (g1 & b & s & -> & Hwf & Hs & Hext).
  ok_step.
  rewrite (load_lookup _ bd b) by apply lookup_insert_eq.
  destruct (solve_below_valid b s Hwf Hs Hext) as (sol & -> & Hsol & _).
  ok_step.
  set (h2 := <[bd := sol]> _).
  assert (h2 !! bd = Some sol) as Hbd by apply lookup_insert_eq.
  rewrite (load_lookup h2 bd sol Hbd).
  set (sl := fresh (dom h2)).
  assert (bd ≠ sl) as Hne by (apply fresh_not_lookup; by exists sol).
  pose proof (shuffle_perm _ all_cells g1) as Hperm.
  destruct (shuffle (nat * nat) all_cells g1) as [cells g2].
  cbn [fst] in Hperm.
  pose proof (valid_grid_full sol Hsol) as Hfull.
  pose proof (proj1 Hsol) as Hwfs.
  assert (∀ ij, ij ∈ cells → (ij.1 < 9)%nat ∧ (ij.2 < 9)%nat) as Hcells.
  { intros [i j]. rewrite Hperm. apply elem_of_all_cells. }
  destruct (dig_spec cells 0
              (81 - default 32 (difficulty_levels !! difficulty))
              bd sl (<[sl := sol]> h2) sol sol)
    as (h' & b' & Hrun & Hbd' & Hsl' & _);
    [done|by rewrite lookup_insert_ne|apply lookup_insert_eq|done|done|done|
     by intros i j Hi Hj _| |rewrite clue_count_full by done; lia|].
  { intros s' Hs'.
    destruct (fills_listable sol Hwfs) as (L & HndL & HL).
    rewrite (fills_of_full sol L Hwfs Hfull HndL HL) in HL.
    by apply HL, list_elem_of_singleton in Hs'. }
  destruct (dig_needed cells 0
              (81 - default 32 (difficulty_levels !! difficulty))
              bd sl (<[sl := sol]> h2) sol sol)
    as (h'' & b'' & Hrun' & Hbd'' & Hneeded).
  - rewrite Hperm. apply NoDup_all_cells.
  - done.
  - by rewrite lookup_insert_ne.
  - apply lookup_insert_eq.
  - done.
  - done.
  - done.
  - by intros i j Hi Hj _.
  - intros [i j] Hin. destruct (Hcells _ Hin). by apply Hfull.
  - rewrite clue_count_full by done. lia.
  - intros i j Hi Hj _. left. rewrite Hperm. by apply elem_of_all_cells.
  - rewrite Hrun in Hrun'. injection Hrun' as <-.
    rewrite Hbd' in Hbd''. injection Hbd'' as <-.
    rewrite Hrun. ok_step. exists b', sol, g2.
    rewrite (load_lookup h' bd b' Hbd'), (load_lookup h' sl sol Hsl').
    split; [done|]. intros Hmore. apply Hneeded. lia.
Qed.

End GeneratorMore.

Lemma two_elements {A} (L : list A) x y :
  x ∈ L → y ∈ L → x ≠ y → (2 ≤ length L)%nat.
Proof.
  intros Hx Hy Hne. destruct L as [|a [|c L]]; cbn [length]; [|exfalso|lia].
  - by apply elem_of_nil in Hx.
  - apply list_elem_of_singleton in Hx, Hy. congruence.
Qed.

(** X9: when [generate_puzzle] returns a puzzle with more clues than the
    target of its difficulty, no further clue can go: the puzzle without
    any one of its clues has a completion other than the solution, and
    [count_solutions] with limit 2 returns 2 on it. *)
Theorem generated_puzzle_irreducible {rng : Type}
    (shuffle : ∀ A : Type, list A → rng → list A * rng) difficulty g :
  (∀ A (l : list A) g, (shuffle A l g).1 ≡ₚ l) →
  ∃ puzzle solution g',
    generate_puzzle shuffle difficulty g = Ok (puzzle, solution, g') ∧
    (default 32 (difficulty_levels !! difficulty)
     < Z.of_nat (clue_count puzzle) →
     ∀ i j, (i < 9)%nat → (j < 9)%nat → at_ puzzle i j ≠ 0 →
       (∃ s, s ≠ solution ∧ completion (upd puzzle i j 0) s) ∧
       ∀ (h : heap) l, h !! l = Some (upd puzzle i j 0) →
         ∃ h', count_solutions l 2 h = Ok (2, h')).
Proof.
  intros Hperm.
  destruct (generate_puzzle_needed shuffle Hperm difficulty g)
    as (puzzle & solution & g' & Hrun & Hneeded).
  destruct (generate_puzzle_spec shuffle Hperm difficulty g)
    as (puzzle' & solution' & g'' & Hrun' & Hwf & Hsol & Hext & _).
  rewrite Hrun in Hrun'. injection Hrun' as <- <- <-.
  exists puzzle, solution, g'. split; [done|].
  intros Hmore i j Hi Hj Hv.
  destruct (Hneeded Hmore i j Hi Hj Hv) as (s & Hs & Hcompl).
  split; [by exists s|]. intros h l Hl.
  set (b1 := upd puzzle i j 0) in *.
  assert (wf b1) as Hwf1 by by apply upd_wf.
  assert (extends b1 solution) as Hext1 by by apply extends_upd_0.
  destruct (below_valid b1 solution Hwf1 Hsol Hext1) as [Hrng1 Hcf1].
  destruct (fills_listable b1 Hwf1) as (L & HndL & HL).
  destruct (count_solutions_spec l 2 h b1 L Hl Hwf1 HndL HL)
    as (h' & Hcount & _).
  exists h'. rewrite Hcount. do 2 f_equal.
  assert (2 ≤ length L)%nat; [|lia].
  apply (two_elements L s solution); [| |done].
  - by apply HL, (fills_completion b1 s Hwf1 Hrng1 Hcf1).
  - by apply HL, below_valid_fills.
Qed.

Lemma generated_puzzle_irreducible_witness :
  ∃ puzzle solution g',
    generate_puzzle rev_shuffle "expert" () = Ok (puzzle, solution, g') ∧
    default 32 (difficulty_levels !! "expert")
    < Z.of_nat (clue_count puzzle) ∧
    ∀ i j, (i < 9)%nat → (j < 9)%nat → at_ puzzle i j ≠ 0 →
      (∃ s, s ≠ solution ∧ completion (upd puzzle i j 0) s) ∧
      ∀ (h : heap) l, h !! l = Some (upd puzzle i j 0) →
        ∃ h', count_solutions l 2 h = Ok (2, h').
Proof.
  destruct (generated_puzzle_irreducible rev_shuffle "expert" ())
    as (puzzle & solution & g' & Hrun & Hirr).
  { intros A l g. apply reverse_Permutation. }
  exists puzzle, solution, g'. split; [done|].
  assert (default 32 (difficulty_levels !! "expert")
          < Z.of_nat (clue_count puzzle)) as Hmore.
  { assert (∃ p s, generate_puzzle rev_shuffle "expert" () = Ok (p, s, ()) ∧
                   default 32 (difficulty_levels !! "expert")
                   < Z.of_nat (clue_count p)) as (p & s & Hp & Hlt).
    { eexists _, _. split; [vm_compute; reflexivity|].
      vm_compute. reflexivity. }
    rewrite Hp in Hrun. by injection Hrun as <- <- <-. }
  split; [done|]. by apply Hirr.
Defined.

(** * Which completion [solve] finds *)

Ltac ok_in H := rewrite ?bind_Ok in H; cbv beta iota in H.

Lemma solve_rec_partial fuel b res :
  wf b → solve_rec fuel b = Ok res → solve_post b res.
Proof.
  intros Hwf Hrun.
  destruct (solve_rec_spec (fuel + S (empties b)) b Hwf) as (res' & Hres & Hpost);
    [lia|].
  apply (solve_rec_mono fuel (fuel + S (empties b))) in Hrun; [|lia].
  congruence.
Qed.

Lemma fills_into b s row col :
  wf b → (row < 9)%nat → (col < 9)%nat → at_ b row col = 0 →
  fills b s → fills (upd b row col (at_ s row col)) s.
Proof.
  intros Hwf Hrow Hcol Hz Hs.
  apply (fills_step b row col) in Hs; [|done..].
  destruct Hs as (num & Hnum & Hfree & Hs).
  assert (at_ s row col = num) as ->; [|done].
  destruct Hs as (_ & Hext & _). apply elem_of_digits in Hnum.
  rewrite (Hext row col Hrow Hcol); rewrite at_upd_same by done; [done|lia].
Qed.

Lemma fills_not_free b s row col :
  wf b → (row < 9)%nat → (col < 9)%nat → at_ b row col = 0 →
  fills b s → free b row col (at_ s row col).
Proof.
  intros Hwf Hrow Hcol Hz Hs.
  by destruct (fills_at_digit b s row col Hwf Hrow Hcol Hz Hs).
Qed.

Lemma solve_try_least (rec : board → result (bool * board)) row col nums b s :
  wf b → (row < 9)%nat → (col < 9)%nat → at_ b row col = 0 →
  (∀ i' j', (i' < 9)%nat → (j' < 9)%nat → before i' j' row col →
     at_ b i' j' ≠ 0) →
  StronglySorted Z.lt nums →
  (∀ num, num ∈ nums → num ≠ 0) →
  (∀ b1 res, wf b1 → rec b1 = Ok res → solve_post b1 res) →
  (∀ b1 s1, wf b1 → rec b1 = Ok (true, s1) →
     ∀ s', fills b1 s' → s' = s1 ∨ lex_lt s1 s') →
  solve_try rec row col nums b = Ok (true, s) →
  ∀ s', fills b s' → at_ s' row col ∈ nums → s' = s ∨ lex_lt s s'.
Proof.
  intros Hwf Hrow Hcol Hz Hfirst Hsorted Hnz Hrec Hleast.
  induction nums as [|num nums IH]; intros Hrun s' Hs' Hin.
  { by apply elem_of_nil in Hin. }
  apply StronglySorted_inv in Hsorted as [Hsorted Hlt].
  assert (∀ n, n ∈ nums → n ≠ 0) as Hnz'.
  { intros n Hn. apply Hnz. by right. }
  specialize (IH Hsorted Hnz').
  cbn [solve_try] in Hrun.
  destruct (is_valid_move_spec b row col num Hwf Hrow Hcol)
    as (ok & Hmove & Hok).
  rewrite Hmove in Hrun. ok_in Hrun. destruct ok.
  - rewrite set_cell_wf in Hrun by done. ok_in Hrun.
    assert (wf (upd b row col num)) as Hwf1 by by apply upd_wf.
    destruct (rec (upd b row col num)) as [[solved b2]| |] eqn:Hb1;
      [|done..].
    ok_in Hrun.
    destruct (Hrec _ _ Hwf1 Hb1) as [Ht Hf]. cbn [fst snd] in Ht, Hf.
    destruct solved.
    + injection Hrun as <-.
      destruct (decide (at_ s' row col = num)) as [Heq|Hne].
      * apply (Hleast _ _ Hwf1 Hb1). rewrite <- Heq. by apply fills_into.
      * right. exists row, col. split; [done|]. split; [done|].
        destruct (Ht eq_refl) as (_ & Hext2 & _).
        destruct Hs' as (_ & Hext' & _).
        assert (at_ b2 row col = num) as Hb2.
        { rewrite (Hext2 row col Hrow Hcol); rewrite at_upd_same by done;
            [done|]. apply Hnz. by left. }
        split.
        -- rewrite Hb2. apply elem_of_cons in Hin as [?|Hin]; [done|].
           rewrite Forall_forall in Hlt. by apply Hlt.
        -- intros i' j' Hi' Hj' Hbefore.
           pose proof (Hfirst i' j' Hi' Hj' Hbefore) as Hv.
           rewrite (Hext' i' j' Hi' Hj' Hv).
           rewrite (Hext2 i' j' Hi' Hj');
             rewrite at_upd_other; try done;
             unfold before in Hbefore; lia.
    + destruct (Hf eq_refl) as [-> Hnone].
      rewrite set_cell_wf in Hrun by done. ok_in Hrun.
      rewrite upd_upd, (upd_id b row col 0) in Hrun by done.
      apply IH; [done..|].
      apply elem_of_cons in Hin as [Heq|Hin]; [|done].
      destruct (Hnone s'). rewrite <- Heq. by apply fills_into.
  - apply IH; [done..|].
    apply elem_of_cons in Hin as [Heq|Hin]; [|done].
    assert (false = true) as Hc; [|done].
    apply Hok. rewrite <- Heq. by apply fills_not_free.
Qed.

Lemma digits_sorted : StronglySorted Z.lt digits.
Proof. unfold digits. repeat constructor; lia. Qed.

Lemma solve_rec_least fuel b s :
  wf b → solve_rec fuel b = Ok (true, s) →
  ∀ s', fills b s' → s' = s ∨ lex_lt s s'.
Proof.
  revert b s. induction fuel as [|fuel IH]; intros b s Hwf Hrun s' Hs'; [done|].
  cbn [solve_rec] in Hrun.
  destruct (find_empty b) as [[[row col]|]| |] eqn:Hfind; [| |done..];
    ok_in Hrun.
  - apply (find_empty_Some_iff b row col Hwf) in Hfind
      as (Hrow & Hcol & Hz & Hfirst).
    apply (solve_try_least (solve_rec fuel) row col digits b s Hwf Hrow Hcol
             Hz Hfirst digits_sorted digits_nonzero).
    + intros b1 res Hwf1. by apply solve_rec_partial.
    + intros b1 s1 Hwf1 Hb1. by apply IH.
    + done.
    + done.
    + by apply (fills_at_digit b s' row col).
  - injection Hrun as <-. left.
    apply find_empty_None in Hfind; [|done].
    destruct Hs' as (Hwf' & Hext' & _).
    apply board_ext; [done..|]. intros i j Hi Hj.
    apply Hext'; [done..|]. by apply Hfind.
Qed.

(** X10: on a 9x9 grid with values in 0..9 that passes [is_valid_puzzle],
    the grid that [solve] leaves when it returns [True] is the first
    completion in row-major lexicographic order: every other completion
    has a greater value at the first cell where the two differ. *)
Theorem solve_finds_least b s :
  wf b → in_range b → is_valid_puzzle b = Ok (true, b) →
  solve b = Ok (true, s) →
  completion b s ∧ ∀ c, completion b c → c = s ∨ lex_lt s c.
Proof.
  intros Hwf Hrng Hvalid Hrun.
  pose proof (is_valid_puzzle_conflict_free b Hwf Hvalid) as Hcf.
  split.
  - apply (fills_completion b s Hwf Hrng Hcf).
    destruct (solve_rec_partial depth_bound b (true, s) Hwf Hrun) as [Ht _].
    by apply Ht.
  - intros c Hc. apply (solve_rec_least depth_bound b s Hwf Hrun).
    by apply (fills_completion b c Hwf Hrng Hcf).
Qed.

Lemma solve_finds_least_witness :
  (∃ h', count_solutions 1%positive 2 {[ 1%positive := empty_board ]}
         = Ok (2, h')) ∧
  ∃ s, solve empty_board = Ok (true, s) ∧
    completion empty_board s ∧
    ∀ c, completion empty_board c → c = s ∨ lex_lt s c.
Proof.
  split; [eexists; vm_compute; reflexivity|].
  eexists. split; [vm_compute; reflexivity|].
  apply (solve_finds_least empty_board).
  - apply concrete_wf. vm_compute. reflexivity.
  - apply concrete_in_range. vm_compute. reflexivity.
  - vm_compute. reflexivity.
  - vm_compute. reflexivity.
Defined.

(** * The game: checks and hints *)

(** ** [is_puzzle_complete] *)

Lemma is_puzzle_complete_in_spec cs u s :
  wf u → wf s →
  (∀ i j, (i, j) ∈ cs → (i < 9)%nat ∧ (j < 9)%nat) →
  ∃ r, is_puzzle_complete_in cs u s = Ok r ∧
    (r = true ↔ ∀ i j, (i, j) ∈ cs → at_ u i j = at_ s i j).
Proof.
  intros Hu Hs. induction cs as [|[i j] cs IH]; intros Hcs.
  - exists true. split; [done|]. split; [|done].
    intros _ i j Hin. by apply elem_of_nil in Hin.
  - destruct (Hcs i j) as [Hi Hj]; [by left|].
    cbn [is_puzzle_complete_in]. rewrite !cell_wf by done. ok_step.
    destruct (decide (at_ u i j ≠ at_ s i j)) as [Hne|Heq].
    + exists false. split; [done|]. split; [done|].
      intros Hall. destruct Hne. apply Hall. by left.
    + destruct IH as (r & Hr & Hiff); [intros; apply Hcs; by right|].
      exists r. split; [done|]. rewrite Hiff. split.
      * intros Hall i' j' Hin. apply elem_of_cons in Hin as [Heq'|Hin];
          [|by apply Hall].
        injection Heq' as -> ->. by destruct (decide (at_ u i j = at_ s i j)).
      * intros Hall i' j' Hin. apply Hall. by right.
Qed.

Lemma is_puzzle_complete_spec u s :
  wf u → wf s →
  ∃ r, is_puzzle_complete u s = Ok r ∧ (r = true ↔ u = s).
Proof.
  intros Hu Hs.
  destruct (is_puzzle_complete_in_spec all_cells u s Hu Hs)
    as (r & Hr & Hiff); [intros i j; apply elem_of_all_cells|].
  exists r. split; [done|]. rewrite Hiff. split.
  - intros Hall. apply board_ext; [done..|]. intros i j Hi Hj.
    by apply Hall, elem_of_all_cells.
  - by intros ->.
Qed.

(** X11: on 9x9 grids [is_puzzle_complete] returns [True] exactly when
    the player's grid and the stored solution agree in all 81 cells. *)
Theorem is_puzzle_complete_iff u s :
  wf u → wf s →
  ∃ r, is_puzzle_complete u s = Ok r ∧
    (r = true ↔ ∀ i j, (i < 9)%nat → (j < 9)%nat → at_ u i j = at_ s i j).
Proof.
  intros Hu Hs. destruct (is_puzzle_complete_spec u s Hu Hs) as (r & Hr & Hiff).
  exists r. split; [done|]. rewrite Hiff. split; [by intros ->|].
  intros Hall. by apply board_ext.
Qed.

Lemma is_puzzle_complete_iff_witness :
  ∃ r, is_puzzle_complete sample_puzzle sample_solution = Ok r ∧
    (r = true ↔ ∀ i j, (i < 9)%nat → (j < 9)%nat →
                  at_ sample_puzzle i j = at_ sample_solution i j).
Proof.
  apply (is_puzzle_complete_iff sample_puzzle sample_solution).
  - apply concrete_wf. vm_compute. reflexivity.
  - apply concrete_wf. vm_compute. reflexivity.
Defined.

(** X12: for a puzzle and solution returned by [generate_puzzle],
    [is_puzzle_complete] accepts the player's grid exactly when it is a
    correct completion of the puzzle: every row, column and box a
    permutation of 1..9 and the clues kept. *)
Theorem generated_puzzle_complete_iff {rng : Type}
    (shuffle : ∀ A : Type, list A → rng → list A * rng) difficulty g :
  (∀ A (l : list A) g, (shuffle A l g).1 ≡ₚ l) →
  ∃ puzzle solution g',
    generate_puzzle shuffle difficulty g = Ok (puzzle, solution, g') ∧
    ∀ u, wf u →
      ∃ r, is_puzzle_complete u solution = Ok r ∧
        (r = true ↔ completion puzzle u).
Proof.
  intros Hperm.
  destruct (generate_puzzle_spec shuffle Hperm difficulty g)
    as (puzzle & solution & g' & Hrun & Hwf & Hsol & Hext & Huniq & _).
  exists puzzle, solution, g'. split; [done|]. intros u Hu.
  destruct (is_puzzle_complete_spec u solution Hu (proj1 Hsol))
    as (r & Hr & Hiff).
  exists r. split; [done|]. rewrite Hiff.
  destruct (below_valid puzzle solution Hwf Hsol Hext) as [Hrng Hcf].
  split.
  - intros Heq. rewrite Heq. split; [by apply valid_grid_solved|exact Hext].
  - intros Hc. by apply Huniq, (fills_completion puzzle u Hwf Hrng Hcf).
Qed.

Lemma generated_puzzle_complete_iff_witness :
  ∃ puzzle solution g',
    generate_puzzle no_shuffle "medium" () = Ok (puzzle, solution, g') ∧
    ∀ u, wf u →
      ∃ r, is_puzzle_complete u solution = Ok r ∧
        (r = true ↔ completion puzzle u).
Proof.
  apply (generated_puzzle_complete_iff no_shuffle "medium" ()).
  intros A l g. reflexivity.
Defined.

(** ** [validate_cell] *)

(** X13: [validate_cell] leaves [user_puzzle] as it was.  The entry is
    coloured as correct exactly when the value is the solution's, also
    when a peer holds the same value; otherwise it is coloured as an
    error when a peer of the cell holds the value in the player's grid,
    and as a warning when none does. *)
Theorem validate_cell_colours u s row col num :
  wf u → wf s → (row < 9)%nat → (col < 9)%nat →
  ∃ c, validate_cell u s row col num = Ok (c, u) ∧
    (c = correct ↔ num = at_ s row col) ∧
    (c = warning_light ↔ num ≠ at_ s row col ∧ free u row col num) ∧
    (c = error_light ↔ num ≠ at_ s row col ∧ ¬ free u row col num).
Proof.
  intros Hu Hs Hrow Hcol. unfold validate_cell.
  rewrite (cell_wf s), (cell_wf u) by done. ok_step.
  destruct (decide (num = at_ s row col)) as [Heq|Hne].
  { exists correct. split; [done|]. split; [by split|].
    split; (split; [done|by intros [? _]]). }
  ok_step. rewrite set_cell_wf by done. ok_step.
  assert (wf (upd u row col 0)) as Hwf1 by by apply upd_wf.
  destruct (is_valid_move_spec (upd u row col 0) row col num Hwf1 Hrow Hcol)
    as (ok & -> & Hok).
  ok_step. rewrite set_cell_wf by done. ok_step.
  rewrite upd_restore by done.
  rewrite free_upd_self in Hok by done.
  destruct ok.
  - exists warning_light. split; [done|]. split; [done|].
    split; [split; [intros _; split; [done|by apply Hok]|done]|].
    split; [done|]. intros [_ Hnf]. destruct Hnf. by apply Hok.
  - exists error_light. split; [done|]. split; [done|].
    split; [split; [done|]|split; [|done]].
    + intros [_ Hfree]. apply Hok in Hfree. done.
    + intros _. split; [done|]. intros Hfree. apply Hok in Hfree. done.
Qed.

Lemma validate_cell_colours_witness :
  ∃ c, validate_cell sample_puzzle sample_solution 0 0 5
       = Ok (c, sample_puzzle) ∧
    (c = correct ↔ 5 = at_ sample_solution 0 0) ∧
    (c = warning_light ↔
       5 ≠ at_ sample_solution 0 0 ∧ free sample_puzzle 0 0 5) ∧
    (c = error_light ↔
       5 ≠ at_ sample_solution 0 0 ∧ ¬ free sample_puzzle 0 0 5).
Proof.
  apply (validate_cell_colours sample_puzzle sample_solution 0 0 5).
  - apply concrete_wf. vm_compute. reflexivity.
  - apply concrete_wf. vm_compute. reflexivity.
  - lia.
  - lia.
Defined.

(** ** [give_hint] *)

Lemma empty_cells_in_spec cs b :
  wf b → (∀ i j, (i, j) ∈ cs → (i < 9)%nat ∧ (j < 9)%nat) →
  empty_cells_in cs b
  = Ok (filter (λ ij : nat * nat, at_ b ij.1 ij.2 = 0) cs).
Proof.
  intros Hwf. induction cs as [|[i j] cs IH]; intros Hcs; [done|].
  destruct (Hcs i j) as [Hi Hj]; [by left|].
  cbn [empty_cells_in]. rewrite cell_wf by done. ok_step.
  rewrite IH by (intros; apply Hcs; by right). ok_step.
  rewrite filter_cons. cbn [fst snd]. by destruct (decide (at_ b i j = 0)).
Qed.

Lemma count_possibilities_spec nums b i j p :
  wf b → (i < 9)%nat → (j < 9)%nat →
  count_possibilities nums b i j p
  = Ok (p + Z.of_nat (length (filter (λ num, free b i j num) nums))).
Proof.
  intros Hwf Hi Hj. revert p. induction nums as [|num nums IH]; intros p.
  - cbn. f_equal. lia.
  - cbn [count_possibilities].
    destruct (is_valid_move_spec b i j num Hwf Hi Hj) as (ok & -> & Hok).
    ok_step. rewrite IH. f_equal. rewrite filter_cons.
    destruct ok.
    + rewrite decide_True by by apply Hok. cbn [length]. lia.
    + rewrite decide_False; [done|]. intros Hfree. by apply Hok in Hfree.
Qed.

Lemma candidates_le b i j : (length (candidates b i j) ≤ 9)%nat.
Proof.
  unfold candidates.
  etransitivity; [apply length_filter|]. done.
Qed.

Lemma best_cell_loop_spec cells b best minp :
  wf b → (∀ i j, (i, j) ∈ cells → (i < 9)%nat ∧ (j < 9)%nat) →
  ∃ best' minp', best_cell_loop cells b best minp = Ok (best', minp') ∧
    ((best' = best ∧ minp' = minp ∧
      ∀ i j, (i, j) ∈ cells →
        ¬ (0 < Z.of_nat (length (candidates b i j)) < minp)) ∨
     (∃ i j, best' = Some (i, j) ∧ (i, j) ∈ cells ∧
        minp' = Z.of_nat (length (candidates b i j)) ∧ 0 < minp' < minp ∧
        ∀ i' j', (i', j') ∈ cells →
          candidates b i' j' = [] ∨
          minp' ≤ Z.of_nat (length (candidates b i' j')))).
Proof.
  intros Hwf. revert best minp.
  induction cells as [|[i j] cells IH]; intros best minp Hcells.
  - exists best, minp. split; [done|]. left. split; [done|]. split; [done|].
    intros i j Hin. by apply elem_of_nil in Hin.
  - destruct (Hcells i j) as [Hi Hj]; [by left|].
    assert (∀ i j, (i, j) ∈ cells → (i < 9)%nat ∧ (j < 9)%nat) as Hcells'.
    { intros; apply Hcells; by right. }
    cbn [best_cell_loop]. rewrite count_possibilities_spec by done. ok_step.
    change (filter (λ num, free b i j num) digits) with (candidates b i j).
    rewrite Z.add_0_l.
    set (n := Z.of_nat (length (candidates b i j))).
    destruct (decide (0 < n < minp)) as [Hbetter|Hworse].
    + destruct (IH (Some (i, j)) n Hcells') as (best' & minp' & Hrun & Hcase).
      exists best', minp'. split; [done|]. right.
      destruct Hcase as [(-> & -> & Hnone)|(i0 & j0 & -> & Hin & -> & Hlt & Hmin)].
      * exists i, j. split; [done|]. split; [by left|]. split; [done|].
        split; [done|]. intros i' j' Hin.
        apply elem_of_cons in Hin as [Heq|Hin].
        -- injection Heq as -> ->. right. fold n. lia.
        -- destruct (candidates b i' j') eqn:Hc; [by left|right].
           specialize (Hnone i' j' Hin). rewrite Hc in Hnone.
           cbn [length] in *. lia.
      * exists i0, j0. split; [done|]. split; [by right|]. split; [done|].
        split; [lia|]. intros i' j' Hin'.
        apply elem_of_cons in Hin' as [Heq|Hin']; [|by apply Hmin].
        injection Heq as -> ->. right. fold n. lia.
    + destruct (IH best minp Hcells') as (best' & minp' & Hrun & Hcase).
      exists best', minp'. split; [done|].
      destruct Hcase as [(-> & -> & Hnone)|(i0 & j0 & -> & Hin & -> & Hlt & Hmin)].
      * left. split; [done|]. split; [done|]. intros i' j' Hin.
        apply elem_of_cons in Hin as [Heq|Hin]; [|by apply Hnone].
        by injection Heq as -> ->.
      * right. exists i0, j0. split; [done|]. split; [by right|].
        split; [done|]. split; [done|]. intros i' j' Hin'.
        apply elem_of_cons in Hin' as [Heq|Hin']; [|by apply Hmin].
        injection Heq as -> ->.
        destruct (candidates b i j) eqn:Hc; [by left|right].
        subst n. cbn [length] in *. lia.
Qed.

Lemma give_hint_spec u s hints_used :
  wf u → wf s →
  (give_hint u s hints_used = Ok (u, hints_used, None) ∧
   ∀ i j, (i < 9)%nat → (j < 9)%nat → at_ u i j = 0 → candidates u i j = []) ∨
  (∃ i j, (i < 9)%nat ∧ (j < 9)%nat ∧ at_ u i j = 0 ∧
     give_hint u s hints_used
     = Ok (upd u i j (at_ s i j), hints_used + 1,
           Some (Hint i j (at_ s i j)
                   (Z.of_nat (length (candidates u i j))))) ∧
     candidates u i j ≠ [] ∧
     ∀ i' j', (i' < 9)%nat → (j' < 9)%nat → at_ u i' j' = 0 →
       candidates u i' j' = [] ∨
       (length (candidates u i j) ≤ length (candidates u i' j'))%nat).
Proof.
  intros Hu Hs. unfold give_hint.
  rewrite empty_cells_in_spec by (done || intros i j; apply elem_of_all_cells).
  ok_step.
  set (empty := filter (λ ij : nat * nat, at_ u ij.1 ij.2 = 0) all_cells).
  assert (∀ i j, (i, j) ∈ empty ↔ ((i < 9)%nat ∧ (j < 9)%nat) ∧ at_ u i j = 0)
    as Hempty.
  { intros i j. unfold empty. rewrite list_elem_of_filter, elem_of_all_cells.
    cbn [fst snd]. tauto. }
  destruct (decide (empty = [])) as [Hnil|Hsome].
  { left. split; [done|]. intros i j Hi Hj Hz.
    assert ((i, j) ∈ empty) as Hin by by apply Hempty.
    rewrite Hnil in Hin. by apply elem_of_nil in Hin. }
  destruct (best_cell_loop_spec empty u None 10 Hu)
    as (best' & minp' & -> & Hcase).
  { intros i j Hin. by apply Hempty in Hin as [? _]. }
  ok_step.
  destruct Hcase as [(-> & -> & Hnone)|(i & j & -> & Hin & -> & Hlt & Hmin)].
  - left. split; [done|]. intros i j Hi Hj Hz.
    assert ((i, j) ∈ empty) as Hin by by apply Hempty.
    specialize (Hnone i j Hin). pose proof (candidates_le u i j).
    destruct (candidates u i j); [done|]. cbn [length] in *. lia.
  - right. apply Hempty in Hin as [[Hi Hj] Hz].
    exists i, j. repeat (split; [done|]).
    rewrite cell_wf by done. ok_step. rewrite set_cell_wf by done. ok_step.
    split; [done|]. split.
    + intros Hc. rewrite Hc in Hlt. cbn [length] in Hlt. lia.
    + intros i' j' Hi' Hj' Hz'.
      destruct (Hmin i' j') as [?|?]; [by apply Hempty|by left|right; lia].
Qed.

(** X14: [give_hint] either changes nothing, which happens exactly when
    no empty cell of the player's grid has a value that none of its peers
    holds, or it writes the solution's value into one empty cell, leaves
    all other cells as they are and adds 1 to [hints_used]; the cell it
    picks has the fewest such values among the empty cells that have
    any. *)
Theorem give_hint_picks u s hints_used :
  wf u → wf s →
  ∃ u' hints_used' shown,
    give_hint u s hints_used = Ok (u', hints_used', shown) ∧
    match shown with
    | None =>
        u' = u ∧ hints_used' = hints_used ∧
        ∀ i j, (i < 9)%nat → (j < 9)%nat → at_ u i j = 0 →
          candidates u i j = []
    | Some h =>
        let i := hint_row h in
        let j := hint_col h in
        (i < 9)%nat ∧ (j < 9)%nat ∧ at_ u i j = 0 ∧
        hint_value h = at_ s i j ∧ at_ u' i j = at_ s i j ∧
        (∀ i' j', (i' < 9)%nat → (j' < 9)%nat → (i' ≠ i ∨ j' ≠ j) →
           at_ u' i' j' = at_ u i' j') ∧
        hints_used' = hints_used + 1 ∧
        hint_possibilities h = Z.of_nat (length (candidates u i j)) ∧
        1 ≤ hint_possibilities h ≤ 9 ∧
        ∀ i' j', (i' < 9)%nat → (j' < 9)%nat → at_ u i' j' = 0 →
          candidates u i' j' = [] ∨
          hint_possibilities h ≤ Z.of_nat (length (candidates u i' j'))
    end.
Proof.
  intros Hu Hs.
  destruct (give_hint_spec u s hints_used Hu Hs)
    as [[Hrun Hnone]|(i & j & Hi & Hj & Hz & Hrun & Hc & Hmin)].
  - exists u, hints_used, None. split; [done|]. done.
  - eexists _, _, _. split; [exact Hrun|]. cbn [hint_row hint_col hint_value
      hint_possibilities]. cbv zeta.
    repeat (split; [done|]). split; [by rewrite at_upd_same|].
    split.
    { intros i' j' Hi' Hj' Hne. apply at_upd_other; [done..|].
      destruct Hne; [left|right]; congruence. }
    split; [done|]. split; [done|]. split.
    { pose proof (candidates_le u i j).
      destruct (candidates u i j); [done|]. cbn [length] in *. lia. }
    intros i' j' Hi' Hj' Hz'.
    destruct (Hmin i' j' Hi' Hj' Hz') as [?|?]; [by left|right; lia].
Qed.

Lemma give_hint_picks_witness :
  ∃ u' hints_used' shown,
    give_hint sample_puzzle sample_solution 0 = Ok (u', hints_used', shown) ∧
    match shown with
    | None =>
        u' = sample_puzzle ∧ hints_used' = 0 ∧
        ∀ i j, (i < 9)%nat → (j < 9)%nat → at_ sample_puzzle i j = 0 →
          candidates sample_puzzle i j = []
    | Some h =>
        let i := hint_row h in
        let j := hint_col h in
        (i < 9)%nat ∧ (j < 9)%nat ∧ at_ sample_puzzle i j = 0 ∧
        hint_value h = at_ sample_solution i j ∧
        at_ u' i j = at_ sample_solution i j ∧
        (∀ i' j', (i' < 9)%nat → (j' < 9)%nat → (i' ≠ i ∨ j' ≠ j) →
           at_ u' i' j' = at_ sample_puzzle i' j') ∧
        hints_used' = 0 + 1 ∧
        hint_possibilities h
        = Z.of_nat (length (candidates sample_puzzle i j)) ∧
        1 ≤ hint_possibilities h ≤ 9 ∧
        ∀ i' j', (i' < 9)%nat → (j' < 9)%nat → at_ sample_puzzle i' j' = 0 →
          candidates sample_puzzle i' j' = [] ∨
          hint_possibilities h
          ≤ Z.of_nat (length (candidates sample_puzzle i' j'))
    end.
Proof.
  apply (give_hint_picks sample_puzzle sample_solution 0).
  - apply concrete_wf. vm_compute. reflexivity.
  - apply concrete_wf. vm_compute. reflexivity.
Defined.

(** X15: when every entry of the player's grid agrees with the solution
    and some cell is still empty, [give_hint] fills a cell: the grid
    gains one entry, still agrees with the solution, and [hints_used]
    grows by 1. *)
Theorem give_hint_progress u s hints_used :
  wf u → valid_grid s → extends u s → ¬ full u →
  ∃ u' h,
    give_hint u s hints_used = Ok (u', hints_used + 1, Some h) ∧
    wf u' ∧ extends u' s ∧ clue_count u' = S (clue_count u).
Proof.
  intros Hu Hs Hext Hnotfull.
  assert (∀ i j, (i < 9)%nat → (j < 9)%nat → at_ u i j = 0 →
            candidates u i j ≠ []) as Hcand.
  { intros i j Hi Hj Hz Hnil.
    assert (at_ s i j ∈ candidates u i j) as Hin; [|by rewrite Hnil in Hin;
      apply elem_of_nil in Hin].
    unfold candidates. apply list_elem_of_filter.
    destruct Hs as (_ & Hdig & Hpeers). split; [|by apply elem_of_digits, Hdig].
    intros i' j' Hi' Hj' Hp Heq.
    assert (at_ u i' j' ≠ 0) as Hnz.
    { rewrite Heq. specialize (Hdig i j Hi Hj). lia. }
    rewrite <- (Hext i' j' Hi' Hj' Hnz) in Heq.
    by apply (Hpeers i j i' j'). }
  destruct (give_hint_spec u s hints_used Hu (proj1 Hs))
    as [[Hrun Hnone]|(i & j & Hi & Hj & Hz & Hrun & _)].
  - destruct Hnotfull. intros i j Hi Hj Hz.
    by apply (Hcand i j Hi Hj Hz), Hnone.
  - eexists _, _. split; [exact Hrun|].
    assert (at_ s i j ≠ 0) as Hv.
    { destruct Hs as (_ & Hdig & _). specialize (Hdig i j Hi Hj). lia. }
    split; [by apply upd_wf|]. split.
    + intros i' j' Hi' Hj'. rewrite at_upd by done.
      destruct (decide _) as [[<- <-]|]; [done|]. by apply Hext.
    + rewrite (clue_count_upd (upd u i j (at_ s i j)) i j);
        [|by apply upd_wf|done|done|by rewrite at_upd_same].
      by rewrite upd_upd, (upd_id u i j 0).
Qed.

Lemma sample_solution_valid :
  valid_grid sample_solution ∧ extends sample_puzzle sample_solution.
Proof.
  assert (wf sample_puzzle) as Hwf by (apply concrete_wf; vm_compute; reflexivity).
  assert (in_range sample_puzzle) as Hrng
    by (apply concrete_in_range; vm_compute; reflexivity).
  assert (conflict_free sample_puzzle) as Hcf.
  { apply is_valid_puzzle_conflict_free; [done|]. vm_compute. reflexivity. }
  destruct (solve_spec sample_puzzle Hwf) as (res & Hres & Htrue & _).
  assert (solve sample_puzzle = Ok (true, sample_solution)) as Hrun
    by (vm_compute; reflexivity).
  rewrite Hrun in Hres. injection Hres as <-. cbn [fst snd] in Htrue.
  apply (fills_completion _ _ Hwf Hrng Hcf) in Htrue; [|done].
  destruct Htrue as [Hsolved Hext]. split; [|done].
  by apply solved_valid_grid.
Qed.

Lemma give_hint_progress_witness :
  ∃ u' h,
    give_hint sample_puzzle sample_solution 3 = Ok (u', 3 + 1, Some h) ∧
    wf u' ∧ extends u' sample_solution ∧
    clue_count u' = S (clue_count sample_puzzle).
Proof.
  apply (give_hint_progress sample_puzzle sample_solution 3).
  - apply concrete_wf. vm_compute. reflexivity.
  - apply sample_solution_valid.
  - apply sample_solution_valid.
  - intros Hfull. apply (Hfull 0%nat 0%nat); [lia|lia|reflexivity].
Defined.

(** * Saving and loading *)

Section LoadProofs.
Context {char : Type}.
Variable isdigit : char → bool.
Variable isspace : char → bool.
Variable int_of_char : char → option Z.

(** ** What [load_from_file] accepts *)

Lemma load_row_inl js digits i row o :
  load_row int_of_char js digits i row = inl o →
  o = failed_to_load ∨ ∃ d, o = invalid_digit d.
Proof.
  revert row. induction js as [|j js IH]; intros row Hrun; [done|].
  cbn [load_row] in Hrun.
  destruct (digits !! (i * 9 + j)%nat) as [c|]; [|left; congruence].
  destruct (int_of_char c) as [digit|]; [|left; congruence].
  destruct (decide (digit < 0 ∨ digit > 9)) as [?|Hin]; [|by eapply IH].
  right. exists digit. congruence.
Qed.

Lemma load_rows_inl rows digits pre o :
  load_rows int_of_char rows digits pre = inl o →
  o = failed_to_load ∨ ∃ d, o = invalid_digit d.
Proof.
  revert pre. induction rows as [|i rows IH]; intros pre Hrun; [done|].
  cbn [load_rows] in Hrun.
  destruct (load_row int_of_char range9 digits i []) as [o'|row] eqn:Hrow;
    [|by eapply IH].
  injection Hrun as <-. by eapply load_row_inl.
Qed.

Lemma load_row_inr js digits i row row' :
  load_row int_of_char js digits i row = inr row' →
  ∃ vals, row' = row ++ vals ∧
    Forall2 (λ j v, digit_at int_of_char digits (i * 9 + j) v) js vals.
Proof.
  revert row. induction js as [|j js IH]; intros row Hrun.
  - injection Hrun as <-. exists []. split; [by rewrite app_nil_r|constructor].
  - cbn [load_row] in Hrun.
    destruct (digits !! (i * 9 + j)%nat) as [c|] eqn:Hc; [|done].
    destruct (int_of_char c) as [digit|] eqn:Hint; [|done].
    destruct (decide (digit < 0 ∨ digit > 9)) as [?|Hin]; [done|].
    apply IH in Hrun as (vals & -> & Hvals).
    exists (digit :: vals). split; [by rewrite <- app_assoc|].
    constructor; [|done]. exists c. split; [done|]. split; [done|]. lia.
Qed.

Lemma load_rows_inr rows digits pre b :
  load_rows int_of_char rows digits pre = inr b →
  ∃ rs, b = pre ++ rs ∧
    Forall2 (λ i r, Forall2 (λ j v, digit_at int_of_char digits (i * 9 + j) v) range9 r)
      rows rs.
Proof.
  revert pre. induction rows as [|i rows IH]; intros pre Hrun.
  - injection Hrun as <-. exists []. split; [by rewrite app_nil_r|constructor].
  - cbn [load_rows] in Hrun.
    destruct (load_row int_of_char range9 digits i []) as [o|row] eqn:Hrow;
      [done|].
    apply load_row_inr in Hrow as (vals & -> & Hvals).
    apply IH in Hrun as (rs & -> & Hrs).
    exists (vals :: rs). split; [by rewrite <- app_assoc|].
    by constructor.
Qed.

Lemma load_from_file_preview content b :
  load_from_file isdigit isspace int_of_char content = show_puzzle_preview b →
  let digits := filter (λ c, isdigit c = true) (strip isspace content) in
  length digits = 81%nat ∧ wf b ∧
  ∀ i j, (i < 9)%nat → (j < 9)%nat → digit_at int_of_char digits (i * 9 + j) (at_ b i j).
Proof.
  unfold load_from_file. cbv zeta.
  set (digits := filter (λ c, isdigit c = true) (strip isspace content)).
  destruct (decide (length digits ≠ 81%nat)) as [?|Hlen]; [done|].
  destruct (load_rows int_of_char range9 digits []) as [o|b'] eqn:Hrows.
  { apply load_rows_inl in Hrows as [->|[d ->]]; done. }
  intros [= ->]. split; [lia|].
  apply load_rows_inr in Hrows as (rs & -> & Hrs). rewrite app_nil_l.
  pose proof (Forall2_length _ _ _ Hrs) as Hlenrs.
  assert (∀ i r, rs !! i = Some r →
            Forall2 (λ j v, digit_at int_of_char digits (i * 9 + j) v) range9 r) as Hrow.
  { intros i r Hr.
    assert (i < 9)%nat as Hi.
    { change 9%nat with (length range9). rewrite Hlenrs.
      apply lookup_lt_is_Some. by exists r. }
    pose proof (Forall2_lookup_lr _ _ _ i i r Hrs) as H.
    apply H; [|done]. unfold range9. by rewrite lookup_seq_lt. }
  split.
  - split; [by rewrite <- Hlenrs|].
    apply Forall_lookup. intros i r Hr.
    by rewrite <- (Forall2_length _ _ _ (Hrow i r Hr)).
  - intros i j Hi Hj.
    destruct (lookup_lt_is_Some_2 rs i) as [r Hr]; [by rewrite <- Hlenrs|].
    pose proof (Hrow i r Hr) as Hcells.
    destruct (lookup_lt_is_Some_2 r j) as [v Hv].
    { by rewrite <- (Forall2_length _ _ _ Hcells). }
    unfold at_. rewrite Hr. cbn [mbind option_bind]. rewrite Hv.
    cbn [default from_option id].
    apply (Forall2_lookup_lr _ _ _ j j v Hcells); [|done].
    unfold range9. by rewrite lookup_seq_lt.
Qed.

End LoadProofs.

(** X16: whatever the file holds, [load_from_file] shows a preview only
    of a 9x9 grid with values in 0..9: the digit characters of the text,
    81 of them, read row by row. *)
Theorem load_from_file_grid {char : Type} (isdigit isspace : char → bool)
    (int_of_char : char → option Z) content b :
  load_from_file isdigit isspace int_of_char content = show_puzzle_preview b →
  wf b ∧ in_range b ∧
  length (filter (λ c, isdigit c = true) (strip isspace content)) = 81%nat ∧
  ∀ i j, (i < 9)%nat → (j < 9)%nat →
    ∃ c, filter (λ c, isdigit c = true) (strip isspace content)
           !! (i * 9 + j)%nat = Some c ∧
         int_of_char c = Some (at_ b i j).
Proof.
  intros Hrun.
  destruct (load_from_file_preview _ _ _ _ _ Hrun) as (Hlen & Hwf & Hcells).
  split; [done|]. split; [|split; [done|]].
  - apply in_range_of_at; [done|]. intros i j Hi Hj.
    by destruct (Hcells i j Hi Hj) as (c & _ & _ & Hv).
  - intros i j Hi Hj. destruct (Hcells i j Hi Hj) as (c & Hc & Hint & _).
    by exists c.
Qed.

Lemma load_from_file_grid_witness :
  wf sample_puzzle ∧ in_range sample_puzzle ∧
  length (filter (λ c, ascii_isdigit c = true)
            (strip ascii_isspace sample_text)) = 81%nat ∧
  ∀ i j, (i < 9)%nat → (j < 9)%nat →
    ∃ c, filter (λ c, ascii_isdigit c = true) (strip ascii_isspace sample_text)
           !! (i * 9 + j)%nat = Some c ∧
         ascii_int c = Some (at_ sample_puzzle i j).
Proof.
  apply (load_from_file_grid ascii_isdigit ascii_isspace ascii_int
           sample_text sample_puzzle).
  vm_compute. reflexivity.
Defined.

(** ** A saved file is not accepted back *)

Lemma cell_at b i j v : cell b i j = Ok v → at_ b i j = v.
Proof.
  unfold cell, at_. destruct (b !! i) as [row|]; [|done].
  cbn [mbind option_bind]. destruct (row !! j) as [w|]; [|done].
  by intros [= ->].
Qed.

Lemma list_bind_nil {A B} (f : A → list B) : [] ≫= f = [].
Proof. done. Qed.

Lemma list_bind_assoc {A B C} (f : A → list B) (g : B → list C) (l : list A) :
  (l ≫= f) ≫= g = l ≫= (λ x, f x ≫= g).
Proof.
  induction l as [|x l IH]; [done|].
  by rewrite !bind_cons, bind_app, IH.
Qed.

Lemma all_cells_bind {B} (f : nat * nat → list B) :
  all_cells ≫= f = range9 ≫= λ i, range9 ≫= λ j, f (i, j).
Proof.
  assert (all_cells = range9 ≫= λ i, range9 ≫= λ j, [(i, j)]) as ->
    by (vm_compute; reflexivity).
  rewrite list_bind_assoc. apply list_bind_ext; [|done]. intros i.
  rewrite list_bind_assoc. apply list_bind_ext; [|done]. intros j.
  by rewrite bind_cons, list_bind_nil, app_nil_r.
Qed.

Section SaveLoad.
Context {char : Type}.
Variable isdigit : char → bool.
Variable isspace : char → bool.
Variable int_of_char : char → option Z.
(** The characters of the texts the program writes, as characters of the
    text read back. *)
Variable of_ascii : Ascii.ascii → char.
(** Among the ASCII characters the digits are 0 to 9, and [strip] removes
    no digit. *)
Hypothesis isdigit_ascii : ∀ a,
  (Ascii.nat_of_ascii a < 128)%nat → isdigit (of_ascii a) = ascii_isdigit a.
Hypothesis isspace_not_digit : ∀ c, isspace c = true → isdigit c = false.
(** [int] reads an ASCII digit as its value. *)
Hypothesis int_of_ascii : ∀ a,
  (Ascii.nat_of_ascii a < 128)%nat → ascii_isdigit a = true →
  int_of_char (of_ascii a) = ascii_int a.

Lemma digs_app t1 t2 : digs isdigit of_ascii (t1 ++ t2) = digs isdigit of_ascii t1 ++ digs isdigit of_ascii t2.
Proof using Type. unfold digs. by rewrite fmap_app, filter_app. Qed.

Lemma digs_none t :
  forallb (λ a, Nat.ltb (Ascii.nat_of_ascii a) 128 && negb (ascii_isdigit a)) t
  = true →
  digs isdigit of_ascii t = [].
Proof using isdigit_ascii.
  induction t as [|a t IH]; [done|]. cbn [forallb].
  rewrite !andb_true_iff, Nat.ltb_lt, negb_true_iff.
  intros [[Ha Hd] Ht]. unfold digs in *.
  rewrite fmap_cons, filter_cons_False; [by apply IH|].
  rewrite isdigit_ascii by done. by rewrite Hd.
Qed.

Lemma digs_bar : digs isdigit of_ascii (lit " | ") = [].
Proof using isdigit_ascii. apply digs_none. vm_compute. reflexivity. Qed.

Lemma digs_blank : digs isdigit of_ascii (lit " ") = [].
Proof using isdigit_ascii. apply digs_none. vm_compute. reflexivity. Qed.

Lemma digs_hash : digs isdigit of_ascii (lit "# ") = [].
Proof using isdigit_ascii. apply digs_none. vm_compute. reflexivity. Qed.

Lemma digs_rule : digs isdigit of_ascii (lit "# ------+-------+------") = [].
Proof using isdigit_ascii. apply digs_none. vm_compute. reflexivity. Qed.

Lemma digs_title : digs isdigit of_ascii (lit "# Formatted view:") = [].
Proof using isdigit_ascii. apply digs_none. vm_compute. reflexivity. Qed.

Lemma digs_nl : digs isdigit of_ascii nl = [].
Proof using isdigit_ascii. apply digs_none. vm_compute. reflexivity. Qed.

Lemma lstrip_digits s :
  filter (λ c, isdigit c = true) (lstrip isspace s)
  = filter (λ c, isdigit c = true) s.
Proof using isspace_not_digit.
  induction s as [|c s IH]; [done|]. cbn [lstrip].
  destruct (isspace c) eqn:Hc; [|done].
  rewrite IH, filter_cons_False; [done|].
  by rewrite (isspace_not_digit c Hc).
Qed.

Lemma strip_digits s :
  filter (λ c, isdigit c = true) (strip isspace s)
  = filter (λ c, isdigit c = true) s.
Proof using isspace_not_digit.
  unfold strip.
  by rewrite filter_reverse, lstrip_digits, filter_reverse, lstrip_digits,
    reverse_involutive.
Qed.

Lemma puzzle_string_of_digs cs b acc p :
  puzzle_string_of cs b acc = Ok p →
  digs isdigit of_ascii p = digs isdigit of_ascii acc ++ (cs ≫= λ ij, digs isdigit of_ascii (str (at_ b ij.1 ij.2))).
Proof using Type.
  revert acc. induction cs as [|[i j] cs IH]; intros acc Hrun.
  - injection Hrun as <-. by rewrite list_bind_nil, app_nil_r.
  - cbn [puzzle_string_of] in Hrun.
    destruct (cell b i j) as [v| |] eqn:Hv; [|done..].
    apply cell_at in Hv as <-.
    apply IH in Hrun. rewrite Hrun, digs_app, bind_cons.
    by rewrite <- app_assoc.
Qed.

Lemma formatted_row_digs js b i acc row :
  formatted_row js b i acc = Ok row →
  digs isdigit of_ascii row = digs isdigit of_ascii acc ++ (js ≫= λ j, digs isdigit of_ascii (str (at_ b i j))).
Proof using isdigit_ascii.
  revert acc. induction js as [|j js IH]; intros acc Hrun.
  - injection Hrun as <-. by rewrite list_bind_nil, app_nil_r.
  - cbn [formatted_row] in Hrun.
    destruct (cell b i j) as [v| |] eqn:Hv; [|done..].
    apply cell_at in Hv as <-. cbn [mbind result_bind] in Hrun. cbv zeta in Hrun.
    apply IH in Hrun. rewrite Hrun, bind_cons.
    match goal with
    | |- digs _ _ ?t ++ _ = _ =>
        assert (digs isdigit of_ascii t
                = digs isdigit of_ascii acc
                  ++ digs isdigit of_ascii (str (at_ b i j))) as ->
    end.
    { repeat case_decide;
        rewrite ?digs_app, ?digs_bar, ?digs_blank, ?app_nil_r; done. }
    by rewrite <- app_assoc.
Qed.

Lemma formatted_view_digs rows b file out :
  formatted_view rows b file = Ok out →
  digs isdigit of_ascii out
  = digs isdigit of_ascii file ++ (rows ≫= λ i, range9 ≫= λ j, digs isdigit of_ascii (str (at_ b i j))).
Proof using isdigit_ascii.
  revert file. induction rows as [|i rows IH]; intros file Hrun.
  - injection Hrun as <-. by rewrite list_bind_nil, app_nil_r.
  - cbn [formatted_view] in Hrun.
    destruct (formatted_row range9 b i []) as [row| |] eqn:Hrow; [|done..].
    apply formatted_row_digs in Hrow. rewrite app_nil_l in Hrow.
    cbn [mbind result_bind] in Hrun. cbv zeta in Hrun.
    apply IH in Hrun. rewrite Hrun, bind_cons.
    match goal with
    | |- digs _ _ ?t ++ _ = _ =>
        assert (digs isdigit of_ascii t
                = digs isdigit of_ascii file
                  ++ digs isdigit of_ascii row) as ->
    end.
    { case_decide;
        rewrite !digs_app, ?digs_hash, ?digs_rule, ?digs_nl,
          ?app_nil_r, ?app_nil_l; done. }
    by rewrite Hrow, <- app_assoc.
Qed.

Lemma save_to_file_digs b text :
  save_to_file b = Ok text →
  digs isdigit of_ascii text
  = (all_cells ≫= λ ij, digs isdigit of_ascii (str (at_ b ij.1 ij.2)))
    ++ (all_cells ≫= λ ij, digs isdigit of_ascii (str (at_ b ij.1 ij.2))).
Proof using isdigit_ascii.
  unfold save_to_file. intros Hrun.
  destruct (puzzle_string_of all_cells b []) as [p| |] eqn:Hp; [|done..].
  cbn [mbind result_bind] in Hrun. cbv zeta in Hrun.
  apply puzzle_string_of_digs in Hp. rewrite app_nil_l in Hp.
  apply formatted_view_digs in Hrun. rewrite Hrun.
  rewrite !digs_app, Hp, digs_nl, digs_title.
  rewrite !app_nil_l, app_nil_r. f_equal.
  by rewrite (all_cells_bind (λ ij, digs isdigit of_ascii (str (at_ b ij.1 ij.2)))).
Qed.

Lemma save_then_load_digits b text :
  save_to_file b = Ok text →
  ∃ n, load_from_file isdigit isspace int_of_char (of_ascii <$> text)
       = invalid_file_format (2 * n).
Proof using isdigit_ascii isspace_not_digit.
  intros Hrun. apply save_to_file_digs in Hrun.
  unfold load_from_file. cbv zeta. unfold digs in Hrun at 1.
  rewrite strip_digits, Hrun.
  set (d := all_cells ≫= _).
  exists (length d). rewrite length_app.
  replace (length d + length d)%nat with (2 * length d)%nat by lia.
  rewrite decide_True by lia. done.
Qed.

(** *** Saving always succeeds on a 9x9 grid *)

Lemma puzzle_string_of_Ok cs b acc :
  wf b → (∀ i j, (i, j) ∈ cs → (i < 9)%nat ∧ (j < 9)%nat) →
  puzzle_string_of cs b acc
  = Ok (acc ++ (cs ≫= λ ij, str (at_ b ij.1 ij.2))).
Proof using Type.
  intros Hwf. revert acc. induction cs as [|[i j] cs IH]; intros acc Hcs.
  - by rewrite list_bind_nil, app_nil_r.
  - destruct (Hcs i j) as [Hi Hj]; [by left|].
    cbn [puzzle_string_of]. rewrite cell_wf by done. ok_step.
    rewrite IH by (intros; apply Hcs; by right).
    by rewrite bind_cons, <- app_assoc.
Qed.

Lemma formatted_row_Ok js b i acc :
  wf b → (i < 9)%nat → (∀ j, j ∈ js → (j < 9)%nat) →
  ∃ row, formatted_row js b i acc = Ok row.
Proof using Type.
  intros Hwf Hi. revert acc. induction js as [|j js IH]; intros acc Hjs.
  - by eexists.
  - cbn [formatted_row]. rewrite cell_wf by (done || apply Hjs; by left).
    ok_step. apply IH. intros; apply Hjs; by right.
Qed.

Lemma formatted_view_Ok rows b file :
  wf b → (∀ i, i ∈ rows → (i < 9)%nat) →
  ∃ out, formatted_view rows b file = Ok out.
Proof using Type.
  intros Hwf. revert file. induction rows as [|i rows IH]; intros file Hrows.
  - by eexists.
  - cbn [formatted_view].
    destruct (formatted_row_Ok range9 b i [] Hwf) as [row ->].
    { apply Hrows. by left. }
    { intros j. apply elem_of_range9. }
    ok_step. apply IH. intros; apply Hrows; by right.
Qed.

Lemma save_to_file_Ok b : wf b → ∃ text, save_to_file b = Ok text.
Proof using Type.
  intros Hwf. unfold save_to_file.
  rewrite puzzle_string_of_Ok by (done || intros i j; apply elem_of_all_cells).
  ok_step. apply formatted_view_Ok; [done|]. intros i. apply elem_of_range9.
Qed.

(** *** Grids with values in 0..9 *)

Lemma str_digit v :
  0 ≤ v ≤ 9 →
  ∃ a, str v = [a] ∧ (Ascii.nat_of_ascii a < 128)%nat ∧
       ascii_isdigit a = true ∧ ascii_int a = Some v.
Proof using Type.
  intros Hv.
  assert (v = 0 ∨ v = 1 ∨ v = 2 ∨ v = 3 ∨ v = 4 ∨ v = 5 ∨ v = 6 ∨ v = 7
          ∨ v = 8 ∨ v = 9) as Hcases by lia.
  repeat destruct Hcases as [->|Hcases]; try subst v;
    (eexists; split; [vm_compute; reflexivity|];
     split; [vm_compute; lia|]; split; vm_compute; reflexivity).
Qed.

Lemma digs_cell b i j :
  wf b → in_range b → (i < 9)%nat → (j < 9)%nat →
  ∃ a, str (at_ b i j) = [a] ∧ isdigit (of_ascii a) = true ∧
       (Ascii.nat_of_ascii a < 128)%nat ∧
       ascii_isdigit a = true ∧ ascii_int a = Some (at_ b i j).
Proof using isdigit_ascii.
  intros Hwf Hrng Hi Hj.
  destruct (str_digit (at_ b i j)) as (a & Hstr & Ha & Hd & Hint);
    [by apply in_range_at|].
  exists a. split; [done|]. split; [by rewrite isdigit_ascii|done].
Qed.

Lemma bind_singletons {A B} (f : A → list B) (g : A → B) (l : list A) :
  (∀ x, x ∈ l → f x = [g x]) → l ≫= f = g <$> l.
Proof using Type.
  induction l as [|x l IH]; intros Hf; [done|].
  rewrite bind_cons, fmap_cons, Hf by by left.
  by rewrite IH by (intros; apply Hf; by right).
Qed.

Lemma save_then_load_162 b :
  wf b → in_range b →
  ∃ text, save_to_file b = Ok text ∧
    load_from_file isdigit isspace int_of_char (of_ascii <$> text)
    = invalid_file_format 162.
Proof using isdigit_ascii isspace_not_digit.
  intros Hwf Hrng. destruct (save_to_file_Ok b Hwf) as [text Hrun].
  exists text. split; [done|].
  apply save_to_file_digs in Hrun.
  unfold load_from_file. cbv zeta. unfold digs in Hrun at 1.
  rewrite strip_digits, Hrun.
  set (d := all_cells ≫= _).
  assert (length d = 81%nat) as Hlen.
  { unfold d.
    rewrite (bind_singletons _
      (λ ij, default (of_ascii (Ascii.ascii_of_nat 48))
               (head (digs isdigit of_ascii (str (at_ b ij.1 ij.2)))))).
    - by rewrite length_fmap, length_all_cells.
    - intros [i j] [Hi Hj]%elem_of_all_cells. cbn [fst snd].
      destruct (digs_cell b i j Hwf Hrng Hi Hj) as (a & -> & Hd & _).
      unfold digs. cbn [fmap list_fmap].
      by rewrite filter_cons_True, filter_nil. }
  rewrite length_app, Hlen. done.
Qed.

(** *** The line of digits alone *)

Lemma lstrip_id s :
  (∀ c, c ∈ s → isspace c = false) → lstrip isspace s = s.
Proof using Type.
  destruct s as [|c s]; [done|]. intros Hs. cbn [lstrip].
  by rewrite Hs by by left.
Qed.

Lemma strip_id s :
  (∀ c, c ∈ s → isspace c = false) → strip isspace s = s.
Proof using Type.
  intros Hs. unfold strip. rewrite (lstrip_id s Hs).
  rewrite lstrip_id; [apply reverse_involutive|].
  intros c Hc. apply Hs. by rewrite elem_of_reverse in Hc.
Qed.

Lemma load_row_tab js digits i row (f : nat → Z) :
  (∀ j, j ∈ js → digit_at int_of_char digits (i * 9 + j) (f j)) →
  load_row int_of_char js digits i row = inr (row ++ (f <$> js)).
Proof using Type.
  revert row. induction js as [|j js IH]; intros row Hjs.
  - by rewrite app_nil_r.
  - destruct (Hjs j) as (c & Hc & Hint & Hv); [by left|].
    cbn [load_row]. rewrite Hc, Hint.
    rewrite decide_False by lia.
    rewrite IH by (intros; apply Hjs; by right).
    by rewrite fmap_cons, <- app_assoc.
Qed.

Lemma load_rows_tab rows digits pre (f : nat → nat → Z) :
  (∀ i j, i ∈ rows → j ∈ range9 →
     digit_at int_of_char digits (i * 9 + j) (f i j)) →
  load_rows int_of_char rows digits pre
  = inr (pre ++ ((λ i, f i <$> range9) <$> rows)).
Proof using Type.
  revert pre. induction rows as [|i rows IH]; intros pre Hrows.
  - by rewrite app_nil_r.
  - cbn [load_rows]. rewrite (load_row_tab range9 digits i [] (f i)).
    + rewrite IH by (intros; apply Hrows; [by right|done]).
      by rewrite fmap_cons, <- app_assoc.
    + intros j Hj. apply Hrows; [by left|done].
Qed.

Lemma board_tabulate b :
  wf b → (λ i, (λ j, at_ b i j) <$> range9) <$> range9 = b.
Proof using Type.
  intros Hwf. apply board_ext; [|done|].
  - split; [by rewrite length_fmap|].
    apply Forall_fmap, Forall_true. intros i. unfold compose.
    by rewrite length_fmap.
  - intros i j Hi Hj. unfold at_ at 1, range9.
    rewrite list_lookup_fmap, lookup_seq_lt by done.
    cbn [fmap option_fmap option_map mbind option_bind].
    by rewrite list_lookup_fmap, lookup_seq_lt by done.
Qed.

Lemma compact_round_trip b :
  wf b → in_range b →
  ∃ p, puzzle_string_of all_cells b [] = Ok p ∧ length p = 81%nat ∧
    load_from_file isdigit isspace int_of_char (of_ascii <$> p)
    = show_puzzle_preview b.
Proof using isdigit_ascii isspace_not_digit int_of_ascii.
  intros Hwf Hrng.
  rewrite puzzle_string_of_Ok by (done || intros i j; apply elem_of_all_cells).
  eexists. split; [reflexivity|]. rewrite app_nil_l.
  set (dchar := λ ij : nat * nat,
         default (Ascii.ascii_of_nat 48) (head (str (at_ b ij.1 ij.2)))).
  assert (∀ i j, (i < 9)%nat → (j < 9)%nat →
            str (at_ b i j) = [dchar (i, j)] ∧
            isdigit (of_ascii (dchar (i, j))) = true ∧
            int_of_char (of_ascii (dchar (i, j))) = Some (at_ b i j) ∧
            0 ≤ at_ b i j ≤ 9) as Hcell.
  { intros i j Hi Hj.
    destruct (digs_cell b i j Hwf Hrng Hi Hj) as (a & Hstr & Hd & Ha & Hda & Hint).
    unfold dchar. cbn [fst snd]. rewrite Hstr. cbn [head default from_option id].
    split; [done|]. split; [done|]. split; [|by apply in_range_at].
    by rewrite int_of_ascii. }
  rewrite (bind_singletons _ dchar).
  2:{ intros [i j] [Hi Hj]%elem_of_all_cells. by apply Hcell. }
  split; [by rewrite length_fmap, length_all_cells|].
  set (text := of_ascii <$> (dchar <$> all_cells)).
  assert (∀ c, c ∈ text → isdigit c = true) as Hall.
  { intros c Hc. unfold text in Hc.
    apply list_elem_of_fmap in Hc as (a & -> & Ha).
    apply list_elem_of_fmap in Ha as ([i j] & -> & [Hi Hj]%elem_of_all_cells).
    by apply Hcell. }
  unfold load_from_file. cbv zeta.
  rewrite strip_id.
  2:{ intros c Hc. destruct (isspace c) eqn:Hs; [|done].
      apply isspace_not_digit in Hs. rewrite (Hall c Hc) in Hs. done. }
  rewrite filter_all by (apply Forall_forall; intros c Hc; by apply Hall).
  assert (length text = 81%nat) as Hlen
    by (unfold text; by rewrite !length_fmap, length_all_cells).
  rewrite decide_False by lia.
  rewrite (load_rows_tab range9 text [] (λ i j, at_ b i j)).
  - by rewrite app_nil_l, board_tabulate.
  - intros i j Hi%elem_of_range9 Hj%elem_of_range9.
    exists (of_ascii (dchar (i, j))). unfold text.
    rewrite !list_lookup_fmap, (all_cells_lookup (i * 9 + j)) by lia.
    cbn [fmap option_fmap option_map].
    replace ((i * 9 + j) / 9)%nat with i by lia.
    replace ((i * 9 + j) mod 9)%nat with j by lia.
    split; [done|]. split; by apply Hcell.
Qed.

End SaveLoad.

(** X17: the text that [save_to_file] writes holds every cell twice, in
    the line of digits and in the formatted view, so [load_from_file]
    finds an even number of digit characters in it and rejects it as an
    invalid file format; for a 9x9 grid with values in 0..9 it finds
    162. *)
Theorem saved_file_rejected {char : Type} (isdigit isspace : char → bool)
    (int_of_char : char → option Z) (of_ascii : Ascii.ascii → char) :
  (∀ a, (Ascii.nat_of_ascii a < 128)%nat →
        isdigit (of_ascii a) = ascii_isdigit a) →
  (∀ c, isspace c = true → isdigit c = false) →
  (∀ b text, save_to_file b = Ok text →
     ∃ n, load_from_file isdigit isspace int_of_char (of_ascii <$> text)
          = invalid_file_format (2 * n)) ∧
  (∀ b, wf b → in_range b →
     ∃ text, save_to_file b = Ok text ∧
       load_from_file isdigit isspace int_of_char (of_ascii <$> text)
       = invalid_file_format 162).
Proof.
  intros Hdigit Hspace. split.
  - intros b text. by apply save_then_load_digits.
  - intros b. by apply save_then_load_162.
Qed.

Lemma saved_file_rejected_witness :
  (∀ b text, save_to_file b = Ok text →
     ∃ n, load_from_file ascii_isdigit ascii_isspace ascii_int (id <$> text)
          = invalid_file_format (2 * n)) ∧
  (∀ b, wf b → in_range b →
     ∃ text, save_to_file b = Ok text ∧
       load_from_file ascii_isdigit ascii_isspace ascii_int (id <$> text)
       = invalid_file_format 162).
Proof.
  apply (saved_file_rejected ascii_isdigit ascii_isspace ascii_int id).
  - intros a _. reflexivity.
  - intros c Hc. destruct c as [[] [] [] [] [] [] [] []]; try discriminate Hc;
      reflexivity.
Defined.

(** X18: the line of 81 digits with which a saved file begins, taken
    alone, is accepted by [load_from_file], which shows the preview of
    the very grid that was saved, for every 9x9 grid with values in
    0..9. *)
Theorem compact_line_loads {char : Type} (isdigit isspace : char → bool)
    (int_of_char : char → option Z) (of_ascii : Ascii.ascii → char) b :
  (∀ a, (Ascii.nat_of_ascii a < 128)%nat →
        isdigit (of_ascii a) = ascii_isdigit a) →
  (∀ c, isspace c = true → isdigit c = false) →
  (∀ a, (Ascii.nat_of_ascii a < 128)%nat → ascii_isdigit a = true →
        int_of_char (of_ascii a) = ascii_int a) →
  wf b → in_range b →
  ∃ puzzle_string,
    puzzle_string_of all_cells b [] = Ok puzzle_string ∧
    length puzzle_string = 81%nat ∧
    load_from_file isdigit isspace int_of_char (of_ascii <$> puzzle_string)
    = show_puzzle_preview b.
Proof.
  intros Hdigit Hspace Hint Hwf Hrng. by apply compact_round_trip.
Qed.

Lemma ascii_space_not_digit c :
  ascii_isspace c = true → ascii_isdigit c = false.
Proof.
  intros Hc. destruct c as [[] [] [] [] [] [] [] []]; try discriminate Hc;
    reflexivity.
Qed.

Lemma compact_line_loads_witness :
  ∃ puzzle_string,
    puzzle_string_of all_cells sample_puzzle [] = Ok puzzle_string ∧
    length puzzle_string = 81%nat ∧
    load_from_file ascii_isdigit ascii_isspace ascii_int (id <$> puzzle_string)
    = show_puzzle_preview sample_puzzle.
Proof.
  apply (compact_line_loads ascii_isdigit ascii_isspace ascii_int id
           sample_puzzle).
  - intros a _. reflexivity.
  - apply ascii_space_not_digit.
  - intros a _ _. reflexivity.
  - apply concrete_wf. vm_compute. reflexivity.
  - apply concrete_in_range. vm_compute. reflexivity.
Defined.

(** * Validating a loaded puzzle *)

(** ** The rule check of the preview *)

Lemma note_errors error_msg cells found : (note error_msg cells found).1 ≠ [].
Proof.
  unfold note. cbn [fst]. destruct (decide (error_msg ∈ found.1)) as [Hin|_].
  - intros Hnil. rewrite Hnil in Hin. by apply elem_of_nil in Hin.
  - intros Hnil. by apply app_nil in Hnil as [_ ?].
Qed.

Lemma scan_conflicts_spec {X} (hit : X → result bool) (error_msg : X → string)
    (cells : X → list (nat * nat)) (P : X → Prop) xs (found : findings) :
  (∀ x, x ∈ xs → ∃ t, hit x = Ok t ∧ (t = true ↔ P x)) →
  ∃ found', scan_conflicts hit error_msg cells xs found = Ok found' ∧
    (found'.1 = [] ↔ found.1 = [] ∧ ∀ x, x ∈ xs → ¬ P x) ∧
    (∀ c, c ∈ found'.2 ↔ c ∈ found.2 ∨ ∃ x, x ∈ xs ∧ P x ∧ c ∈ cells x).
Proof.
  revert found. induction xs as [|x xs IH]; intros found Hhit.
  - exists found. split; [done|]. split.
    + split; [|by intros [? _]]. intros Hnil. split; [done|].
      intros x Hx. by apply elem_of_nil in Hx.
    + intros c. split; [by left|]. intros [?|(x & Hx & _)]; [done|].
      by apply elem_of_nil in Hx.
  - destruct (Hhit x) as (t & Ht & HP); [by left|].
    cbn [scan_conflicts]. rewrite Ht. ok_step.
    assert (∀ y, y ∈ xs → ∃ t, hit y = Ok t ∧ (t = true ↔ P y)) as Hhit'.
    { intros y Hy. apply Hhit. by right. }
    destruct t.
    + destruct (IH (note (error_msg x) (cells x) found) Hhit')
        as (found' & Hrun & Herrs & Hcells).
      exists found'. split; [done|]. split.
      * split.
        -- intros Hnil. apply Herrs in Hnil as [Hnil _].
           by apply note_errors in Hnil.
        -- intros [_ Hnone]. destruct (Hnone x); [by left|by apply HP].
      * intros c. rewrite Hcells. unfold note. cbn [snd].
        rewrite elem_of_app. split.
        -- intros [[Hc|Hc]|(y & Hy & HPy & Hc)].
           ++ by left.
           ++ right. exists x. split; [by left|]. split; [by apply HP|done].
           ++ right. exists y. split; [by right|done].
        -- intros [Hc|(y & Hy & HPy & Hc)]; [by left; left|].
           apply elem_of_cons in Hy as [->|Hy]; [by left; right|].
           right. by exists y.
    + destruct (IH found Hhit') as (found' & Hrun & Herrs & Hcells).
      exists found'. split; [done|]. split.
      * rewrite Herrs. split; intros [Hnil Hnone]; (split; [done|]).
        -- intros y Hy. apply elem_of_cons in Hy as [->|Hy]; [|by apply Hnone].
           intros HPx. by apply HP in HPx.
        -- intros y Hy. apply Hnone. by right.
      * intros c. rewrite Hcells. split.
        -- intros [Hc|(y & Hy & HPy & Hc)]; [by left|].
           right. exists y. split; [by right|done].
        -- intros [Hc|(y & Hy & HPy & Hc)]; [by left|].
           apply elem_of_cons in Hy as [->|Hy].
           ++ by apply HP in HPy.
           ++ right. by exists y.
Qed.

Lemma elem_of_box_range i j r c :
  (r, c) ∈ box_range i j ↔
  (r / 3)%nat = (i / 3)%nat ∧ (c / 3)%nat = (j / 3)%nat.
Proof.
  unfold box_range. rewrite list_elem_of_bind. split.
  - intros (r' & Hrc & Hr). apply list_elem_of_bind in Hrc as (c' & Hrc & Hc).
    apply list_elem_of_singleton in Hrc. injection Hrc as -> ->.
    apply elem_of_seq in Hr, Hc. lia.
  - intros [Hr Hc]. exists r. split; [|apply elem_of_seq; lia].
    apply list_elem_of_bind. exists c.
    split; [by apply list_elem_of_singleton|apply elem_of_seq; lia].
Qed.

Lemma cell_conflicts_spec b i j (found : findings) :
  wf b → (i < 9)%nat → (j < 9)%nat →
  ∃ found', cell_conflicts b i j found = Ok found' ∧
    (found'.1 = [] ↔ found.1 = [] ∧ ¬ in_conflict b i j) ∧
    (∀ c, c ∈ found'.2 ↔
       c ∈ found.2 ∨
       (at_ b i j ≠ 0 ∧
        ∃ i' j', clash b i j i' j' ∧ (c = (i, j) ∨ c = (i', j')))).
Proof.
  intros Hwf Hi Hj. unfold cell_conflicts. rewrite cell_wf by done. ok_step.
  destruct (decide (at_ b i j ≠ 0)) as [Hnz|Hz].
  2:{ exists found. split; [done|]. split.
      - split; [|by intros [? _]]. intros Hnil. split; [done|]. by intros [? _].
      - intros c. split; [by left|]. by intros [?|[? _]]. }
  ok_step.
  destruct (scan_conflicts_spec
    (λ col, differs_and_holds (bool_decide (col ≠ j)) b i col (at_ b i j))
    (λ col, row_error i j col (at_ b i j)) (λ col, [(i, j); (i, col)])
    (λ col, col ≠ j ∧ at_ b i col = at_ b i j) range9 found)
    as (f1 & -> & Herr1 & Hcells1).
  { intros col Hcol. apply elem_of_range9 in Hcol.
    apply differs_and_holds_Ok; [done..|apply bool_decide_eq_true]. }
  ok_step.
  destruct (scan_conflicts_spec
    (λ row, differs_and_holds (bool_decide (row ≠ i)) b row j (at_ b i j))
    (λ row, column_error i j row (at_ b i j)) (λ row, [(i, j); (row, j)])
    (λ row, row ≠ i ∧ at_ b row j = at_ b i j) range9 f1)
    as (f2 & -> & Herr2 & Hcells2).
  { intros row Hrow. apply elem_of_range9 in Hrow.
    apply differs_and_holds_Ok; [done..|apply bool_decide_eq_true]. }
  ok_step.
  destruct (scan_conflicts_spec
    (λ rc : nat * nat,
       differs_and_holds (bool_decide (rc.1 ≠ i ∨ rc.2 ≠ j)) b rc.1 rc.2
         (at_ b i j))
    (λ rc, box_error i j rc.1 rc.2 (at_ b i j)) (λ rc, [(i, j); rc])
    (λ rc, (rc.1 ≠ i ∨ rc.2 ≠ j) ∧ at_ b rc.1 rc.2 = at_ b i j)
    (box_range i j) f2)
    as (f3 & -> & Herr3 & Hcells3).
  { intros [r c] Hrc. apply elem_of_box_range in Hrc as [Hr Hc].
    cbn [fst snd].
    apply differs_and_holds_Ok; [done|lia|lia|apply bool_decide_eq_true]. }
  exists f3. split; [done|].
  assert (∀ i' j', clash b i j i' j' ↔
            (i' = i ∧ (j' < 9)%nat ∧ j' ≠ j ∧ at_ b i j' = at_ b i j) ∨
            (j' = j ∧ (i' < 9)%nat ∧ i' ≠ i ∧ at_ b i' j = at_ b i j) ∨
            ((i', j') ∈ box_range i j ∧ (i' ≠ i ∨ j' ≠ j) ∧
             at_ b i' j' = at_ b i j)) as Hclash.
  { intros i' j'. unfold clash. rewrite peer_cases, elem_of_box_range. split.
    - intros (Hi' & Hj' & [[-> Hne]|[[Hne ->]|(Hb & Hs & Hne)]] & Hv).
      + left. done.
      + right. left. done.
      + right. right. done.
    - intros [(-> & Hj' & Hne & Hv)|[(-> & Hi' & Hne & Hv)|
               ([Hb Hs] & Hne & Hv)]].
      + repeat (split; [done|]). split; [|done]. left. done.
      + repeat (split; [done|]). split; [|done]. right. left. done.
      + split; [lia|]. split; [lia|]. split; [|done]. right. right. done. }
  split.
  - rewrite Herr3, Herr2, Herr1. unfold in_conflict. split.
    + intros [[[Hnil Hrow] Hcol] Hbox]. split; [done|].
      intros (_ & i' & j' & Hc). apply Hclash in Hc
        as [(-> & Hj' & Hne & Hv)|[(-> & Hi' & Hne & Hv)|(Hin & Hne & Hv)]].
      * apply (Hrow j'); [by apply elem_of_range9|done].
      * apply (Hcol i'); [by apply elem_of_range9|done].
      * by apply (Hbox (i', j')).
    + intros [Hnil Hnone]. split; [split; [split; [done|]|]|].
      * intros col Hcol%elem_of_range9 [Hne Hv]. apply Hnone.
        split; [done|]. exists i, col. apply Hclash. left. done.
      * intros row Hrow%elem_of_range9 [Hne Hv]. apply Hnone.
        split; [done|]. exists row, j. apply Hclash. right. left. done.
      * intros [r c] Hrc [Hne Hv]. cbn [fst snd] in *. apply Hnone.
        split; [done|]. exists r, c. apply Hclash. right. right. done.
  - intros c. rewrite Hcells3, Hcells2, Hcells1. split.
    + intros [[[Hc|(col & Hcol%elem_of_range9 & [Hne Hv] & Hc)]|
               (row & Hrow%elem_of_range9 & [Hne Hv] & Hc)]|
               ([r c'] & Hrc & [Hne Hv] & Hc)].
      * by left.
      * right. split; [done|]. exists i, col. split.
        { apply Hclash. left. done. }
        rewrite !elem_of_cons, elem_of_nil in Hc. tauto.
      * right. split; [done|]. exists row, j. split.
        { apply Hclash. right. left. done. }
        rewrite !elem_of_cons, elem_of_nil in Hc. tauto.
      * right. split; [done|]. exists r, c'. cbn [fst snd] in *. split.
        { apply Hclash. right. right. done. }
        rewrite !elem_of_cons, elem_of_nil in Hc. tauto.
    + intros [Hc|(_ & i' & j' & Hcl & Hc)]; [by repeat left|].
      assert (c ∈ [(i, j); (i', j')]) as Hin.
      { rewrite !elem_of_cons. tauto. }
      apply Hclash in Hcl
        as [(-> & Hj' & Hne & Hv)|[(-> & Hi' & Hne & Hv)|(Hrc & Hne & Hv)]].
      * left. left. right. exists j'.
        split; [by apply elem_of_range9|done].
      * left. right. exists i'. split; [by apply elem_of_range9|done].
      * right. by exists (i', j').
Qed.

Lemma preview_conflicts_spec cs b (found : findings) :
  wf b → (∀ i j, (i, j) ∈ cs → (i < 9)%nat ∧ (j < 9)%nat) →
  ∃ found', preview_conflicts cs b found = Ok found' ∧
    (found'.1 = [] ↔
       found.1 = [] ∧ ∀ i j, (i, j) ∈ cs → ¬ in_conflict b i j) ∧
    (∀ c, c ∈ found'.2 ↔
       c ∈ found.2 ∨
       ∃ i j, (i, j) ∈ cs ∧ at_ b i j ≠ 0 ∧
         ∃ i' j', clash b i j i' j' ∧ (c = (i, j) ∨ c = (i', j'))).
Proof.
  intros Hwf. revert found. induction cs as [|[i j] cs IH]; intros found Hcs.
  - exists found. split; [done|]. split.
    + split; [|by intros [? _]]. intros Hnil. split; [done|].
      intros i j Hin. by apply elem_of_nil in Hin.
    + intros c. split; [by left|]. intros [?|(i & j & Hin & _)]; [done|].
      by apply elem_of_nil in Hin.
  - destruct (Hcs i j) as [Hi Hj]; [by left|].
    cbn [preview_conflicts].
    destruct (cell_conflicts_spec b i j found Hwf Hi Hj)
      as (f1 & -> & Herr1 & Hcells1).
    ok_step.
    destruct (IH f1) as (f2 & -> & Herr2 & Hcells2).
    { intros; apply Hcs; by right. }
    exists f2. split; [done|]. split.
    + rewrite Herr2, Herr1. split.
      * intros [[Hnil Hnot] Hrest]. split; [done|]. intros i' j' Hin.
        apply elem_of_cons in Hin as [Heq|Hin]; [|by apply Hrest].
        by injection Heq as -> ->.
      * intros [Hnil Hall]. split; [split; [done|]|].
        -- apply Hall. by left.
        -- intros i' j' Hin. apply Hall. by right.
    + intros c. rewrite Hcells2, Hcells1. split.
      * intros [[Hc|Hc]|(i' & j' & Hin & Hrest)].
        -- by left.
        -- right. exists i, j. split; [by left|done].
        -- right. exists i', j'. split; [by right|done].
      * intros [Hc|(i' & j' & Hin & Hrest)]; [by left; left|].
        apply elem_of_cons in Hin as [Heq|Hin].
        -- injection Heq as -> ->. left. by right.
        -- right. by exists i', j'.
Qed.

Lemma conflict_free_in_conflict b :
  conflict_free b ↔ ∀ i j, (i < 9)%nat → (j < 9)%nat → ¬ in_conflict b i j.
Proof.
  unfold conflict_free, in_conflict, clash. split.
  - intros Hcf i j Hi Hj (Hnz & i' & j' & Hi' & Hj' & Hp & Hv).
    by apply (Hcf i j i' j').
  - intros Hnone i j i' j' Hi Hj Hi' Hj' Hp Hnz Hv.
    apply (Hnone i j Hi Hj). split; [done|]. by exists i', j'.
Qed.

Lemma clash_sym b i j i' j' :
  (i < 9)%nat → (j < 9)%nat → clash b i j i' j' → clash b i' j' i j.
Proof.
  intros Hi Hj (Hi' & Hj' & Hp & Hv).
  split; [done|]. split; [done|]. split; [by apply peer_sym|done].
Qed.

Lemma preview_conflicts_all b :
  wf b →
  ∃ errors cells,
    preview_conflicts all_cells b ([], []) = Ok (errors, cells) ∧
    (errors = [] ↔ conflict_free b) ∧
    ∀ i j, (i, j) ∈ cells ↔ (i < 9)%nat ∧ (j < 9)%nat ∧ in_conflict b i j.
Proof.
  intros Hwf.
  destruct (preview_conflicts_spec all_cells b ([], []) Hwf)
    as ([errors cells] & Hrun & Herr & Hcells).
  { intros i j. apply elem_of_all_cells. }
  exists errors, cells. split; [done|]. cbn [fst snd] in *. split.
  - rewrite Herr, conflict_free_in_conflict. split.
    + intros [_ Hall] i j Hi Hj. by apply Hall, elem_of_all_cells.
    + intros Hall. split; [done|]. intros i j [Hi Hj]%elem_of_all_cells.
      by apply Hall.
  - intros i j. rewrite Hcells. split.
    + intros [Hin|(i0 & j0 & [Hi0 Hj0]%elem_of_all_cells & Hnz & i' & j' & Hcl
                & Heq)]; [by apply elem_of_nil in Hin|].
      destruct Heq as [Heq|Heq]; injection Heq as -> ->.
      * split; [done|]. split; [done|]. split; [done|]. by exists i', j'.
      * pose proof Hcl as (Hi' & Hj' & Hp & Hv).
        split; [done|]. split; [done|]. split; [by rewrite Hv|].
        exists i0, j0. by apply clash_sym.
    + intros (Hi & Hj & Hnz & i' & j' & Hcl). right.
      exists i, j. split; [by apply elem_of_all_cells|]. split; [done|].
      exists i', j'. split; [done|by left].
Qed.

(** ** Clues and difficulty shown by the preview *)

Lemma count_clues_spec cs b n :
  wf b → (∀ i j, (i, j) ∈ cs → (i < 9)%nat ∧ (j < 9)%nat) →
  count_clues cs b n
  = Ok (n + Z.of_nat
              (length (filter (λ ij : nat * nat, at_ b ij.1 ij.2 ≠ 0) cs))).
Proof.
  intros Hwf. revert n. induction cs as [|[i j] cs IH]; intros n Hcs.
  - cbn. f_equal. lia.
  - destruct (Hcs i j) as [Hi Hj]; [by left|].
    cbn [count_clues]. rewrite (cell_wf b) by done. ok_step.
    rewrite IH by (intros; apply Hcs; by right).
    rewrite filter_cons. cbn [fst snd].
    destruct (decide (at_ b i j ≠ 0)); cbn [length]; f_equal; lia.
Qed.

Lemma count_clues_all b :
  wf b → count_clues all_cells b 0 = Ok (Z.of_nat (clue_count b)).
Proof.
  intros Hwf. rewrite count_clues_spec; [done..|].
  intros i j. apply elem_of_all_cells.
Qed.

Lemma length_one_iff {A} (L : list A) (s : A) :
  NoDup L → s ∈ L → length L = 1%nat ↔ ∀ s', s' ∈ L → s' = s.
Proof.
  intros Hnd Hs. split.
  - destruct L as [|x [|y L]]; [done| |done]. intros _ s' Hs'.
    apply list_elem_of_singleton in Hs, Hs'. congruence.
  - intros Hall. destruct L as [|x [|y L]]; [by apply elem_of_nil in Hs|done|].
    apply NoDup_cons in Hnd as [Hx _]. exfalso. apply Hx.
    rewrite (Hall x) by (by left). rewrite <- (Hall y) by (right; by left).
    by left.
Qed.

(** ** The three outcomes *)

Lemma validate_preview_spec (preview_puzzle : positive) (h : heap) b :
  h !! preview_puzzle = Some b → wf b →
  ∃ res h', validate_preview_puzzle preview_puzzle h = Ok (res, h') ∧
    h' !! preview_puzzle = Some b ∧
    match res with
    | validation_failed validation_errors conflict_cells =>
        h' = h ∧ ¬ conflict_free b ∧ validation_errors ≠ [] ∧
        ∀ i j, (i, j) ∈ conflict_cells
               ↔ (i < 9)%nat ∧ (j < 9)%nat ∧ in_conflict b i j
    | puzzle_unsolvable => conflict_free b ∧ ∀ s, ¬ fills b s
    | validation_passed test_board solution_count clues difficulty =>
        conflict_free b ∧ h !! test_board = None ∧
        (∃ s, h' !! test_board = Some s ∧ fills b s ∧
              (solution_count = 1 ↔ ∀ s', fills b s' → s' = s)) ∧
        1 ≤ solution_count ≤ 2 ∧
        clues = Z.of_nat (clue_count b) ∧
        difficulty = auto_difficulty clues
    end ∧
    ∀ l, is_Some (h !! l) → h' !! l = h !! l.
Proof.
  intros Hl Hwf. unfold validate_preview_puzzle.
  rewrite (load_lookup h preview_puzzle b Hl).
  destruct (preview_conflicts_all b Hwf)
    as (errors & cells & -> & Herr & Hcells).
  ok_step. destruct (decide (errors ≠ [])) as [Hne|Hnil].
  { eexists _, _. split; [done|]. split; [done|]. split; [|done].
    split; [done|]. split; [|done]. by rewrite <- Herr. }
  assert (conflict_free b) as Hcf.
  { apply Herr. by destruct errors; [|contradict Hnil]. }
  unfold deepcopy, alloc, call.
  rewrite (load_lookup h preview_puzzle b Hl).
  set (tb := fresh (dom h)).
  assert (preview_puzzle ≠ tb) as Hfresh.
  { apply fresh_not_lookup. by exists b. }
  assert (h !! tb = None) as Htb.
  { apply not_elem_of_dom, is_fresh. }
  rewrite (load_lookup _ tb b) by apply lookup_insert_eq.
  destruct (solve_spec b Hwf) as ([ok s] & -> & Htrue & Hfalse).
  cbn [fst snd] in *. ok_step. destruct ok.
  2:{ destruct Hfalse as [-> Hnone]; [done|].
      eexists _, _. split; [done|].
      split; [by rewrite !lookup_insert_ne|].
      split; [done|].
      intros l Hsome. apply fresh_not_lookup in Hsome.
      by rewrite !lookup_insert_ne. }
  specialize (Htrue eq_refl).
  destruct (fills_listable b Hwf) as (L & Hnd & HL).
  set (h2 := <[tb := s]> (<[tb := b]> h)).
  assert (h2 !! preview_puzzle = Some b) as Hl2.
  { unfold h2. by rewrite !lookup_insert_ne. }
  destruct (count_solutions_spec preview_puzzle 2 h2 b L Hl2 Hwf Hnd HL)
    as (h3 & -> & Hframe).
  ok_step.
  assert (h3 !! preview_puzzle = Some b) as Hl3.
  { rewrite Hframe; [done|by exists b]. }
  rewrite (load_lookup h3 preview_puzzle b Hl3), (count_clues_all b Hwf).
  ok_step.
  assert (s ∈ L) as Hs by by apply HL.
  assert (1 ≤ length L)%nat as Hlen.
  { destruct L; [by apply elem_of_nil in Hs|cbn; lia]. }
  eexists _, _. split; [done|]. split; [done|]. split.
  - split; [done|]. split; [done|]. split.
    + exists s. split.
      { rewrite Hframe; [apply lookup_insert_eq|].
        exists s. apply lookup_insert_eq. }
      split; [done|].
      assert ((∀ s', fills b s' → s' = s) ↔ ∀ s', s' ∈ L → s' = s) as ->.
      { split; intros Hall s' Hs'; apply Hall; by apply HL. }
      rewrite <- (length_one_iff L s Hnd Hs).
      change (Z.to_nat 2) with 2%nat. lia.
    + change (Z.to_nat 2) with 2%nat. split; [lia|done].
  - intros l Hsome. rewrite Hframe.
    + apply fresh_not_lookup in Hsome. unfold h2.
      by rewrite !lookup_insert_ne.
    + apply fresh_not_lookup in Hsome as Hne. unfold h2.
      by rewrite !lookup_insert_ne.
Qed.

(** X19: on a 9x9 grid, [validate_preview_puzzle] ends with VALIDATION
    FAILED exactly when [is_valid_puzzle] returns [False] on the grid.  It
    has then created and changed no board, it lists at least one message,
    and the cells it marks are exactly the non-zero cells that share
    their value with a cell of their row, column or box. *)
Theorem preview_rule_check (preview_puzzle : positive) (h : heap) b :
  h !! preview_puzzle = Some b → wf b →
  ∃ res h', validate_preview_puzzle preview_puzzle h = Ok (res, h') ∧
    ((∃ errors cells, res = validation_failed errors cells)
     ↔ is_valid_puzzle b = Ok (false, b)) ∧
    ∀ errors cells, res = validation_failed errors cells →
      h' = h ∧ errors ≠ [] ∧
      ∀ i j, (i, j) ∈ cells ↔ (i < 9)%nat ∧ (j < 9)%nat ∧ in_conflict b i j.
Proof.
  intros Hl Hwf.
  destruct (validate_preview_spec preview_puzzle h b Hl Hwf)
    as (res & h' & Hrun & _ & Hres & _).
  exists res, h'. split; [done|].
  destruct (is_valid_puzzle_spec b Hwf) as (r & Hr & Hiff). split.
  - rewrite Hr. split.
    + intros (errors & cells & ->). destruct Hres as (_ & Hncf & _).
      destruct r; [|done]. exfalso. by apply Hncf, Hiff.
    + intros Heq. assert (r = false) as -> by congruence.
      assert (¬ conflict_free b) as Hncf.
      { intros Hcf. by apply Hiff in Hcf. }
      destruct res as [errors cells| |tb n c d]; [by exists errors, cells|..].
      * by destruct Hres as [Hcf _].
      * by destruct Hres as [Hcf _].
  - intros errors cells ->. destruct Hres as (-> & _ & Hne & Hcells). done.
Qed.

Lemma preview_rule_check_witness :
  ∃ res h',
    validate_preview_puzzle 1%positive {[ 1%positive := ones_board ]}
    = Ok (res, h') ∧
    ((∃ errors cells, res = validation_failed errors cells)
     ↔ is_valid_puzzle ones_board = Ok (false, ones_board)) ∧
    ∀ errors cells, res = validation_failed errors cells →
      h' = {[ 1%positive := ones_board ]} ∧ errors ≠ [] ∧
      ∀ i j, (i, j) ∈ cells
             ↔ (i < 9)%nat ∧ (j < 9)%nat ∧ in_conflict ones_board i j.
Proof.
  apply (preview_rule_check 1%positive {[ 1%positive := ones_board ]}
           ones_board).
  - reflexivity.
  - apply concrete_wf. vm_compute. reflexivity.
Defined.

(** X20: on a 9x9 grid of values 0..9, [validate_preview_puzzle] never
    changes the previewed board nor any other board that existed.  It ends
    with VALIDATION PASSED exactly when the grid has a completion and with
    PUZZLE UNSOLVABLE exactly when it breaks no rule and has none.  When
    it passes, the solution it hands on is a new board holding a
    completion of the grid, the solution count shown is 1 or 2 and is 1
    exactly when that completion is the only one, the clue count is the
    number of non-zero cells and the difficulty is read off it. *)
Theorem preview_outcome (preview_puzzle : positive) (h : heap) b :
  h !! preview_puzzle = Some b → wf b → in_range b →
  ∃ res h', validate_preview_puzzle preview_puzzle h = Ok (res, h') ∧
    (∀ l, is_Some (h !! l) → h' !! l = h !! l) ∧
    ((∃ test_board solution_count clues difficulty,
        res = validation_passed test_board solution_count clues difficulty)
     ↔ ∃ s, completion b s) ∧
    (res = puzzle_unsolvable ↔ conflict_free b ∧ ¬ ∃ s, completion b s) ∧
    ∀ test_board solution_count clues difficulty,
      res = validation_passed test_board solution_count clues difficulty →
      h !! test_board = None ∧
      (∃ s, h' !! test_board = Some s ∧ completion b s ∧
            (solution_count = 1 ↔ ∀ s', completion b s' → s' = s)) ∧
      (solution_count = 1 ∨ solution_count = 2) ∧
      clues = Z.of_nat (clue_count b) ∧
      difficulty = auto_difficulty clues.
Proof.
  intros Hl Hwf Hrng.
  destruct (validate_preview_spec preview_puzzle h b Hl Hwf)
    as (res & h' & Hrun & _ & Hres & Hframe).
  exists res, h'. split; [done|]. split; [done|].
  assert (∀ s, completion b s → conflict_free b) as Hcompl.
  { intros s [Hs Hext].
    by apply (below_valid b s Hwf (solved_valid_grid s Hs) Hext). }
  destruct res as [errors cells| |tb n c d].
  - destruct Hres as (_ & Hncf & _). split; [|split; [|done]].
    + split; [by intros (? & ? & ? & ? & ?)|].
      intros [s Hs]. exfalso. by apply Hncf, (Hcompl s).
    + split; [done|]. by intros [Hcf _].
  - destruct Hres as [Hcf Hnone]. split; [|split; [|done]].
    + split; [by intros (? & ? & ? & ? & ?)|].
      intros [s Hs]. exfalso. apply (Hnone s).
      by apply (fills_completion b s Hwf Hrng Hcf).
    + split; [|done]. intros _. split; [done|]. intros [s Hs].
      apply (Hnone s). by apply (fills_completion b s Hwf Hrng Hcf).
  - destruct Hres as (Hcf & Hnew & (s & Hs & Hfills & Hone) & Hn & Hc & Hd).
    apply (fills_completion b s Hwf Hrng Hcf) in Hfills.
    split; [|split].
    + split; [by exists s|]. intros _. by exists tb, n, c, d.
    + split; [done|]. intros [_ Hnone]. exfalso. apply Hnone. by exists s.
    + intros tb' n' c' d' Heq. injection Heq as <- <- <- <-.
      split; [done|]. split; [|split; [lia|done]].
      exists s. split; [done|]. split; [done|]. rewrite Hone.
      split; intros Hall s' Hs'; apply Hall;
        by apply (fills_completion b s' Hwf Hrng Hcf).
Qed.

Lemma preview_outcome_witness :
  ∃ res h',
    validate_preview_puzzle 1%positive {[ 1%positive := sample_puzzle ]}
    = Ok (res, h') ∧
    (∀ l, is_Some (({[ 1%positive := sample_puzzle ]} : heap) !! l) →
          h' !! l = ({[ 1%positive := sample_puzzle ]} : heap) !! l) ∧
    ((∃ test_board solution_count clues difficulty,
        res = validation_passed test_board solution_count clues difficulty)
     ↔ ∃ s, completion sample_puzzle s) ∧
    (res = puzzle_unsolvable
     ↔ conflict_free sample_puzzle ∧ ¬ ∃ s, completion sample_puzzle s) ∧
    ∀ test_board solution_count clues difficulty,
      res = validation_passed test_board solution_count clues difficulty →
      ({[ 1%positive := sample_puzzle ]} : heap) !! test_board = None ∧
      (∃ s, h' !! test_board = Some s ∧ completion sample_puzzle s ∧
            (solution_count = 1
             ↔ ∀ s', completion sample_puzzle s' → s' = s)) ∧
      (solution_count = 1 ∨ solution_count = 2) ∧
      clues = Z.of_nat (clue_count sample_puzzle) ∧
      difficulty = auto_difficulty clues.
Proof.
  apply (preview_outcome 1%positive {[ 1%positive := sample_puzzle ]}
           sample_puzzle).
  - reflexivity.
  - apply concrete_wf. vm_compute. reflexivity.
  - apply concrete_in_range. vm_compute. reflexivity.
Defined.

(** X21: [validate_preview_puzzle] passes every puzzle returned by
    [generate_puzzle]: it shows one solution, hands on a board equal to
    the generator's solution, and shows a difficulty that is never harder
    than the one asked for: "easy" for an easy puzzle, "easy" or "medium"
    for a medium one or an unknown difficulty, and "expert" only for an
    expert one. *)
Theorem generated_puzzle_preview {rng : Type}
    (shuffle : ∀ A : Type, list A → rng → list A * rng) difficulty g :
  (∀ A (l : list A) g, (shuffle A l g).1 ≡ₚ l) →
  ∃ puzzle solution g',
    generate_puzzle shuffle difficulty g = Ok (puzzle, solution, g') ∧
    ∀ (h : heap) preview_puzzle, h !! preview_puzzle = Some puzzle →
      ∃ test_board clues shown h',
        validate_preview_puzzle preview_puzzle h
        = Ok (validation_passed test_board 1 clues shown, h') ∧
        h' !! test_board = Some solution ∧
        (difficulty = "easy" → shown = "easy") ∧
        (difficulty ≠ "hard" → difficulty ≠ "expert" →
         shown = "easy" ∨ shown = "medium") ∧
        (difficulty ≠ "expert" → shown ≠ "expert").
Proof.
  intros Hperm.
  destruct (generate_puzzle_spec shuffle Hperm difficulty g)
    as (puzzle & solution & g' & Hrun & Hwf & Hsol & Hext & Huniq & Hcount).
  exists puzzle, solution, g'. split; [done|]. intros h p Hl.
  destruct (validate_preview_spec p h puzzle Hl Hwf)
    as (res & h' & Hprev & _ & Hres & _).
  pose proof (below_valid_fills puzzle solution Hwf Hsol Hext) as Hfills.
  destruct (below_valid puzzle solution Hwf Hsol Hext) as [_ Hcf].
  destruct res as [errors cells| |tb n c d].
  { by destruct Hres as (_ & Hncf & _). }
  { destruct Hres as [_ Hnone]. by destruct (Hnone solution). }
  destruct Hres as (_ & _ & (s & Hs & Hfs & Hone) & _ & Hc & Hd).
  assert (s = solution) as -> by by apply Huniq.
  assert (n = 1) as ->.
  { apply Hone. intros s' Hs'. by apply Huniq. }
  exists tb, c, d, h'. split; [done|]. split; [done|].
  assert (∀ name t, difficulty_levels !! name = Some t →
            (name = "easy" ∧ t = 40) ∨ (name = "medium" ∧ t = 32) ∨
            (name = "hard" ∧ t = 26) ∨ (name = "expert" ∧ t = 22))
    as Htable.
  { intros name t Ht. apply elem_of_map_to_list in Ht.
    assert (map_to_list difficulty_levels
            ≡ₚ [("easy", 40); ("medium", 32); ("hard", 26); ("expert", 22)])
      as Hlist.
    { apply (bool_decide_unpack _). vm_compute. reflexivity. }
    rewrite Hlist in Ht.
    rewrite !elem_of_cons, elem_of_nil, !pair_equal_spec in Ht. tauto. }
  assert (difficulty_levels !! "easy" = Some 40) as Heasy by reflexivity.
  rewrite Hd. unfold auto_difficulty.
  destruct (difficulty_levels !! difficulty) as [t|] eqn:Ht;
    cbn [default from_option id] in Hcount.
  - apply Htable in Ht as [[-> ->]|[[-> ->]|[[-> ->]|[-> ->]]]];
      repeat case_decide; try lia; (split; [|split]); intros; try done;
      auto.
  - repeat case_decide; try lia; (split; [|split]); intros; try done; auto.
    subst difficulty. by rewrite Heasy in Ht.
Qed.

Lemma generated_puzzle_preview_witness :
  ∃ puzzle solution g',
    generate_puzzle no_shuffle "easy" () = Ok (puzzle, solution, g') ∧
    ∀ (h : heap) preview_puzzle, h !! preview_puzzle = Some puzzle →
      ∃ test_board clues shown h',
        validate_preview_puzzle preview_puzzle h
        = Ok (validation_passed test_board 1 clues shown, h') ∧
        h' !! test_board = Some solution ∧
        ("easy" = "easy" → shown = "easy") ∧
        ("easy" ≠ "hard" → "easy" ≠ "expert" →
         shown = "easy" ∨ shown = "medium") ∧
        ("easy" ≠ "expert" → shown ≠ "expert").
Proof.
  apply (generated_puzzle_preview no_shuffle "easy" ()).
  intros A l g. reflexivity.
Defined.

(** * A game in progress *)

(** ** The countdown *)

Lemma reset_timer_count_down st :
  timer_mode st = "count_down" →
  reset_timer st = (set_timer st (countdown_minutes st * 60) true, None).
Proof.
  intros Hmode. unfold reset_timer. rewrite Hmode.
  destruct (decide _) as [Heq|_]; [done|].
  destruct (decide _) as [_|Hne]; done.
Qed.

Lemma update_timer_count_down st seconds running :
  timer_mode st = "count_down" → game_completed st = false →
  update_timer (set_timer st seconds running)
  = if running then
      if decide (seconds > 0) then
        (set_timer st (seconds - 1) true,
         Some (clock (seconds / 60) (seconds mod 60),
               if decide (seconds ≤ 60) then error
               else if decide (seconds ≤ 300) then warning
               else button_color), false)
      else (set_timer st seconds false, Some (times_up, error), true)
    else (set_timer st seconds running, None, false).
Proof.
  intros Hmode Hgame. unfold update_timer, set_timer.
  cbn [game_completed timer_mode timer_running timer_seconds puzzle
       original_puzzle user_puzzle solution hints_used countdown_minutes].
  rewrite Hgame, Hmode. cbn [negb].
  destruct (decide ("count_down" = "count_up" ∧ _)) as [[Heq _]|_]; [done|].
  destruct running.
  - destruct (decide _) as [_|Hn]; [|by destruct Hn].
    destruct (decide (seconds > 0)); done.
  - destruct (decide _) as [[_ Heq]|_]; [done|].
    destruct (decide _) as [Heq|_]; done.
Qed.

Lemma timer_after_count_down st n :
  timer_mode st = "count_down" → game_completed st = false →
  timer_after n (reset_timer st).1
  = if decide (Z.of_nat n ≤ Z.max 0 (countdown_minutes st * 60))
    then set_timer st (countdown_minutes st * 60 - Z.of_nat n) true
    else set_timer st (Z.min 0 (countdown_minutes st * 60)) false.
Proof.
  intros Hmode Hgame. rewrite (reset_timer_count_down st Hmode).
  cbn [fst]. induction n as [|n IH].
  - unfold timer_after. cbn [Nat.iter nat_rect]. rewrite decide_True by lia.
    f_equal. lia.
  - unfold timer_after in *. rewrite Nat.iter_succ, IH.
    destruct (decide (Z.of_nat n ≤ _)) as [Hle|Hgt].
    + rewrite (update_timer_count_down st _ true Hmode Hgame).
      destruct (decide (_ > 0)) as [Hpos|Hzero]; cbn [fst].
      * rewrite decide_True by lia. f_equal. lia.
      * rewrite decide_False by lia. f_equal. lia.
    + rewrite (update_timer_count_down st _ false Hmode Hgame). cbn [fst].
      by rewrite decide_False by lia.
Qed.

(** X22: in countdown mode and while the game is not completed, the runs
    of [update_timer] that follow a [reset_timer] count the seconds of
    [countdown_minutes] down by one each: a run with time left shows it
    as minutes and seconds, in the error colour for the last 60 seconds
    and in the warning colour for the last 300; the run that finds no
    time left shows that the time is up, warns the player and stops the
    timer; every later run shows nothing and changes nothing.  This holds
    for every value of [countdown_minutes]: when it is not negative the
    counter never goes below zero; when it is negative the counter starts
    below zero, the first run already shows that the time is up, and the
    counter keeps its value. *)
Theorem countdown_runs st n :
  timer_mode st = "count_down" → game_completed st = false →
  let total := countdown_minutes st * 60 in
  let left := total - Z.of_nat n in
  let before := timer_after n (reset_timer st).1 in
  ∃ after shown warned,
    update_timer before = (after, shown, warned) ∧
    Z.min 0 total ≤ timer_seconds after ∧
    (0 < left →
       shown = Some (clock (left / 60) (left mod 60),
                     if decide (left ≤ 60) then error
                     else if decide (left ≤ 300) then warning
                     else button_color) ∧
       warned = false ∧ timer_seconds after = left - 1 ∧
       timer_running after = true) ∧
    (Z.of_nat n = Z.max 0 total →
       shown = Some (times_up, error) ∧ warned = true ∧
       timer_seconds after = Z.min 0 total ∧
       timer_running after = false) ∧
    (Z.max 0 total < Z.of_nat n →
       shown = None ∧ warned = false ∧ after = before ∧
       timer_seconds after = Z.min 0 total ∧
       timer_running after = false).
Proof.
  intros Hmode Hgame total left before. subst before.
  rewrite (timer_after_count_down st n Hmode Hgame).
  fold total. fold left. destruct (decide (Z.of_nat n ≤ _)) as [Hle|Hgt].
  - rewrite (update_timer_count_down st _ true Hmode Hgame).
    destruct (decide (left > 0)) as [Hpos|Hzero].
    + eexists _, _, _. split; [done|]. cbn [set_timer timer_seconds].
      split; [lia|]. split; [done|]. split; intros; lia.
    + eexists _, _, _. split; [done|].
      cbn [set_timer timer_seconds timer_running].
      split; [lia|]. split; [intros; lia|]. split; [|intros; lia].
      intros _. split; [done|]. split; [done|]. split; [lia|done].
  - rewrite (update_timer_count_down st _ false Hmode Hgame).
    eexists _, _, _. split; [done|].
    cbn [set_timer timer_seconds timer_running].
    split; [lia|]. split; [intros; lia|]. split; [intros; lia|]. done.
Qed.

Lemma countdown_runs_witness :
  (let total := countdown_minutes sample_game * 60 in
   let left := total - Z.of_nat 870 in
   let before := timer_after 870 (reset_timer sample_game).1 in
   ∃ after shown warned,
     update_timer before = (after, shown, warned) ∧
     Z.min 0 total ≤ timer_seconds after ∧
     (0 < left →
        shown = Some (clock (left / 60) (left mod 60),
                      if decide (left ≤ 60) then error
                      else if decide (left ≤ 300) then warning
                      else button_color) ∧
        warned = false ∧ timer_seconds after = left - 1 ∧
        timer_running after = true) ∧
     (Z.of_nat 870 = Z.max 0 total →
        shown = Some (times_up, error) ∧ warned = true ∧
        timer_seconds after = Z.min 0 total ∧
        timer_running after = false) ∧
     (Z.max 0 total < Z.of_nat 870 →
        shown = None ∧ warned = false ∧ after = before ∧
        timer_seconds after = Z.min 0 total ∧
        timer_running after = false)) ∧
  (let total := countdown_minutes negative_game * 60 in
   let left := total - Z.of_nat 0 in
   let before := timer_after 0 (reset_timer negative_game).1 in
   ∃ after shown warned,
     update_timer before = (after, shown, warned) ∧
     Z.min 0 total ≤ timer_seconds after ∧
     (0 < left →
        shown = Some (clock (left / 60) (left mod 60),
                      if decide (left ≤ 60) then error
                      else if decide (left ≤ 300) then warning
                      else button_color) ∧
        warned = false ∧ timer_seconds after = left - 1 ∧
        timer_running after = true) ∧
     (Z.of_nat 0 = Z.max 0 total →
        shown = Some (times_up, error) ∧ warned = true ∧
        timer_seconds after = Z.min 0 total ∧
        timer_running after = false) ∧
     (Z.max 0 total < Z.of_nat 0 →
        shown = None ∧ warned = false ∧ after = before ∧
        timer_seconds after = Z.min 0 total ∧
        timer_running after = false)).
Proof.
  split.
  - apply (countdown_runs sample_game 870); reflexivity.
  - apply (countdown_runs negative_game 0); reflexivity.
Defined.

(** ** Loading a previewed puzzle *)

Lemma reset_timer_boards st :
  puzzle (reset_timer st).1 = puzzle st ∧
  original_puzzle (reset_timer st).1 = original_puzzle st ∧
  user_puzzle (reset_timer st).1 = user_puzzle st ∧
  solution (reset_timer st).1 = solution st ∧
  hints_used (reset_timer st).1 = hints_used st ∧
  game_completed (reset_timer st).1 = game_completed st.
Proof. unfold reset_timer. by repeat case_decide. Qed.

Lemma other_element {A} `{EqDecision A} (L : list A) (s : A) :
  (∀ s', s' ∈ L → s' = s) ∨ ∃ s', s' ∈ L ∧ s' ≠ s.
Proof.
  induction L as [|x L [IH|(s' & Hin & Hne)]].
  - left. intros s' Hin. by apply elem_of_nil in Hin.
  - destruct (decide (x = s)) as [->|Hne].
    + left. intros s' [->|Hin]%elem_of_cons; [done|by apply IH].
    + right. exists x. split; [by left|done].
  - right. exists s'. split; [by right|done].
Qed.

(** X23: when [validate_preview_puzzle] has passed a 9x9 grid of values
    0..9 and [confirm_load_puzzle] loads it, the game's puzzle is the
    previewed board itself, [original_puzzle] and [user_puzzle] are two
    new boards with the same content, and the solution is the board the
    preview solved, a completion of the puzzle; hints and completion are
    reset.  [is_puzzle_complete] then accepts that completion only: when
    the preview showed 2 solutions, and only then, the puzzle has a
    completion that [is_puzzle_complete] rejects. *)
Theorem loaded_puzzle_solution (preview_puzzle : positive) (h : heap) b st :
  h !! preview_puzzle = Some b → wf b → in_range b →
  ∃ res h1, validate_preview_puzzle preview_puzzle h = Ok (res, h1) ∧
    ∀ test_board solution_count clues difficulty,
      res = validation_passed test_board solution_count clues difficulty →
      ∃ st' h2 s,
        confirm_load_puzzle preview_puzzle test_board st h1 = (st', h2) ∧
        puzzle st' = preview_puzzle ∧ solution st' = test_board ∧
        NoDup [puzzle st'; original_puzzle st'; user_puzzle st';
               solution st'] ∧
        h2 !! puzzle st' = Some b ∧ h2 !! original_puzzle st' = Some b ∧
        h2 !! user_puzzle st' = Some b ∧ h2 !! solution st' = Some s ∧
        hints_used st' = 0 ∧ game_completed st' = false ∧
        completion b s ∧
        (∀ u, wf u →
           ∃ r, is_puzzle_complete u s = Ok r ∧ (r = true ↔ u = s)) ∧
        (solution_count = 2
         ↔ ∃ s', completion b s' ∧ is_puzzle_complete s' s = Ok false).
Proof.
  intros Hl Hwf Hrng.
  destruct (validate_preview_spec preview_puzzle h b Hl Hwf)
    as (res & h1 & Hrun & Hl1 & Hres & _).
  exists res, h1. split; [done|]. intros tb n c d ->.
  destruct Hres as (Hcf & Hnew & (s & Hs & Hfills & Hone) & Hn & _ & _).
  unfold confirm_load_puzzle, deepcopy, alloc.
  rewrite (load_lookup h1 preview_puzzle b Hl1).
  set (o := fresh (dom h1)). set (h1' := <[o := b]> h1).
  assert (h1' !! preview_puzzle = Some b) as Hl1'.
  { unfold h1'. rewrite lookup_insert_ne; [done|].
    intros Heq. apply (fresh_not_lookup h1 preview_puzzle); [by exists b|].
    done. }
  rewrite (load_lookup h1' preview_puzzle b Hl1').
  set (u := fresh (dom h1')).
  assert (preview_puzzle ≠ tb) as Hptb.
  { intros ->. by rewrite Hl in Hnew. }
  assert (preview_puzzle ≠ o) as Hpo.
  { apply fresh_not_lookup. by exists b. }
  assert (tb ≠ o) as Htbo.
  { apply fresh_not_lookup. by exists s. }
  assert (h1' !! tb = Some s) as Hs'.
  { unfold h1'. by rewrite lookup_insert_ne. }
  assert (h1' !! o = Some b) as Ho by apply lookup_insert_eq.
  assert (preview_puzzle ≠ u) as Hpu.
  { apply fresh_not_lookup. by exists b. }
  assert (tb ≠ u) as Htbu.
  { apply fresh_not_lookup. by exists s. }
  assert (o ≠ u) as Hou.
  { apply fresh_not_lookup. by exists b. }
  pose proof (fills_completion b s Hwf Hrng Hcf) as Hcompl.
  assert (wf s) as Hwfs by apply Hfills.
  eexists _, _, s. split; [done|].
  destruct (reset_timer_boards
              (Game preview_puzzle o u tb 0 false (timer_mode st)
                 (countdown_minutes st) (timer_seconds st)
                 (timer_running st)))
    as (-> & -> & -> & -> & -> & ->).
  cbn [puzzle original_puzzle user_puzzle solution hints_used
       game_completed].
  split; [done|]. split; [done|]. split.
  { apply NoDup_cons. split.
    { rewrite !elem_of_cons, elem_of_nil. intros [?|[?|[?|[]]]]; done. }
    apply NoDup_cons. split.
    { rewrite !elem_of_cons, elem_of_nil. intros [?|[?|[]]]; done. }
    apply NoDup_cons. split.
    { rewrite !elem_of_cons, elem_of_nil. intros [?|[]]; done. }
    apply NoDup_singleton. }
  split; [by rewrite lookup_insert_ne|].
  split; [by rewrite lookup_insert_ne|].
  split; [apply lookup_insert_eq|].
  split; [by rewrite lookup_insert_ne|].
  split; [done|]. split; [done|]. split; [by apply Hcompl|].
  split.
  { intros u' Hu'. by apply is_puzzle_complete_spec. }
  destruct (fills_listable b Hwf) as (L & Hnd & HL).
  split.
  - intros ->.
    destruct (other_element L s) as [Hall|(s' & Hin & Hne)].
    + assert (2 = 1) as Habs; [|done].
      apply Hone. intros s' Hs''. by apply Hall, HL.
    + exists s'. apply HL in Hin.
      split; [by apply (fills_completion b s' Hwf Hrng Hcf)|].
      destruct (is_puzzle_complete_spec s' s (proj1 Hin) Hwfs)
        as (r & -> & Hiff).
      destruct r; [|done]. by destruct Hne; apply Hiff.
  - intros (s' & Hs'' & Hrej).
    assert (n ≠ 1); [|lia]. intros Hn1.
    pose proof (proj1 Hone Hn1) as Hall.
    assert (s' = s) as ->
      by by apply Hall, (fills_completion b s' Hwf Hrng Hcf).
    destruct (is_puzzle_complete_spec s s Hwfs Hwfs) as (r & Hr & Hiff).
    rewrite Hr in Hrej. assert (r = true) by by apply Hiff. congruence.
Qed.

Lemma loaded_puzzle_solution_witness :
  ∃ res h1,
    validate_preview_puzzle 1%positive {[ 1%positive := sample_puzzle ]}
    = Ok (res, h1) ∧
    ∀ test_board solution_count clues difficulty,
      res = validation_passed test_board solution_count clues difficulty →
      ∃ st' h2 s,
        confirm_load_puzzle 1%positive test_board sample_game h1
        = (st', h2) ∧
        puzzle st' = 1%positive ∧ solution st' = test_board ∧
        NoDup [puzzle st'; original_puzzle st'; user_puzzle st';
               solution st'] ∧
        h2 !! puzzle st' = Some sample_puzzle ∧
        h2 !! original_puzzle st' = Some sample_puzzle ∧
        h2 !! user_puzzle st' = Some sample_puzzle ∧
        h2 !! solution st' = Some s ∧
        hints_used st' = 0 ∧ game_completed st' = false ∧
        completion sample_puzzle s ∧
        (∀ u, wf u →
           ∃ r, is_puzzle_complete u s = Ok r ∧ (r = true ↔ u = s)) ∧
        (solution_count = 2
         ↔ ∃ s', completion sample_puzzle s' ∧
                 is_puzzle_complete s' s = Ok false).
Proof.
  apply (loaded_puzzle_solution 1%positive {[ 1%positive := sample_puzzle ]}
           sample_puzzle sample_game).
  - reflexivity.
  - apply concrete_wf. vm_compute. reflexivity.
  - apply concrete_in_range. vm_compute. reflexivity.
Defined.

(** ** Hints in a row *)

Lemma empties_zero_full b : empties b = 0%nat ↔ full b.
Proof.
  unfold empties, full. rewrite length_zero_iff_nil. split.
  - intros Hnil i j Hi Hj Hz.
    assert ((i, j) ∈ filter (λ ij : nat * nat, at_ b ij.1 ij.2 = 0) all_cells)
      as Hin.
    { apply list_elem_of_filter. split; [done|]. by apply elem_of_all_cells. }
    rewrite Hnil in Hin. by apply elem_of_nil in Hin.
  - intros Hfull.
    destruct (filter _ all_cells) as [|[i j] l] eqn:Hf; [done|].
    assert ((i, j) ∈ filter (λ ij : nat * nat, at_ b ij.1 ij.2 = 0) all_cells)
      as [Hz [Hi Hj]%elem_of_all_cells]%list_elem_of_filter
      by (rewrite Hf; by left).
    by destruct (Hfull i j Hi Hj).
Qed.

Lemma full_extends_eq u s : wf u → wf s → full u → extends u s → u = s.
Proof.
  intros Hu Hs Hfull Hext. apply board_ext; [done..|].
  intros i j Hi Hj. symmetry. apply Hext; [done..|]. by apply Hfull.
Qed.

Lemma give_hint_fills u s hints_used :
  wf u → valid_grid s → extends u s → empties u ≠ 0%nat →
  ∃ u' h,
    give_hint u s hints_used = Ok (u', hints_used + 1, Some h) ∧
    wf u' ∧ extends u' s ∧ empties u = S (empties u').
Proof.
  intros Hu Hs Hext Hnotfull.
  assert (∀ i j, (i < 9)%nat → (j < 9)%nat → at_ u i j = 0 →
            candidates u i j ≠ []) as Hcand.
  { intros i j Hi Hj Hz Hnil.
    assert (at_ s i j ∈ candidates u i j) as Hin; [|by rewrite Hnil in Hin;
      apply elem_of_nil in Hin].
    unfold candidates. apply list_elem_of_filter.
    destruct Hs as (_ & Hdig & Hpeers). split; [|by apply elem_of_digits, Hdig].
    intros i' j' Hi' Hj' Hp Heq.
    assert (at_ u i' j' ≠ 0) as Hnz.
    { rewrite Heq. specialize (Hdig i j Hi Hj). lia. }
    rewrite <- (Hext i' j' Hi' Hj' Hnz) in Heq.
    by apply (Hpeers i j i' j'). }
  destruct (give_hint_spec u s hints_used Hu (proj1 Hs))
    as [[Hrun Hnone]|(i & j & Hi & Hj & Hz & Hrun & _)].
  - destruct Hnotfull. apply empties_zero_full. intros i j Hi Hj Hz.
    by apply (Hcand i j Hi Hj Hz), Hnone.
  - eexists _, _. split; [exact Hrun|].
    assert (at_ s i j ≠ 0) as Hv.
    { destruct Hs as (_ & Hdig & _). specialize (Hdig i j Hi Hj). lia. }
    split; [by apply upd_wf|]. split.
    + intros i' j' Hi' Hj'. rewrite at_upd by done.
      destruct (decide _) as [[<- <-]|]; [done|]. by apply Hext.
    + by apply empties_upd.
Qed.

Lemma give_hints_spec n u s hints_used :
  wf u → valid_grid s → extends u s → (n ≤ empties u)%nat →
  ∃ u', give_hints n u s hints_used = Ok (u', hints_used + Z.of_nat n) ∧
    wf u' ∧ extends u' s ∧ empties u = (n + empties u')%nat.
Proof.
  revert u hints_used. induction n as [|n IH]; intros u k Hu Hs Hext Hn.
  - exists u. cbn [give_hints]. split; [f_equal; f_equal; lia|done].
  - destruct (give_hint_fills u s k Hu Hs Hext) as (u1 & h & Hrun & Hu1 & Hext1
      & Hemp); [lia|].
    cbn [give_hints]. rewrite Hrun. ok_step. cbn [fst snd].
    destruct (IH u1 (k + 1) Hu1 Hs Hext1) as (u' & -> & Hu' & Hext' & Hemp');
      [lia|].
    exists u'. split; [f_equal; f_equal; lia|]. split; [done|].
    split; [done|lia].
Qed.

(** X24: hints alone finish a game.  When every entry of the player's
    grid agrees with the solution, each of the first hints asked in a row
    fills one more cell, and [is_puzzle_complete] accepts the grid
    exactly after as many hints as the grid had empty cells, which is
    then the count of [hints_used]. *)
Theorem hints_complete_puzzle n u s hints_used :
  wf u → valid_grid s → extends u s → (n ≤ empties u)%nat →
  ∃ u' r,
    give_hints n u s hints_used = Ok (u', hints_used + Z.of_nat n) ∧
    clue_count u' = (clue_count u + n)%nat ∧
    is_puzzle_complete u' s = Ok r ∧
    (r = true ↔ n = empties u).
Proof.
  intros Hu Hs Hext Hn.
  destruct (give_hints_spec n u s hints_used Hu Hs Hext Hn)
    as (u' & Hrun & Hu' & Hext' & Hemp).
  destruct (is_puzzle_complete_spec u' s Hu' (proj1 Hs)) as (r & Hr & Hiff).
  exists u', r. split; [done|].
  assert (∀ b, (empties b + clue_count b)%nat = 81%nat) as Hsum.
  { intros b. unfold empties, clue_count. rewrite <- length_all_cells.
    induction all_cells as [|[i j] cs IHcs]; [done|].
    rewrite !filter_cons. cbn [fst snd].
    destruct (decide (at_ b i j = 0)); destruct (decide (at_ b i j ≠ 0));
      cbn [length]; try done; lia. }
  split.
  { pose proof (Hsum u). pose proof (Hsum u'). lia. }
  split; [done|]. rewrite Hiff. split.
  - intros ->.
    assert (empties s = 0%nat) as Hz; [|lia].
    by apply empties_zero_full, valid_grid_full.
  - intros ->. apply full_extends_eq; [done|apply Hs| |done].
    apply empties_zero_full. lia.
Qed.

Lemma hints_complete_puzzle_witness :
  ∃ u' r,
    give_hints 2 sample_puzzle sample_solution 0
    = Ok (u', 0 + Z.of_nat 2) ∧
    clue_count u' = (clue_count sample_puzzle + 2)%nat ∧
    is_puzzle_complete u' sample_solution = Ok r ∧
    (r = true ↔ 2%nat = empties sample_puzzle).
Proof.
  apply (hints_complete_puzzle 2 sample_puzzle sample_solution 0).
  - apply concrete_wf. vm_compute. reflexivity.
  - apply sample_solution_valid.
  - apply sample_solution_valid.
  - vm_compute. lia.
Defined.
